(** * Robust (Toeplitz) KronPCA: a shallow embedding of [cca/kron_pca.py]

    The development follows the layering of the Python module:

    - a small model of the NumPy operations the module relies on
      (row-major arrays as lists of rows, slicing, fancy indexing,
      reshaping, [argsort]) with Python's exceptions as an error monad;
    - the Pitsianis-Van Loan layout transform ([pv_permutation],
      [pv_rearrange], [pv_rearrange_inv]) and its memoising decorator;
    - the proximal operators, the Toeplitz projector [build_P] and the
      two proximal-gradient solvers;
    - the cross-validation and grid-search drivers;
    - the Toeplitz-constrained solver and the two drivers on Python
      integers of either sign, for the statements about their
      configuration.

    Floating-point numbers are idealised: every numeric definition is
    generic in a carrier [F] with the arithmetic the module uses, and is
    instantiated with the rationals [Q] to run the code on concrete
    inputs and with the reals [R] to state the metric facts about
    [build_P].  The carrier has no NaN and no rounding.  The
    LAPACK-backed routines ([scipy.linalg.svd],
    [numpy.linalg.matrix_rank], [numpy.linalg.inv],
    [numpy.linalg.slogdet]) are parameters of the solver and the
    drivers. *)

From Stdlib Require Import ZArith QArith Reals Lra Lia.
From stdpp Require Import base option list sorting gmap.

Set Default Proof Using "Type".

(* ================================================================== *)
(** * Exceptions *)
(* ================================================================== *)

(** The Python exceptions the module can raise. *)
Inductive exn : Set :=
  | IndexError
  | ValueError
  | ZeroDivisionError
  | UnboundLocalError
  | LinAlgError.

Inductive result (A : Type) : Type :=
  | Ok (a : A)
  | Raise (e : exn).
Arguments Ok {A} a.
Arguments Raise {A} e.

#[global] Instance result_ret : MRet result := @Ok.
#[global] Instance result_bind : MBind result := λ A B f m,
  match m with Ok a => f a | Raise e => Raise e end.
#[global] Instance result_fmap : FMap result := λ A B f m,
  match m with Ok a => Ok (f a) | Raise e => Raise e end.

Definition is_Ok {A} (m : result A) : Prop := ∃ a, m = Ok a.

(** [o ?! e]: the value of [o], or exception [e] when there is none. *)
Definition or_raise {A} (o : option A) (e : exn) : result A :=
  match o with Some a => Ok a | None => Raise e end.
Infix "?!" := or_raise (at level 50).

(* ================================================================== *)
(** * NumPy arrays *)
(* ================================================================== *)

(** A two-dimensional array is the list of its rows; a one-dimensional
    array is a list. *)
Abbreviation matrix A := (list (list A)).

Section ndarray.
Context {A : Type}.

(** [M.shape == (r, c)] *)
Definition has_shape (M : matrix A) (r c : nat) : Prop :=
  length M = r ∧ Forall (λ row, length row = c) M.

(** [M.ravel()]: the row-major flattening. *)
Definition ravel (M : matrix A) : list A := concat M.

(** [M.size] *)
Definition size (M : matrix A) : nat := length (ravel M).

(** The rows of a flat buffer cut into [r] rows of [c] entries. *)
Fixpoint chunks (r c : nat) (l : list A) : matrix A :=
  match r with
  | 0 => []
  | S r' => take c l :: chunks r' c (drop c l)
  end.

(** [l.reshape((r, c))]: NumPy raises [ValueError] when the sizes
    disagree. *)
Definition reshape2 (l : list A) (r c : nat) : result (matrix A) :=
  if decide (length l = r * c) then Ok (chunks r c l) else Raise ValueError.

(** [np.zeros((r, c))], with the zero of the element type given. *)
Definition full2 (r c : nat) (z : A) : matrix A := replicate r (replicate c z).

(** [l[lo:hi]] for non-negative bounds: Python clips the bounds to the
    length, as [take] and [drop] do. *)
Definition slice (lo hi : nat) {B} (l : list B) : list B :=
  take (hi - lo) (drop lo l).

(** [M[r0:r1, c0:c1]] *)
Definition block (M : matrix A) (r0 r1 c0 c1 : nat) : matrix A :=
  slice c0 c1 <$> slice r0 r1 M.

Definition ncols (M : matrix A) : nat :=
  match M with [] => 0 | row :: _ => length row end.

(** [M.T]: entry [(j, i)] of the transpose is entry [(i, j)] of [M]. *)
Definition transpose (M : matrix A) : matrix A :=
  (λ j, omap (λ row : list A, row !! j) M) <$> seq 0 (ncols M).

(** [l[idx]] for an integer index array [idx] (fancy indexing):
    [IndexError] when an index is out of bounds. *)
Definition take_idx (l : list A) (idx : list nat) : result (list A) :=
  mapM (λ i, l !! i) idx ?! IndexError.

(** [M[r, :] = row] *)
Definition set_row (r : nat) (row : list A) (M : matrix A) : matrix A :=
  <[r := row]> M.
End ndarray.

(** [np.arange(n)] *)
Definition arange (n : nat) : list nat := seq 0 n.

(** [a.argsort()]: the indices that sort [a].  The keys are paired with
    their positions and sorted by key. *)
Definition key_le (p q : nat * nat) : Prop := p.1 ≤ q.1.
#[global] Instance key_le_dec p q : Decision (key_le p q) :=
  decide (p.1 ≤ q.1).

Definition argsort (a : list nat) : list nat :=
  (merge_sort key_le (zip a (seq 0 (length a)))).*2.

(* ================================================================== *)
(** * The memoising decorator *)
(* ================================================================== *)

(** [class memoized]: the cache is a dictionary from argument tuples to
    return values.  Calling the decorated function returns the cached
    value when there is one, and otherwise computes, stores and returns
    it.  (Argument tuples of integers are always hashable.) *)
Section memoized.
Context {V : Type}.

Definition memoized_call (func : nat → nat → V)
    (cache : gmap (nat * nat) V) (ps pt : nat) : V * gmap (nat * nat) V :=
  match cache !! (ps, pt) with
  | Some value => (value, cache)
  | None => let value := func ps pt in (value, <[(ps, pt) := value]> cache)
  end.

(** Every entry of the cache is the value of [func] at its key. *)
Definition cache_coherent (func : nat → nat → V)
    (cache : gmap (nat * nat) V) : Prop :=
  ∀ ps pt v, cache !! (ps, pt) = Some v → v = func ps pt.
End memoized.

(* ================================================================== *)
(** * Layout transform *)
(* ================================================================== *)

(** Row [i*pt + j] of [I_perm]: the block of [I] at block-row [i] and
    block-column [j], transposed and flattened. *)
Definition pv_block_row (I : matrix nat) (ps i j : nat) : list nat :=
  let I_block := block I (i * ps) ((i + 1) * ps) (j * ps) ((j + 1) * ps) in
  ravel (transpose I_block).

(** The two nested loops of [pv_permutation], writing the rows of
    [I_perm] in place. *)
Definition pv_fill (I : matrix nat) (ps pt : nat) (I_perm : matrix nat)
    : matrix nat :=
  foldl (λ I_perm i,
    foldl (λ I_perm j,
      let row_idx := i * pt + j in
      set_row row_idx (pv_block_row I ps i j) I_perm)
      I_perm (seq 0 pt))
    I_perm (seq 0 pt).

(** The body of [pv_permutation]. *)
Definition pv_permutation (ps pt : nat) : result (list nat * list nat) :=
  I ← reshape2 (arange (ps ^ 2 * pt ^ 2)) (ps * pt) (ps * pt);
  let I_perm := pv_fill I ps pt (full2 (pt ^ 2) (ps ^ 2) 0) in
  let perm := ravel I_perm in
  let perm_inv := argsort perm in
  Ok (perm, perm_inv).

(** The decorated function: what a call returns, and the cache after
    it. *)
Definition pv_permutation_memo := memoized_call pv_permutation.

(** The permutation in closed form: entry [(b, a)] of block [(i, j)],
    enumerated block by block and, inside a block, column by column. *)
Definition pv_perm (ps pt : nat) : list nat :=
  i ← seq 0 pt; j ← seq 0 pt; a ← seq 0 ps; b ← seq 0 ps;
  [(i * ps + b) * (ps * pt) + j * ps + a].

Section rearrange.
Context {A : Type}.

(** [pv_rearrange(C, ps, pt)].  The permutation pair comes out of the
    memoised [pv_permutation]; by [pv_permutation_memo_transparent]
    that is the value of the body. *)
Definition pv_rearrange (C : matrix A) (ps pt : nat) : result (matrix A) :=
  '(perm, _) ← pv_permutation ps pt;
  v ← take_idx (ravel C) perm;
  reshape2 v (pt ^ 2) (ps ^ 2).

(** [pv_rearrange_inv(C, ps, pt)] *)
Definition pv_rearrange_inv (C : matrix A) (ps pt : nat) : result (matrix A) :=
  '(_, perm_inv) ← pv_permutation ps pt;
  v ← take_idx (ravel C) perm_inv;
  reshape2 v (ps * pt) (ps * pt).
End rearrange.

(* ================================================================== *)
(** * Numbers *)
(* ================================================================== *)

(** The arithmetic of the module's floating-point entries.  [fltb] is
    [<], [feqb] is [==], [of_Z] converts an integer. *)
Class Scalar (F : Type) := {
  fzero : F;
  fone : F;
  fadd : F → F → F;
  fsub : F → F → F;
  fmul : F → F → F;
  fdiv : F → F → F;
  fsqrt : F → F;
  fltb : F → F → bool;
  feqb : F → F → bool;
  of_Z : Z → F;
}.

(** The routines the module takes from LAPACK and [numpy]'s
    transcendental functions:
    - [svd M] is [scipy.linalg.svd(M, full_matrices=False)];
    - [matrix_rank M] is [np.linalg.matrix_rank(M)];
    - [inv M] is [np.linalg.inv(M)], which raises [LinAlgError] on a
      singular matrix;
    - [slogdet M] is the second component of [np.linalg.slogdet(M)];
    - [flog] and [fpi] are [np.log] and [np.pi]. *)
Class Backend (F : Type) := {
  svd : matrix F → matrix F * list F * matrix F;
  matrix_rank : matrix F → nat;
  inv : matrix F → result (matrix F);
  slogdet : matrix F → F;
  flog : F → F;
  fpi : F;
}.

(** A floating-point value that may be [-np.inf]. *)
Inductive ext (F : Type) : Type :=
  | NegInf
  | Fin (x : F).
Arguments NegInf {F}.
Arguments Fin {F} x.

Section scalar_ops.
Context {F : Type} `{!Scalar F}.

Definition of_nat (n : nat) : F := of_Z (Z.of_nat n).

(** [-x] *)
Definition fneg (x : F) : F := fsub fzero x.

(** [np.abs(x)] *)
Definition fabs (x : F) : F := if fltb x fzero then fneg x else x.

(** [np.sign(x)] *)
Definition fsign (x : F) : F :=
  if fltb x fzero then fneg fone else if fltb fzero x then fone else fzero.

(** [np.maximum(x, y)] *)
Definition fmaximum (x y : F) : F := if fltb x y then y else x.

(** [np.sum] of a one-dimensional array. *)
Definition fsum (l : list F) : F := foldl fadd fzero l.

(** Arithmetic on values that may be [-np.inf]. *)
Definition ext_add (x y : ext F) : ext F :=
  match x, y with
  | Fin a, Fin b => Fin (fadd a b)
  | _, _ => NegInf
  end.

Definition ext_div (x : ext F) (d : F) : ext F :=
  match x with Fin a => Fin (fdiv a d) | NegInf => NegInf end.

Definition ext_ltb (x y : ext F) : bool :=
  match x, y with
  | NegInf, Fin _ => true
  | Fin a, Fin b => fltb a b
  | _, NegInf => false
  end.

(** [np.mean] of a one-dimensional array of such values. *)
Definition ext_mean (l : list (ext F)) : ext F :=
  ext_div (foldl ext_add (Fin fzero) l) (of_nat (length l)).

(** [a.argmax()]: the position of the first maximum, scanning from
    position [i]; [ValueError] on an empty array. *)
Fixpoint argmax_from (i : nat) (best : nat * ext F) (l : list (ext F))
    : nat :=
  match l with
  | [] => best.1
  | x :: l' =>
      argmax_from (S i) (if ext_ltb best.2 x then (i, x) else best) l'
  end.

Definition argmax (l : list (ext F)) : result nat :=
  match l with
  | [] => Raise ValueError
  | x :: l' => Ok (argmax_from 1 (0, x) l')
  end.
End scalar_ops.

(* ================================================================== *)
(** * Matrices of numbers *)
(* ================================================================== *)

Section matrix_ops.
Context {F : Type} `{!Scalar F}.

(** [np.zeros((r, c))] for dimensions given as Python integers:
    [ValueError] on a negative dimension. *)
Definition np_zeros (r c : Z) : result (matrix F) :=
  if decide (r < 0 ∨ c < 0)%Z then Raise ValueError
  else Ok (full2 (Z.to_nat r) (Z.to_nat c) fzero).

(** [np.zeros(M.shape)] *)
Definition zeros_like (M : matrix F) : matrix F :=
  (λ row : list F, (λ _, fzero) <$> row) <$> M.

(** Elementwise [u + v], [u - v] on rows and [A + B], [A - B], [t * A],
    [A / t] on matrices.  The operands of the module always have
    equal shapes. *)
Definition vadd (u v : list F) : list F := zip_with fadd u v.
Definition vsub (u v : list F) : list F := zip_with fsub u v.
Definition madd (A B : matrix F) : matrix F := zip_with vadd A B.
Definition msub (A B : matrix F) : matrix F := zip_with vsub A B.
Definition mscale (t : F) (A : matrix F) : matrix F :=
  (λ row : list F, fmul t <$> row) <$> A.
Definition mdiv (A : matrix F) (t : F) : matrix F :=
  (λ row : list F, (λ x, fdiv x t) <$> row) <$> A.

(** [np.dot(A, B)] for two-dimensional [A] and [B]. *)
Definition dot (A B : matrix F) : matrix F :=
  (λ row : list F, (λ col, fsum (zip_with fmul row col)) <$> transpose B) <$> A.

(** [np.diag(s)] for a one-dimensional [s]. *)
Definition np_diag (s : list F) : matrix F :=
  imap (λ i x, <[i := x]> (replicate (length s) fzero)) s.

(** [np.trace(A)] *)
Definition trace (A : matrix F) : F :=
  fsum (omap (λ i, A !! i ≫= (λ row : list F, row !! i)) (seq 0 (length A))).

(** [np.sum(np.abs(A))] *)
Definition abs_sum (A : matrix F) : F := fsum (fabs <$> ravel A).

(** [np.mean(A**2)] *)
Definition mean_square (A : matrix F) : F :=
  fdiv (fsum ((λ x, fmul x x) <$> ravel A)) (of_nat (size A)).

(** [X.mean(axis=0)]: the mean of every column. *)
Definition mean_axis0 (X : matrix F) : list F :=
  (λ col, fdiv (fsum col) (of_nat (length X))) <$> transpose X.

(** [X - v] with the row [v] broadcast over the rows of [X]. *)
Definition sub_row (X : matrix F) (v : list F) : matrix F :=
  (λ row : list F, vsub row v) <$> X.

(** [np.diagonal(M, offset)]: the entries [M[i, i + offset]] for a
    non-negative offset and [M[i - offset, i]] for a negative one. *)
Definition diagonal {A} (M : matrix A) (offset : Z) : list A :=
  omap (λ i,
    if decide (0 ≤ offset)%Z
    then M !! i ≫= (λ row : list A, row !! (i + Z.to_nat offset))
    else M !! (i + Z.to_nat (- offset)) ≫= (λ row : list A, row !! i))
    (seq 0 (length M)).

(** [P[r, cols] = v] for an index array [cols]. *)
Definition set_entries {A} (r : nat) (cols : list nat) (v : A)
    (P : matrix A) : matrix A :=
  alter (λ row : list A, foldl (λ row c, <[c := v]> row) row cols) r P.

(** [np.nonzero(M)]: the row indices and the column indices of the
    entries that differ from zero, in row-major order. *)
Definition nonzero (M : matrix F) : list nat * list nat :=
  let hits :=
    '(i, row) ← imap pair M;
    '(j, x) ← imap pair row;
    if feqb x fzero then [] else [(i, j)] in
  (hits.*1, hits.*2).
End matrix_ops.

(** [range(lo, hi)] *)
Definition range (lo hi : Z) : list Z := seqZ lo (hi - lo).

(** Loops in the error monad: a [for] loop, and a [for] loop whose body
    may [break]. *)
Inductive ctl (S : Type) : Type :=
  | Continue (s : S)
  | Break (s : S).
Arguments Continue {S} s.
Arguments Break {S} s.

Fixpoint for_each {S X} (body : S → X → result S) (s : S) (xs : list X)
    : result S :=
  match xs with
  | [] => Ok s
  | x :: xs' => s' ← body s x; for_each body s' xs'
  end.

Fixpoint for_break {S X} (body : S → X → result (ctl S)) (s : S)
    (xs : list X) : result S :=
  match xs with
  | [] => Ok s
  | x :: xs' =>
      c ← body s x;
      match c with
      | Continue s' => for_break body s' xs'
      | Break s' => Ok s'
      end
  end.

(* ================================================================== *)
(** * Proximal operators *)
(* ================================================================== *)

Section prox.
Context {F : Type} `{!Scalar F} `{!Backend F}.

(** [soft_sv_threshold(M, lambda_param)] *)
Definition soft_sv_threshold (M : matrix F) (lambda_param : F) : matrix F :=
  let '(U, s, Vh) := svd M in
  let transformed_svs := (λ x, fmaximum (fsub x lambda_param) fzero) <$> s in
  dot U (dot (np_diag transformed_svs) Vh).

(** One entry of [soft_entrywise_threshold]. *)
Definition soft_threshold (x lambda_param : F) : F :=
  fmul (fsign x) (fmaximum (fsub (fabs x) lambda_param) fzero).

(** [soft_entrywise_threshold(M, lambda_param)] on a two-dimensional
    array, and on a one-dimensional one (a row). *)
Definition soft_entrywise_threshold (M : matrix F) (lambda_param : F)
    : matrix F :=
  (λ row : list F, (λ x, soft_threshold x lambda_param) <$> row) <$> M.

Definition soft_entrywise_threshold_row (v : list F) (lambda_param : F)
    : list F :=
  (λ x, soft_threshold x lambda_param) <$> v.
End prox.

(* ================================================================== *)
(** * Unconstrained solver *)
(* ================================================================== *)

(** The step-size argument [tau]: a number, or an [np.ndarray] holding a
    schedule. *)
Inductive tau_arg (F : Type) : Type :=
  | TauScalar (t : F)
  | TauSchedule (ts : list F).
Arguments TauScalar {F} t.
Arguments TauSchedule {F} ts.

(** The local variables of [prox_grad_robust_kron_pca] that the loop
    assigns; [L] and [S] are unbound until the first iteration. *)
Record kron_state (F : Type) : Type := KronState {
  st_M_prev : matrix F;
  st_S_prev : matrix F;
  st_L_prev : matrix F;
  st_L : option (matrix F);
  st_S : option (matrix F);
}.
Arguments KronState {F}.
Arguments st_M_prev {F}.
Arguments st_S_prev {F}.
Arguments st_L_prev {F}.
Arguments st_L {F}.
Arguments st_S {F}.

Section kron_pca.
Context {F : Type} `{!Scalar F} `{!Backend F}.

(** [tau_vals]: [np.ones(num_iter)*tau] for a number ([1.0 * tau] is
    [tau]), the schedule itself otherwise. *)
Definition tau_vals_of (tau : tau_arg F) (num_iter : nat) : list F :=
  match tau with
  | TauScalar t => replicate num_iter t
  | TauSchedule ts => ts
  end.

(** One iteration of the loop. *)
Definition kron_iteration (R : matrix F) (lambda_L lambda_S : F)
    (tau_vals : list F) (st : kron_state F) (k : nat)
    : result (kron_state F) :=
  tau ← tau_vals !! k ?! IndexError;
  let L := soft_sv_threshold (msub (st_M_prev st) (st_S_prev st))
             (fmul tau lambda_L) in
  let S := soft_entrywise_threshold (msub (st_M_prev st) (st_L_prev st))
             (fmul tau lambda_S) in
  let M := msub (madd L S) (mscale tau (msub (madd L S) R)) in
  Ok (KronState M S L (Some L) (Some S)).

(** [prox_grad_robust_kron_pca(sample_cov, ps, pt, lambda_L, lambda_S,
    num_iter, tau)] *)
Definition prox_grad_robust_kron_pca (sample_cov : matrix F) (ps pt : nat)
    (lambda_L lambda_S : F) (num_iter : nat) (tau : tau_arg F)
    : result (matrix F) :=
  R ← pv_rearrange sample_cov ps pt;
  let L_prev := R in
  let S_prev := zeros_like R in
  let M_prev := madd L_prev S_prev in
  let tau_vals := tau_vals_of tau num_iter in
  st ← for_each (kron_iteration R lambda_L lambda_S tau_vals)
         (KronState M_prev S_prev L_prev None None) (seq 0 num_iter);
  L ← st_L st ?! UnboundLocalError;
  S ← st_S st ?! UnboundLocalError;
  pv_rearrange_inv (madd L S) ps pt.

(** The factors of [svd] have the shapes LAPACK gives them: for an
    [m]-by-[n] array, [(m, k)], [(k,)] and [(k, n)] with
    [k = min(m, n)]. *)
Definition svd_shapes (m n : nat) : Prop :=
  ∀ M U s Vh, has_shape M m n → svd M = (U, s, Vh) →
    has_shape U m (m `min` n) ∧ length s = m `min` n ∧
    has_shape Vh (m `min` n) n.

(** The iteration as the specification words it: [tau_k] is the step
    of iteration [k] (counting from 1), and the iterates
    [(L_k, S_k, M_k)] start from [L_0 = R], [S_0 = 0],
    [M_0 = L_0 + S_0] and follow
    [L_k = SVThresh(M_{k-1} - S_{k-1}, tau_k * lambda_L)],
    [S_k = EntryThresh(M_{k-1} - L_{k-1}, tau_k * lambda_S)],
    [M_k = L_k + S_k - tau_k * (L_k + S_k - R)]. *)
Definition spec_tau (tau : tau_arg F) (k : nat) : F :=
  match tau with
  | TauScalar t => t
  | TauSchedule ts => default fzero (ts !! (k - 1))
  end.

Fixpoint spec_iterates (R : matrix F) (lambda_L lambda_S : F)
    (tau : tau_arg F) (k : nat) : matrix F * matrix F * matrix F :=
  match k with
  | 0 => (R, zeros_like R, madd R (zeros_like R))
  | S k' =>
      let '(L', S', M') := spec_iterates R lambda_L lambda_S tau k' in
      let tau_k := spec_tau tau k in
      let L := soft_sv_threshold (msub M' S') (fmul tau_k lambda_L) in
      let S := soft_entrywise_threshold (msub M' L') (fmul tau_k lambda_S) in
      (L, S, msub (madd L S) (mscale tau_k (msub (madd L S) R)))
  end.
End kron_pca.

(* ================================================================== *)
(** * Toeplitz projector and Toeplitz-constrained solver *)
(* ================================================================== *)

(** The local variables of [prox_grad_robust_toeplitz_kron_pca] that the
    loop assigns.  [S_tilde] is updated in place and [S_tilde_prev] is
    bound to the same array from the first iteration on; [S_tilde_prev]
    is only read at the start of an iteration, before the update, so the
    sharing is not observable and the two are kept as values. *)
Record toeplitz_state (F : Type) : Type := ToeplitzState {
  st_M_tilde_prev : matrix F;
  st_S_tilde_prev : matrix F;
  st_L_tilde_prev : matrix F;
  st_S_tilde : matrix F;
  st_L_tilde : option (matrix F);
  st_cov_est : option (matrix F);
  st_cov_est_prev : option (matrix F);
}.
Arguments ToeplitzState {F}.
Arguments st_M_tilde_prev {F}.
Arguments st_S_tilde_prev {F}.
Arguments st_L_tilde_prev {F}.
Arguments st_S_tilde {F}.
Arguments st_L_tilde {F}.
Arguments st_cov_est {F}.
Arguments st_cov_est_prev {F}.

Section toeplitz.
Context {F : Type} `{!Scalar F} `{!Backend F}.

(** [1/np.sqrt(pt - np.abs(offset))] *)
Definition diag_weight (pt : nat) (offset : Z) : F :=
  fdiv fone (fsqrt (of_Z (Z.of_nat pt - Z.abs offset))).

(** [idx] of [build_P]: the index grid [1 .. pt^2], transposed. *)
Definition build_P_idx (pt : nat) : result (matrix nat) :=
  grid ← reshape2 (arange (pt ^ 2)) pt pt;
  Ok ((λ row : list nat, (λ x, x + 1) <$> row) <$> transpose grid).

(** [build_P(pt)] *)
Definition build_P (pt : nat) : result (matrix F) :=
  P ← np_zeros (2 * Z.of_nat pt - 1) (Z.of_nat pt ^ 2);
  idx ← build_P_idx pt;
  Ok (foldl (λ P offset,
        let diag_idx := diagonal idx offset in
        set_entries (Z.to_nat (offset + Z.of_nat pt - 1))
          ((λ x, x - 1) <$> diag_idx) (diag_weight pt offset) P)
      P (range (- Z.of_nat pt + 1) (Z.of_nat pt))).

(** The columns [diag_idx - 1] of a diagonal offset in closed form:
    entry [i] of the diagonal of [idx] lies in row [i] and column
    [i + offset] for a non-negative offset, in row [i - offset] and
    column [i] for a negative one, and [idx[r, c] - 1 = c*pt + r]. *)
Definition diag_cols (pt : nat) (offset : Z) : list nat :=
  (λ i, if decide (0 ≤ offset)%Z
        then (i + Z.to_nat offset) * pt + i
        else i * pt + (i + Z.to_nat (- offset)))
  <$> seq 0 (pt - Z.to_nat (Z.abs offset)).

(** The diagonal offset on which the column [c] of [P] lies. *)
Definition offset_of (pt c : nat) : Z :=
  Z.of_nat (c / pt) - Z.of_nat (c `mod` pt).

(** The row of [P] for a diagonal offset. *)
Definition build_P_row (pt : nat) (offset : Z) : list F :=
  foldl (λ row c, <[c := diag_weight pt offset]> row)
    (replicate (pt ^ 2) fzero) (diag_cols pt offset).

(** [np.eye(n)] *)
Definition eye (n : nat) : matrix F := np_diag (replicate n fone).

(** The inner loop over the diagonal offsets, updating the rows of
    [S_tilde] in place. *)
Definition update_S_tilde (pt : nat) (tau lambda_S : F)
    (M_tilde_prev L_tilde_prev S_tilde : matrix F) : result (matrix F) :=
  for_each (λ S_tilde j,
    let cj := fdiv fone (fsqrt (of_Z (Z.of_nat pt - Z.abs j))) in
    let r := Z.to_nat (j + Z.of_nat pt - 1) in
    m ← M_tilde_prev !! r ?! IndexError;
    l ← L_tilde_prev !! r ?! IndexError;
    if decide (r < length S_tilde)
    then Ok (set_row r (soft_entrywise_threshold_row (vsub m l)
                          (fmul (fmul tau lambda_S) cj)) S_tilde)
    else Raise IndexError)
    S_tilde (range (- Z.of_nat pt + 1) (Z.of_nat pt)).

(** [np.sum(np.nonzero(S_tilde))/S_tilde.size] *)
Definition sparsity_of (S_tilde : matrix F) : F :=
  let '(rows, cols) := nonzero S_tilde in
  fdiv (of_nat (sum_list rows + sum_list cols)) (of_nat (size S_tilde)).

(** One iteration of the main loop, with its convergence check. *)
Definition toeplitz_iteration (P R_tilde : matrix F) (ps pt : nat)
    (lambda_L lambda_S tau tol : F) (stop_cond_interval : nat)
    (st : toeplitz_state F) (k : nat) : result (ctl (toeplitz_state F)) :=
  let L_tilde := soft_sv_threshold
                   (msub (st_M_tilde_prev st) (st_S_tilde_prev st))
                   (fmul tau lambda_L) in
  S_tilde ← update_S_tilde pt tau lambda_S
              (st_M_tilde_prev st) (st_L_tilde_prev st) (st_S_tilde st);
  let M_tilde := msub (madd L_tilde S_tilde)
                   (mscale tau (msub (madd L_tilde S_tilde) R_tilde)) in
  let st := ToeplitzState M_tilde S_tilde L_tilde S_tilde (Some L_tilde)
              (st_cov_est st) (st_cov_est_prev st) in
  if decide (stop_cond_interval = 0) then Raise ZeroDivisionError
  else if decide (k `mod` stop_cond_interval = 0) then
    cov ← pv_rearrange_inv
             (dot (transpose P) (madd L_tilde S_tilde)) ps pt;
    let st := ToeplitzState M_tilde S_tilde L_tilde S_tilde (Some L_tilde)
                (Some cov) (st_cov_est_prev st) in
    if decide (0 < k) then
      prev ← st_cov_est_prev st ?! UnboundLocalError;
      let rms_diff := fsqrt (mean_square (msub cov prev)) in
      if fltb rms_diff tol then Ok (Break st)
      else Ok (Continue
        (ToeplitzState M_tilde S_tilde L_tilde S_tilde (Some L_tilde)
           (Some cov) (Some cov)))
    else Ok (Continue
      (ToeplitzState M_tilde S_tilde L_tilde S_tilde (Some L_tilde)
         (Some cov) (Some cov)))
  else Ok (Continue st).

(** [prox_grad_robust_toeplitz_kron_pca(sample_cov, ps, pt, lambda_L,
    lambda_S, tau, tol, max_iter, stop_cond_interval)] *)
Definition prox_grad_robust_toeplitz_kron_pca (sample_cov : matrix F)
    (ps pt : nat) (lambda_L lambda_S tau tol : F)
    (max_iter stop_cond_interval : nat) : result (matrix F * nat * F) :=
  P ← build_P pt;
  R ← pv_rearrange sample_cov ps pt;
  let R_tilde := dot P R in
  let L_tilde_prev := R_tilde in
  let S_tilde_prev := zeros_like R_tilde in
  let M_tilde_prev := madd L_tilde_prev S_tilde_prev in
  let S_tilde := zeros_like R_tilde in
  st ← for_break
         (toeplitz_iteration P R_tilde ps pt lambda_L lambda_S tau tol
            stop_cond_interval)
         (ToeplitzState M_tilde_prev S_tilde_prev L_tilde_prev S_tilde
            None None None)
         (seq 0 max_iter);
  L_tilde ← st_L_tilde st ?! UnboundLocalError;
  let rank := matrix_rank (dot (transpose P) L_tilde) in
  let sparsity := sparsity_of (st_S_tilde st) in
  cov_est ← st_cov_est st ?! UnboundLocalError;
  Ok (cov_est, rank, sparsity).

(** What holds of the loop variables after [k] iterations, for
    [m = 2*pt - 1] and [n = ps^2]: the arrays keep their shape, and from
    the first iteration on [L_tilde], [cov_est] and [cov_est_prev] are
    bound. *)
Definition toeplitz_inv (m n k : nat) (st : toeplitz_state F) : Prop :=
  has_shape (st_M_tilde_prev st) m n ∧
  has_shape (st_S_tilde_prev st) m n ∧
  has_shape (st_L_tilde_prev st) m n ∧
  has_shape (st_S_tilde st) m n ∧
  (0 < k → is_Some (st_L_tilde st) ∧ is_Some (st_cov_est st) ∧
           is_Some (st_cov_est_prev st)).
End toeplitz.

(* ================================================================== *)
(** * Cross-validation and grid search *)
(* ================================================================== *)

Section drivers.
Context {F : Type} `{!Scalar F} `{!Backend F}.

(** Per-fold data of [cross_validate_toeplitz_fit].  The two
    covariances divide by the number of rows of the fold: for a fold
    without rows NumPy divides zero by zero and yields arrays of NaN,
    which the idealised numbers of this development do not have, so the
    statements about the covariances of a fold are made for folds with
    at least one training row and one test row. *)
Definition X_train (X : matrix F) (fold_size cv_iter : nat) : matrix F :=
  take (cv_iter * fold_size) X ++ drop ((cv_iter + 1) * fold_size) X.

Definition X_test (X : matrix F) (fold_size cv_iter : nat) : matrix F :=
  slice (cv_iter * fold_size) ((cv_iter + 1) * fold_size) X.

(** [np.dot(X_train_ctd.T, X_train_ctd)/len(X_train)] with
    [X_train_ctd = X_train - X_train.mean(axis=0)] *)
Definition cov_train (X_train : matrix F) : matrix F :=
  let X_train_ctd := sub_row X_train (mean_axis0 X_train) in
  mdiv (dot (transpose X_train_ctd) X_train_ctd) (of_nat (length X_train)).

(** [np.dot(X_test.T, X_test)/len(X_test)] *)
Definition cov_test (X_test : matrix F) : matrix F :=
  mdiv (dot (transpose X_test) X_test) (of_nat (length X_test)).

(** The literal [1e-12]. *)
Definition eps_degenerate : F := fdiv fone (of_Z (10 ^ 12)).

(** The Gaussian log-likelihood of the held-out fold. *)
Definition log_likelihood_of (d num_samples : nat)
    (log_det_cov_reg_train : F) (cov_reg_train_inv cov_test : matrix F)
    : F :=
  fmul (fmul (fneg (fdiv fone (of_Z 2))) (of_nat num_samples))
    (fadd (fadd (fmul (of_nat d) (flog (fmul (of_Z 2) fpi)))
                log_det_cov_reg_train)
          (trace (dot cov_reg_train_inv cov_test))).

(** What one fold records, given the solver's return value: the
    degenerate-fit test comes first, the inversion after it.  The test
    covariance is a [d]-by-[d] array, and
    [np.dot(cov_reg_train_inv, cov_test)] raises [ValueError] when the
    inverse does not have [d] columns. *)
Definition score_fold (d : nat) (X_test : matrix F)
    (fit : matrix F * nat * F) : result (ext F * nat * F) :=
  let '(cov_reg_train, rank, sparsity) := fit in
  if fltb (abs_sum cov_reg_train) eps_degenerate
  then Ok (NegInf, 0, fzero)
  else
    cov_reg_train_inv ← inv cov_reg_train;
    let log_det_cov_reg_train := slogdet cov_reg_train in
    let num_samples := length X_test in
    if decide (ncols cov_reg_train_inv = d)
    then Ok (Fin (log_likelihood_of d num_samples log_det_cov_reg_train
                    cov_reg_train_inv (cov_test X_test)),
             rank, sparsity)
    else Raise ValueError.

(** The body of the loop over the folds. *)
Definition cv_fold (X : matrix F) (ps pt : nat) (lambda_L lambda_S : F)
    (fold_size d : nat) (tau tol : F) (max_iter stop_cond_interval : nat)
    (cv_iter : nat) : result (ext F * nat * F) :=
  let X_train := X_train X fold_size cv_iter in
  let X_test := X_test X fold_size cv_iter in
  fit ← prox_grad_robust_toeplitz_kron_pca (cov_train X_train) ps pt
          lambda_L lambda_S tau tol max_iter stop_cond_interval;
  score_fold d X_test fit.

(** The body of the loop over the folds, with the assignments to the
    three result arrays. *)
Definition cv_step (X_with_lags : matrix F) (ps pt : nat)
    (lambda_L lambda_S : F) (fold_size d : nat) (tau tol : F)
    (max_iter stop_cond_interval : nat)
    (vals : list (ext F) * list nat * list F) (cv_iter : nat)
    : result (list (ext F) * list nat * list F) :=
  let '(log_likelihood_vals, rank_vals, sparsity_vals) := vals in
  '(log_likelihood, rank, sparsity) ←
    cv_fold X_with_lags ps pt lambda_L lambda_S fold_size d tau tol
      max_iter stop_cond_interval cv_iter;
  Ok (<[cv_iter := log_likelihood]> log_likelihood_vals,
      <[cv_iter := rank]> rank_vals,
      <[cv_iter := sparsity]> sparsity_vals).

(** [cross_validate_toeplitz_fit(X_with_lags, ps, pt, lambda_L,
    lambda_S, num_folds, tau, tol, max_iter, stop_cond_interval)] *)
Definition cross_validate_toeplitz_fit (X_with_lags : matrix F)
    (ps pt : nat) (lambda_L lambda_S : F) (num_folds : nat) (tau tol : F)
    (max_iter stop_cond_interval : nat)
    : result (list (ext F) * list nat * list F) :=
  fold_size ← (if decide (num_folds = 0) then Raise ZeroDivisionError
               else Ok (length X_with_lags / num_folds));
  let log_likelihood_vals := replicate num_folds (Fin fzero) in
  let rank_vals := replicate num_folds 0 in
  let sparsity_vals := replicate num_folds fzero in
  let d := ncols X_with_lags in
  for_each (cv_step X_with_lags ps pt lambda_L lambda_S fold_size d tau tol
              max_iter stop_cond_interval)
    (log_likelihood_vals, rank_vals, sparsity_vals) (seq 0 num_folds).

(** [np.cov(X.T, bias=True)] *)
Definition np_cov_bias (X : matrix F) : matrix F := cov_train X.

(** [np.unravel_index(k, (r, c))] *)
Definition unravel_index (k c : nat) : nat * nat := (k / c, k `mod` c).

(** The three result tables of [regularize_cov], and the values the
    loop variables [lambda_L], [lambda_S] hold. *)
Record grid_state : Type := GridState {
  g_log_likelihood_vals : list (matrix (ext F));
  g_rank_vals : list (matrix nat);
  g_sparsity_vals : list (matrix F);
  g_lambda : option (F * F);
}.

(** [T[i, j] = v] on a three-dimensional table. *)
Definition set_cell {A} (i j : nat) (v : list A) (T : list (matrix A))
    : list (matrix A) :=
  alter (λ plane : matrix A, <[j := v]> plane) i T.

(** The body of the two nested loops over the grid. *)
Definition grid_cell (X_with_lags : matrix F) (ps pt : nat)
    (lambda_S_vals lambda_L_vals : list F) (num_folds : nat) (tau tol : F)
    (max_iter stop_cond_interval : nat)
    (st : grid_state) (lambda_L_idx lambda_S_idx : nat)
    : result grid_state :=
  lambda_L ← lambda_L_vals !! lambda_L_idx ?! IndexError;
  lambda_S ← lambda_S_vals !! lambda_S_idx ?! IndexError;
  '(log_likelihood_vals_cv, rank_vals_cv, sparsity_vals_cv) ←
    cross_validate_toeplitz_fit X_with_lags ps pt lambda_L lambda_S
      num_folds tau tol max_iter stop_cond_interval;
  Ok (GridState
        (set_cell lambda_L_idx lambda_S_idx log_likelihood_vals_cv
           (g_log_likelihood_vals st))
        (set_cell lambda_L_idx lambda_S_idx rank_vals_cv (g_rank_vals st))
        (set_cell lambda_L_idx lambda_S_idx sparsity_vals_cv
           (g_sparsity_vals st))
        (Some (lambda_L, lambda_S))).

(** The pair selected by the grid search: [lambda_L_opt],
    [lambda_S_opt]. *)
Definition select_opt (lambda_S_vals lambda_L_vals : list F)
    (log_likelihood_vals : list (matrix (ext F))) : result (F * F) :=
  let mean_ll_vals :=
    (λ plane : matrix (ext F), ext_mean <$> plane) <$> log_likelihood_vals in
  k ← argmax (ravel mean_ll_vals);
  let max_idx := unravel_index k (length lambda_S_vals) in
  lambda_L_opt ← lambda_L_vals !! max_idx.1 ?! IndexError;
  lambda_S_opt ← lambda_S_vals !! max_idx.2 ?! IndexError;
  Ok (lambda_L_opt, lambda_S_opt).

(** [regularize_cov(X_with_lags, ps, pt, lambda_S_vals, lambda_L_vals,
    num_folds, tau, tol, max_iter, stop_cond_interval)] *)
Definition regularize_cov (X_with_lags : matrix F) (ps pt : nat)
    (lambda_S_vals lambda_L_vals : list F) (num_folds : nat) (tau tol : F)
    (max_iter stop_cond_interval : nat)
    : result (matrix F * list (matrix (ext F)) * list (matrix nat)
              * list (matrix F)) :=
  let nL := length lambda_L_vals in
  let nS := length lambda_S_vals in
  let log_likelihood_vals :=
    replicate nL (replicate nS (replicate num_folds (Fin fzero))) in
  let rank_vals := replicate nL (replicate nS (replicate num_folds 0)) in
  let sparsity_vals :=
    replicate nL (replicate nS (replicate num_folds fzero)) in
  st ← for_each (λ st lambda_L_idx,
          for_each (λ st lambda_S_idx,
              grid_cell X_with_lags ps pt lambda_S_vals lambda_L_vals
                num_folds tau tol max_iter stop_cond_interval
                st lambda_L_idx lambda_S_idx)
            st (seq 0 nS))
        (GridState log_likelihood_vals rank_vals sparsity_vals None)
        (seq 0 nL);
  '(lambda_L_opt, lambda_S_opt) ←
    select_opt lambda_S_vals lambda_L_vals (g_log_likelihood_vals st);
  let sample_cov := np_cov_bias X_with_lags in
  '(lambda_L, lambda_S) ← g_lambda st ?! UnboundLocalError;
  '(final_cov_reg, _, _) ←
    prox_grad_robust_toeplitz_kron_pca sample_cov ps pt lambda_L lambda_S
      tau tol max_iter stop_cond_interval;
  Ok (final_cov_reg, g_log_likelihood_vals st, g_rank_vals st,
      g_sparsity_vals st).
End drivers.

(* ================================================================== *)
(** * The entry points on Python integers *)
(* ================================================================== *)

(** In the definitions above [ps], [pt] and [num_folds] are natural
    numbers.  Python passes integers of either sign, and the module
    converts none of them.  This section models the Toeplitz-constrained
    solver and the two drivers for integer arguments: a statement whose
    outcome depends on the sign of an argument is evaluated on [Z], in
    the order of the source, and the definitions above are used from
    the point where the arguments they receive cannot be negative. *)
Section integer_arguments.
Context {F : Type} `{!Scalar F} `{!Backend F}.

(** [prox_grad_robust_toeplitz_kron_pca] for integers [ps], [pt].  Its
    first statement is [P = build_P(pt)], which starts with
    [np.zeros((2*pt - 1, pt**2))]: [ValueError] for [pt <= 0].  Its
    second statement is [R = pv_rearrange(sample_cov, ps, pt)], which
    calls [pv_permutation], which starts by reshaping
    [np.arange(ps**2 * pt**2)] to [(ps*pt, ps*pt)]: [ValueError] for a
    negative [ps*pt] (a dimension below -1 is refused, and two
    dimensions of -1 cannot both be inferred). *)
Definition prox_grad_robust_toeplitz_kron_pca_int (sample_cov : matrix F)
    (ps pt : Z) (lambda_L lambda_S tau tol : F)
    (max_iter stop_cond_interval : nat) : result (matrix F * nat * F) :=
  _ ← np_zeros (F := F) (2 * pt - 1) (pt ^ 2);
  if decide (ps * pt < 0)%Z then Raise ValueError
  else prox_grad_robust_toeplitz_kron_pca sample_cov
         (Z.to_nat ps) (Z.to_nat pt) lambda_L lambda_S tau tol
         max_iter stop_cond_interval.

(** The body of the loop over the folds: [ps] and [pt] are passed on
    to the solver and used nowhere else. *)
Definition cv_fold_int (X : matrix F) (ps pt : Z) (lambda_L lambda_S : F)
    (fold_size d : nat) (tau tol : F) (max_iter stop_cond_interval : nat)
    (cv_iter : nat) : result (ext F * nat * F) :=
  let X_train := X_train X fold_size cv_iter in
  let X_test := X_test X fold_size cv_iter in
  fit ← prox_grad_robust_toeplitz_kron_pca_int (cov_train X_train) ps pt
          lambda_L lambda_S tau tol max_iter stop_cond_interval;
  score_fold d X_test fit.

Definition cv_step_int (X_with_lags : matrix F) (ps pt : Z)
    (lambda_L lambda_S : F) (fold_size d : nat) (tau tol : F)
    (max_iter stop_cond_interval : nat)
    (vals : list (ext F) * list nat * list F) (cv_iter : nat)
    : result (list (ext F) * list nat * list F) :=
  let '(log_likelihood_vals, rank_vals, sparsity_vals) := vals in
  '(log_likelihood, rank, sparsity) ←
    cv_fold_int X_with_lags ps pt lambda_L lambda_S fold_size d tau tol
      max_iter stop_cond_interval cv_iter;
  Ok (<[cv_iter := log_likelihood]> log_likelihood_vals,
      <[cv_iter := rank]> rank_vals,
      <[cv_iter := sparsity]> sparsity_vals).

(** [cross_validate_toeplitz_fit] for integers [ps], [pt], [num_folds]:
    the division by [num_folds] comes first, [np.zeros(num_folds)]
    second, and the loop over [range(num_folds)] after them. *)
Definition cross_validate_toeplitz_fit_int (X_with_lags : matrix F)
    (ps pt : Z) (lambda_L lambda_S : F) (num_folds : Z) (tau tol : F)
    (max_iter stop_cond_interval : nat)
    : result (list (ext F) * list nat * list F) :=
  fold_size ← (if decide (num_folds = 0)%Z then Raise ZeroDivisionError
               else Ok (Z.of_nat (length X_with_lags) / num_folds)%Z);
  log_likelihood_vals ←
    (if decide (num_folds < 0)%Z then Raise ValueError
     else Ok (replicate (Z.to_nat num_folds) (Fin fzero)));
  let rank_vals := replicate (Z.to_nat num_folds) 0 in
  let sparsity_vals := replicate (Z.to_nat num_folds) fzero in
  let d := ncols X_with_lags in
  for_each (cv_step_int X_with_lags ps pt lambda_L lambda_S
              (Z.to_nat fold_size) d tau tol max_iter stop_cond_interval)
    (log_likelihood_vals, rank_vals, sparsity_vals)
    (seq 0 (Z.to_nat num_folds)).

Definition grid_cell_int (X_with_lags : matrix F) (ps pt : Z)
    (lambda_S_vals lambda_L_vals : list F) (num_folds : Z) (tau tol : F)
    (max_iter stop_cond_interval : nat)
    (st : grid_state) (lambda_L_idx lambda_S_idx : nat)
    : result grid_state :=
  lambda_L ← lambda_L_vals !! lambda_L_idx ?! IndexError;
  lambda_S ← lambda_S_vals !! lambda_S_idx ?! IndexError;
  '(log_likelihood_vals_cv, rank_vals_cv, sparsity_vals_cv) ←
    cross_validate_toeplitz_fit_int X_with_lags ps pt lambda_L lambda_S
      num_folds tau tol max_iter stop_cond_interval;
  Ok (GridState
        (set_cell lambda_L_idx lambda_S_idx log_likelihood_vals_cv
           (g_log_likelihood_vals st))
        (set_cell lambda_L_idx lambda_S_idx rank_vals_cv (g_rank_vals st))
        (set_cell lambda_L_idx lambda_S_idx sparsity_vals_cv
           (g_sparsity_vals st))
        (Some (lambda_L, lambda_S))).

(** [regularize_cov] for integers [ps], [pt], [num_folds]: its first
    statement is [np.zeros((len(lambda_L_vals), len(lambda_S_vals),
    num_folds))]. *)
Definition regularize_cov_int (X_with_lags : matrix F) (ps pt : Z)
    (lambda_S_vals lambda_L_vals : list F) (num_folds : Z) (tau tol : F)
    (max_iter stop_cond_interval : nat)
    : result (matrix F * list (matrix (ext F)) * list (matrix nat)
              * list (matrix F)) :=
  let nL := length lambda_L_vals in
  let nS := length lambda_S_vals in
  log_likelihood_vals ←
    (if decide (num_folds < 0)%Z then Raise ValueError
     else Ok (replicate nL (replicate nS
                (replicate (Z.to_nat num_folds) (Fin fzero)))));
  let rank_vals :=
    replicate nL (replicate nS (replicate (Z.to_nat num_folds) 0)) in
  let sparsity_vals :=
    replicate nL (replicate nS (replicate (Z.to_nat num_folds) fzero)) in
  st ← for_each (λ st lambda_L_idx,
          for_each (λ st lambda_S_idx,
              grid_cell_int X_with_lags ps pt lambda_S_vals lambda_L_vals
                num_folds tau tol max_iter stop_cond_interval
                st lambda_L_idx lambda_S_idx)
            st (seq 0 nS))
        (GridState log_likelihood_vals rank_vals sparsity_vals None)
        (seq 0 nL);
  '(lambda_L_opt, lambda_S_opt) ←
    select_opt lambda_S_vals lambda_L_vals (g_log_likelihood_vals st);
  let sample_cov := np_cov_bias X_with_lags in
  '(lambda_L, lambda_S) ← g_lambda st ?! UnboundLocalError;
  '(final_cov_reg, _, _) ←
    prox_grad_robust_toeplitz_kron_pca_int sample_cov ps pt lambda_L
      lambda_S tau tol max_iter stop_cond_interval;
  Ok (final_cov_reg, g_log_likelihood_vals st, g_rank_vals st,
      g_sparsity_vals st).
End integer_arguments.

(* ================================================================== *)
(** * Instances of the arithmetic *)
(* ================================================================== *)

(** The rationals, kept in lowest terms so that equal numbers are equal
    terms.  [Qsqrt] is exact on squares of rationals (and rounds down
    the numerator and denominator otherwise). *)
Definition Qsqrt (q : Q) : Q :=
  let q := Qred q in
  Qred (Qmake (Z.sqrt (Qnum q)) (Pos.sqrt (Qden q))).

#[global] Instance Q_scalar : Scalar Q := {|
  fzero := 0%Q;
  fone := 1%Q;
  fadd x y := Qred (x + y)%Q;
  fsub x y := Qred (x - y)%Q;
  fmul x y := Qred (x * y)%Q;
  fdiv x y := Qred (x / y)%Q;
  fsqrt := Qsqrt;
  fltb x y := if Qlt_le_dec x y then true else false;
  feqb := Qeq_bool;
  of_Z z := inject_Z z;
|}.

(** The reals. *)
#[global] Instance R_scalar : Scalar R := {|
  fzero := 0%R;
  fone := 1%R;
  fadd := Rplus;
  fsub := Rminus;
  fmul := Rmult;
  fdiv := Rdiv;
  fsqrt := sqrt;
  fltb x y := if Rlt_dec x y then true else false;
  feqb x y := if Req_dec_T x y then true else false;
  of_Z := IZR;
|}.

(** A backend for matrices with a single row, over the rationals.  The
    singular value decomposition of a row [v] is [1 * |v| * (v/|v|)];
    the rank of a row is 1 unless it is zero; a 1-by-1 matrix [x] is
    inverted as [1/x] unless [x] is zero.  The logarithm and [pi] are
    left as parameters. *)
Definition row_norm (v : list Q) : Q := fsqrt (fsum ((λ x, fmul x x) <$> v)).

Definition svd_row (M : matrix Q) : matrix Q * list Q * matrix Q :=
  match M with
  | [v] =>
      let n := row_norm v in
      if feqb n 0%Q
      then ([[1%Q]], [0%Q], [<[0 := 1%Q]> v])
      else ([[1%Q]], [n], [(λ x, fdiv x n) <$> v])
  | _ => ([], [], [])
  end.

Definition rank_row (M : matrix Q) : nat :=
  match M with
  | [v] => if forallb (λ x, feqb x 0%Q) v then 0 else 1
  | _ => 0
  end.

Definition inv_1x1 (M : matrix Q) : result (matrix Q) :=
  match M with
  | [[x]] => if feqb x 0%Q then Raise LinAlgError else Ok [[fdiv 1%Q x]]
  | _ => Raise LinAlgError
  end.

Definition row_backend (log : Q → Q) (pi : Q) : Backend Q := {|
  svd := svd_row;
  matrix_rank := rank_row;
  inv := inv_1x1;
  slogdet M := match M with [[x]] => log (fabs x) | _ => 0%Q end;
  flog := log;
  fpi := pi;
|}.

(** The same backend with rational stand-ins for the logarithm and for
    [pi], to run the drivers on concrete tables; no fact below depends
    on the stand-ins. *)
#[global] Instance Q_backend : Backend Q :=
  row_backend (λ x, Qred (x - 1)%Q) (355 # 113)%Q.

(** A backend for 1-by-1 matrices over the reals: the singular value
    decomposition of [x] is [1 * |x| * sign(x)], its rank is 1 unless
    [x] is zero, and it is inverted as [1/x] unless [x] is zero. *)
Definition svd_1x1 (M : matrix R) : matrix R * list R * matrix R :=
  match M with
  | [[x]] => ([[1%R]], [Rabs x], [[if Rle_dec 0 x then 1%R else (-1)%R]])
  | _ => ([], [], [])
  end.

Definition R_backend : Backend R := {|
  svd := svd_1x1;
  matrix_rank M :=
    match M with
    | [[x]] => if Req_dec_T x 0 then 0 else 1
    | _ => 0
    end;
  inv M :=
    match M with
    | [[x]] => if Req_dec_T x 0 then Raise LinAlgError else Ok [[(/ x)%R]]
    | _ => Raise LinAlgError
    end;
  slogdet M := match M with [[x]] => ln (Rabs x) | _ => 0%R end;
  flog := ln;
  fpi := PI;
|}.

(** A singular value decomposition reproduces the array it factors and
    its singular values are not negative: what [svd] guarantees, up to
    rounding, on an [m]-by-[n] array. *)
Definition svd_exact `{!Backend R} (m n : nat) : Prop :=
  ∀ M U s Vh, has_shape M m n → svd M = (U, s, Vh) →
    dot U (dot (np_diag s) Vh) = M ∧ Forall (λ x, 0 <= x)%R s.

(** A backend for matrices with a single column, over the reals: the
    thin singular value decomposition of a column [v] is
    [(v/|v|) * |v| * 1]; the rank of a column is 1 unless it is zero. *)
Definition svd_col (M : matrix R) : matrix R * list R * matrix R :=
  let n := sqrt (fsum ((λ x, x * x)%R <$> ravel M)) in
  if Req_dec_T n 0
  then ((λ i, [if decide (i = 0) then 1%R else 0%R]) <$> seq 0 (length M),
        [0%R], [[1%R]])
  else ((λ row : list R, (λ x, x / n)%R <$> row) <$> M, [n], [[1%R]]).

Definition col_backend : Backend R := {|
  svd := svd_col;
  matrix_rank M :=
    if forallb (λ x, if Req_dec_T x 0 then true else false) (ravel M)
    then 0 else 1;
  inv := @inv R R_backend;
  slogdet := @slogdet R R_backend;
  flog := ln;
  fpi := PI;
|}.

(* ================================================================== *)
(** * Properties of the results *)
(* ================================================================== *)

(** The property of a covariance estimate that the Toeplitz constraint
    is for: it is [(ps*pt)]-square, and its [ps]-by-[ps] block at
    block-row [i] and block-column [j] depends on [i - j] only. *)
Definition block_toeplitz {F} (ps pt : nat) (cov : matrix F) : Prop :=
  has_shape cov (ps * pt) (ps * pt) ∧
  ∀ i j i' j' a b, i < pt → j < pt → i' < pt → j' < pt → a < ps → b < ps →
    (Z.of_nat i - Z.of_nat j = Z.of_nat i' - Z.of_nat j')%Z →
    cov !! (i * ps + b) ≫= (λ row : list F, row !! (j * ps + a))
    = cov !! (i' * ps + b) ≫= (λ row : list F, row !! (j' * ps + a)).

(** What a fold of the cross-validation records when it returns (and a
    placeholder for a fold that raises). *)
Definition fold_value {F} `{!Scalar F} (r : result (ext F * nat * F))
    : ext F * nat * F :=
  match r with Ok v => v | Raise _ => (NegInf, 0, fzero) end.

(* ================================================================== *)
(** * Theorems *)
(* ================================================================== *)

Example pv_permutation_2_2 :
  pv_permutation 2 2 =
    Ok ([0;4;1;5; 2;6;3;7; 8;12;9;13; 10;14;11;15],
        [0;2;4;6; 1;3;5;7; 8;10;12;14; 9;11;13;15]).
Proof. vm_compute. reflexivity. Qed.

(* ------------------------------------------------------------------ *)
(** ** Arrays: reshaping and flattening *)

Section ndarray_facts.
Context {A : Type}.
Implicit Types (l : list A) (M : matrix A).

Lemma length_chunks r c l : length (chunks r c l) = r.
Proof. revert l. induction r as [|r IH]; intros l; simpl; [done|]. by rewrite IH. Qed.

Lemma chunks_has_shape r c l : length l = r * c → has_shape (chunks r c l) r c.
Proof.
  intros Hl. split; [apply length_chunks|].
  revert l Hl. induction r as [|r IH]; intros l Hl; simpl; constructor.
  - rewrite length_take. lia.
  - apply IH. rewrite length_drop. lia.
Qed.

Lemma concat_chunks r c l : length l = r * c → concat (chunks r c l) = l.
Proof.
  revert l. induction r as [|r IH]; intros l Hl; simpl.
  - by destruct l.
  - rewrite IH; [apply take_drop|]. rewrite length_drop. lia.
Qed.

Lemma chunks_concat M r c : has_shape M r c → chunks r c (concat M) = M.
Proof.
  intros [Hr Hc]. revert r Hr.
  induction Hc as [|row M Hrow _ IH]; intros r <-; simpl; [done|].
  rewrite take_app_length' by done. rewrite drop_app_length' by done.
  by rewrite IH.
Qed.

Lemma length_ravel M r c : has_shape M r c → length (ravel M) = r * c.
Proof.
  intros [Hr Hc]. revert r Hr. unfold ravel.
  induction Hc as [|row M Hrow _ IH]; intros r <-; simpl; [done|].
  rewrite length_app, (IH _ eq_refl). lia.
Qed.

Lemma reshape2_Ok l r c :
  length l = r * c → reshape2 l r c = Ok (chunks r c l).
Proof. intros Hl. unfold reshape2. by rewrite decide_True. Qed.

Lemma reshape2_ravel M r c : has_shape M r c → reshape2 (ravel M) r c = Ok M.
Proof.
  intros HM. rewrite reshape2_Ok by by eapply length_ravel.
  unfold ravel. by rewrite chunks_concat.
Qed.

(** Fancy indexing succeeds exactly when every index is in bounds, and
    then reads entry by entry. *)
Lemma take_idx_Ok l idx :
  Forall (λ i, i < length l) idx →
  ∃ v, take_idx l idx = Ok v ∧ length v = length idx ∧
       ∀ m i, idx !! m = Some i → v !! m = l !! i.
Proof.
  intros Hidx. unfold take_idx.
  destruct (mapM (λ i, l !! i) idx) as [v|] eqn:Hv.
  - exists v. split; [done|]. apply mapM_Some in Hv.
    split; [symmetry; by eapply Forall2_length|].
    intros m i Hm. destruct (Forall2_lookup_l _ _ _ _ _ Hv Hm) as (y & -> & Hy).
    done.
  - exfalso. apply eq_None_not_Some in Hv. apply Hv.
    apply mapM_is_Some. eapply Forall_impl; [exact Hidx|].
    intros i Hi. by apply lookup_lt_is_Some.
Qed.

Lemma take_idx_oob l idx i :
  i ∈ idx → length l ≤ i → take_idx l idx = Raise IndexError.
Proof.
  intros Hin Hi. unfold take_idx.
  destruct (mapM (λ i, l !! i) idx) as [v|] eqn:Hv; [|done].
  exfalso. assert (is_Some (mapM (λ i, l !! i) idx)) as Hs by eauto.
  apply mapM_is_Some in Hs. rewrite Forall_forall in Hs.
  apply Hs in Hin. apply lookup_lt_is_Some in Hin. lia.
Qed.
End ndarray_facts.

(* ------------------------------------------------------------------ *)
(** ** Nested enumerations *)

(** The loops of the module enumerate index tuples; the list monad
    writes such an enumeration as nested binds. *)
Section enumerations.
Context {A B C : Type}.

Lemma list_bind_assoc (f : A → list B) (g : B → list C) (l : list A) :
  (l ≫= f) ≫= g = l ≫= (λ x, f x ≫= g).
Proof.
  induction l as [|x l IH]; [done|].
  by rewrite !bind_cons, bind_app, IH.
Qed.

Lemma list_bind_ext (f g : A → list B) (l : list A) :
  (∀ x, x ∈ l → f x = g x) → l ≫= f = l ≫= g.
Proof.
  induction l as [|x l IH]; intros Hfg; [done|].
  rewrite !bind_cons, IH, Hfg; [done|apply list_elem_of_here|].
  intros y Hy. apply Hfg. by apply list_elem_of_further.
Qed.

Lemma list_bind_perm_ext (f g : A → list B) (l : list A) :
  (∀ x, x ∈ l → f x ≡ₚ g x) → l ≫= f ≡ₚ l ≫= g.
Proof.
  induction l as [|x l IH]; intros Hfg; [done|].
  rewrite !bind_cons, IH, Hfg; [done|apply list_elem_of_here|].
  intros y Hy. apply Hfg. by apply list_elem_of_further.
Qed.

Lemma list_bind_fmap (f : A → B) (l : list A) : l ≫= (λ x, [f x]) = f <$> l.
Proof. induction l as [|x l IH]; [done|]. by rewrite bind_cons, IH. Qed.

Lemma concat_fmap_bind (f : A → list B) (l : list A) :
  concat (f <$> l) = l ≫= f.
Proof. induction l as [|x l IH]; [done|]. by rewrite fmap_cons, bind_cons, <-IH. Qed.

Lemma list_bind_nil_r (l : list A) : l ≫= (λ _, @nil B) = [].
Proof. induction l as [|x l IH]; [done|]. by rewrite bind_cons, IH. Qed.

Lemma list_bind_app_r (f g : A → list B) (l : list A) :
  l ≫= (λ x, f x ++ g x) ≡ₚ (l ≫= f) ++ (l ≫= g).
Proof.
  induction l as [|x l IH]; [done|].
  rewrite !bind_cons, IH. solve_Permutation.
Qed.

End enumerations.

Section exchange.
Context {A B C : Type}.

(** Exchanging two nested loops permutes the enumeration. *)
Lemma list_bind_swap (f : A → B → list C) (l1 : list A) (l2 : list B) :
  l1 ≫= (λ x, l2 ≫= f x) ≡ₚ l2 ≫= (λ y, l1 ≫= (λ x, f x y)).
Proof.
  induction l1 as [|x l1 IH].
  - transitivity (l2 ≫= (λ _, @nil C)); [|done].
    by rewrite list_bind_nil_r.
  - rewrite bind_cons, IH.
    rewrite <-list_bind_app_r. apply list_bind_perm_ext.
    intros y _. by rewrite bind_cons.
Qed.

Lemma foldl_bind (g : C → B → C) (f : A → list B) (acc : C) (l : list A) :
  foldl g acc (l ≫= f) = foldl (λ acc x, foldl g acc (f x)) acc l.
Proof.
  revert acc. induction l as [|x l IH]; intros acc; [done|].
  by rewrite bind_cons, foldl_app, IH.
Qed.
End exchange.

(** Mixed-radix enumeration: counting to [m * c] is counting the pairs
    [(x, y)] with [x < m] and [y < c] in lexicographic order. *)
Lemma seq_mul m c : seq 0 (m * c) = x ← seq 0 m; y ← seq 0 c; [x * c + y].
Proof.
  induction m as [|m IH]; [done|].
  replace (S m * c) with (m * c + c) by lia.
  rewrite seq_app, seq_S, bind_app, bind_singleton, <-IH. f_equal.
  rewrite list_bind_fmap. simpl. by rewrite fmap_add_seq, Nat.add_0_r.
Qed.

Lemma elem_of_seq_0 n i : i ∈ seq 0 n ↔ i < n.
Proof. rewrite elem_of_seq. lia. Qed.

Lemma length_bind_uniform {A B} (f : A → list B) (l : list A) c :
  (∀ x, x ∈ l → length (f x) = c) → length (l ≫= f) = length l * c.
Proof.
  induction l as [|x l IH]; intros Hf; [done|].
  rewrite bind_cons, length_app, IH, Hf; [simpl; lia|apply list_elem_of_here|].
  intros y Hy. apply Hf. by apply list_elem_of_further.
Qed.

(* ------------------------------------------------------------------ *)
(** ** Arrays: slices, transposes and row assignment *)

Lemma chunks_seq r c s :
  chunks r c (seq s (r * c)) = (λ i, seq (s + i * c) c) <$> seq 0 r.
Proof.
  revert s. induction r as [|r IH]; intros s; [done|].
  replace (S r * c) with (c + r * c) by lia.
  cbn [chunks]. rewrite take_seq, drop_seq.
  replace (c + r * c - c) with (r * c) by lia.
  replace (c `min` (c + r * c)) with c by lia.
  rewrite IH. simpl. rewrite Nat.add_0_r. f_equal.
  rewrite <-fmap_S_seq, <-list_fmap_compose.
  apply list_fmap_ext. intros _ i _. simpl. f_equal. lia.
Qed.

Lemma seq_shift_fmap s n : seq s n = (λ a, s + a) <$> seq 0 n.
Proof.
  change (λ a, s + a) with (Nat.add s). by rewrite fmap_add_seq, Nat.add_0_r.
Qed.

Lemma slice_fmap {A B} (f : A → B) lo hi (l : list A) :
  slice lo hi (f <$> l) = f <$> slice lo hi l.
Proof. unfold slice. by rewrite fmap_take, fmap_drop. Qed.

Lemma slice_seq s n lo hi :
  hi ≤ n → slice lo hi (seq s n) = seq (s + lo) (hi - lo).
Proof. intros Hhi. unfold slice. rewrite drop_seq, take_seq. f_equal. lia. Qed.

Lemma transpose_tabulate {A} (f : nat → nat → A) (rs : list nat) w :
  (rs = [] → w = 0) →
  transpose ((λ r, f r <$> seq 0 w) <$> rs)
  = (λ c, (λ r, f r c) <$> rs) <$> seq 0 w.
Proof.
  intros Hrs. unfold transpose.
  assert (ncols ((λ r, f r <$> seq 0 w) <$> rs) = w) as ->.
  { destruct rs as [|r rs]; simpl; [by rewrite Hrs|].
    by rewrite length_fmap, length_seq. }
  apply list_fmap_ext. intros c ? [-> Hc]%lookup_seq. simpl.
  clear Hrs. induction rs as [|r rs IH]; [done|].
  rewrite !fmap_cons. cbn [omap list_omap].
  rewrite list_lookup_fmap, lookup_seq_lt by done. simpl.
  by rewrite <-IH.
Qed.

(** A loop that assigns the rows [base], [base + 1], ... in turn. *)
Lemma fill_rows {A} (g : nat → list A) base n (filled rest : matrix A) :
  length filled = base → n ≤ length rest →
  foldl (λ acc j, set_row (base + j) (g j) acc) (filled ++ rest) (seq 0 n)
  = filled ++ (g <$> seq 0 n) ++ drop n rest.
Proof.
  intros <-. induction n as [|n IH]; intros Hn.
  - by rewrite drop_0.
  - rewrite seq_S, foldl_app, IH by lia. simpl. unfold set_row.
    destruct (drop n rest) as [|x rest'] eqn:Hd.
    { apply (f_equal length) in Hd. rewrite length_drop in Hd. simpl in Hd. lia. }
    rewrite insert_app_r.
    replace n with (length (g <$> seq 0 n) + 0) at 1
      by (rewrite length_fmap, length_seq; lia).
    rewrite insert_app_r. simpl.
    rewrite fmap_app. simpl. rewrite <-!app_assoc. simpl.
    do 3 f_equal.
    replace (S n) with (n + 1) by lia. rewrite <-drop_drop, Hd. done.
Qed.

Lemma fill_blocks {A} (row : nat → nat → list A) pt (init : matrix A) :
  length init = pt * pt →
  foldl (λ acc i, foldl (λ acc j, set_row (i * pt + j) (row i j) acc)
                    acc (seq 0 pt)) init (seq 0 pt)
  = i ← seq 0 pt; j ← seq 0 pt; [row i j].
Proof.
  intros Hinit.
  assert (∀ m, m ≤ pt →
    foldl (λ acc i, foldl (λ acc j, set_row (i * pt + j) (row i j) acc)
                      acc (seq 0 pt)) init (seq 0 m)
    = (i ← seq 0 m; j ← seq 0 pt; [row i j]) ++ drop (m * pt) init) as Hm.
  { induction m as [|m IH]; intros Hle; [done|].
    rewrite seq_S, foldl_app, IH by lia. simpl.
    rewrite (fill_rows (row m) (m * pt)).
    - rewrite bind_app, bind_singleton, list_bind_fmap, <-app_assoc.
      by rewrite drop_drop, (Nat.add_comm (m * pt)).
    - rewrite (length_bind_uniform _ _ pt), length_seq; [done|].
      intros i _. by rewrite list_bind_fmap, length_fmap, length_seq.
    - rewrite length_drop, Hinit. nia. }
  rewrite Hm by done. rewrite drop_ge by lia. by rewrite app_nil_r.
Qed.

(* ------------------------------------------------------------------ *)
(** ** The permutation computed by [pv_permutation] *)

(** Row [i*pt + j] of [I_perm] lists block [(i, j)] of the index grid
    column by column: [a] is the column and [b] the row inside the
    block. *)
Lemma pv_block_row_spec ps pt i j :
  i < pt → j < pt →
  pv_block_row (chunks (ps * pt) (ps * pt) (seq 0 (ps * pt * (ps * pt)))) ps i j
  = a ← seq 0 ps; b ← seq 0 ps; [(i * ps + b) * (ps * pt) + j * ps + a].
Proof.
  intros Hi Hj. unfold pv_block_row, block, ravel.
  rewrite chunks_seq, slice_fmap, slice_seq by nia.
  replace ((i + 1) * ps - i * ps) with ps by lia.
  rewrite <-list_fmap_compose.
  rewrite (list_fmap_ext _
    (λ r, (λ a, r * (ps * pt) + j * ps + a) <$> seq 0 ps)).
  2:{ intros _ r _. simpl. rewrite slice_seq by nia.
      replace ((j + 1) * ps - j * ps) with ps by lia.
      rewrite seq_shift_fmap. apply list_fmap_ext. intros _ a _. lia. }
  rewrite transpose_tabulate.
  2:{ destruct ps; [done|]. rewrite <-cons_seq. discriminate. }
  rewrite concat_fmap_bind. apply list_bind_ext. intros a _.
  rewrite list_bind_fmap, (seq_shift_fmap (0 + i * ps)), <-list_fmap_compose.
  apply list_fmap_ext. intros _ b _. simpl. lia.
Qed.

Lemma concat_bind {A B} (f : A → matrix B) (l : list A) :
  concat (l ≫= f) = l ≫= (λ x, concat (f x)).
Proof.
  induction l as [|x l IH]; [done|]. by rewrite !bind_cons, concat_app, IH.
Qed.

Lemma pv_fill_spec ps pt :
  ravel (pv_fill (chunks (ps * pt) (ps * pt) (seq 0 (ps * pt * (ps * pt))))
           ps pt (full2 (pt ^ 2) (ps ^ 2) 0))
  = pv_perm ps pt.
Proof.
  unfold pv_fill, ravel, pv_perm.
  rewrite fill_blocks
    by (unfold full2; rewrite length_replicate, Nat.pow_2_r; lia).
  rewrite concat_bind. apply list_bind_ext. intros i Hi%elem_of_seq_0.
  rewrite concat_bind. apply list_bind_ext. intros j Hj%elem_of_seq_0.
  simpl. rewrite app_nil_r. by apply pv_block_row_spec.
Qed.

Lemma pv_permutation_Ok ps pt :
  pv_permutation ps pt = Ok (pv_perm ps pt, argsort (pv_perm ps pt)).
Proof.
  unfold pv_permutation, arange.
  rewrite reshape2_Ok by (rewrite length_seq, !Nat.pow_2_r; lia).
  replace (ps ^ 2 * pt ^ 2) with (ps * pt * (ps * pt))
    by (rewrite !Nat.pow_2_r; lia).
  cbn [mbind result_bind]. by rewrite pv_fill_spec.
Qed.

Lemma seq_mul4 pt ps :
  seq 0 (pt * ps * pt * ps)
  = i ← seq 0 pt; b ← seq 0 ps; j ← seq 0 pt; a ← seq 0 ps;
    [((i * ps + b) * pt + j) * ps + a].
Proof.
  rewrite (seq_mul (pt * ps * pt) ps), (seq_mul (pt * ps) pt), list_bind_assoc.
  rewrite (seq_mul pt ps), list_bind_assoc.
  apply list_bind_ext. intros i _. rewrite list_bind_assoc.
  apply list_bind_ext. intros b _. rewrite bind_singleton, list_bind_assoc.
  apply list_bind_ext. intros j _. by rewrite bind_singleton.
Qed.

(** [perm] lists every index below [ps^2 * pt^2] exactly once: it is
    the mixed-radix enumeration with two of its loops exchanged. *)
Lemma pv_perm_Permutation ps pt :
  pv_perm ps pt ≡ₚ seq 0 (ps ^ 2 * pt ^ 2).
Proof.
  unfold pv_perm. replace (ps ^ 2 * pt ^ 2) with (pt * ps * pt * ps)
    by (rewrite !Nat.pow_2_r; lia).
  rewrite seq_mul4.
  apply list_bind_perm_ext. intros i _.
  transitivity (j ← seq 0 pt; b ← seq 0 ps; a ← seq 0 ps;
                [(i * ps + b) * (ps * pt) + j * ps + a]).
  - apply list_bind_perm_ext. intros j _.
    apply (list_bind_swap (λ a b, [(i * ps + b) * (ps * pt) + j * ps + a])).
  - rewrite (list_bind_swap
      (λ j b, a ← seq 0 ps; [(i * ps + b) * (ps * pt) + j * ps + a])).
    apply list_bind_perm_ext. intros b _.
    apply list_bind_perm_ext. intros j _.
    apply list_bind_perm_ext. intros a _.
    replace ((i * ps + b) * (ps * pt) + j * ps + a)
      with (((i * ps + b) * pt + j) * ps + a) by lia.
    done.
Qed.

(* ------------------------------------------------------------------ *)
(** ** [argsort] inverts a permutation *)

#[local] Instance key_le_trans : Transitive key_le.
Proof. intros p q r. unfold key_le. lia. Qed.

#[local] Instance key_le_total : Total key_le.
Proof. intros p q. unfold key_le. lia. Qed.

Lemma StronglySorted_seq s n : StronglySorted le (seq s n).
Proof.
  revert s. induction n as [|n IH]; intros s; simpl; constructor; [apply IH|].
  apply Forall_seq. lia.
Qed.

Lemma argsort_inverse (perm : list nat) :
  perm ≡ₚ seq 0 (length perm) →
  length (argsort perm) = length perm ∧
  ∀ k, k < length perm →
    ∃ i, argsort perm !! k = Some i ∧ perm !! i = Some k.
Proof.
  intros Hperm. unfold argsort.
  set (n := length perm) in *.
  set (sp := merge_sort key_le (zip perm (seq 0 n))).
  assert (sp ≡ₚ zip perm (seq 0 n)) as Hsp by apply merge_sort_Permutation.
  assert (sp.*1 = seq 0 n) as Hkeys.
  { apply (StronglySorted_unique le).
    - eapply StronglySorted_fmap; [|by apply StronglySorted_merge_sort; apply _].
      by intros p q.
    - apply StronglySorted_seq.
    - rewrite Hsp, fst_zip; [done|]. by rewrite length_seq. }
  assert (length sp = n) as Hlen.
  { rewrite <-(length_fmap fst), Hkeys. apply length_seq. }
  split; [by rewrite length_fmap|].
  intros k Hk.
  destruct (lookup_lt_is_Some_2 sp k) as [[k' i] Hki]; [lia|].
  assert (k' = k) as ->.
  { apply (f_equal (λ l, l !! k)) in Hkeys.
    rewrite list_lookup_fmap, Hki, lookup_seq_lt in Hkeys by done.
    simpl in Hkeys. congruence. }
  exists i. split; [by rewrite list_lookup_fmap, Hki|].
  assert ((k, i) ∈ zip perm (seq 0 n)) as Hin.
  { rewrite <-Hsp. by eapply list_elem_of_lookup_2. }
  apply list_elem_of_lookup_1 in Hin as [idx Hidx].
  apply lookup_zip_with_Some in Hidx as (x & y & [= <- <-] & Hx & Hy).
  apply lookup_seq in Hy as [-> _]. done.
Qed.

(* ------------------------------------------------------------------ *)
(** ** The memoising decorator is transparent *)

Lemma memoized_call_transparent {V} (func : nat → nat → V) cache ps pt :
  cache_coherent func cache →
  (memoized_call func cache ps pt).1 = func ps pt ∧
  cache_coherent func (memoized_call func cache ps pt).2.
Proof.
  intros Hc. unfold memoized_call.
  destruct (cache !! (ps, pt)) as [v|] eqn:Hv; simpl.
  - split; [by apply Hc|done].
  - split; [done|]. intros ps' pt' v'.
    destruct (decide ((ps, pt) = (ps', pt'))) as [[= <- <-]|Hne].
    + rewrite lookup_insert_eq. congruence.
    + rewrite lookup_insert_ne by done. apply Hc.
Qed.

Lemma cache_coherent_empty {V} (func : nat → nat → V) : cache_coherent func ∅.
Proof. intros ps pt v. by rewrite lookup_empty. Qed.

(** Whatever calls were made before, the decorated [pv_permutation]
    returns the value of its body. *)
Lemma pv_permutation_memo_transparent cache ps pt :
  cache_coherent pv_permutation cache →
  (pv_permutation_memo cache ps pt).1 = pv_permutation ps pt.
Proof. intros Hc. by apply memoized_call_transparent. Qed.

(* ------------------------------------------------------------------ *)
(** ** Round trip of the layout transform *)

(** Gathering through a permutation and then through its [argsort]
    restores the buffer. *)
Lemma take_idx_argsort {A} (x : list A) (perm : list nat) :
  perm ≡ₚ seq 0 (length x) →
  ∃ y, take_idx x perm = Ok y ∧ length y = length x ∧
       take_idx y (argsort perm) = Ok x.
Proof.
  intros Hperm.
  assert (length perm = length x) as Hlen
    by (by rewrite Hperm, length_seq).
  destruct (take_idx_Ok x perm) as (y & Hy & Hly & Hyx).
  { rewrite Hperm. apply Forall_seq. lia. }
  exists y. split; [done|]. split; [lia|].
  destruct (argsort_inverse perm) as [Hli Hinv]; [by rewrite Hlen|].
  destruct (take_idx_Ok y (argsort perm)) as (z & Hz & Hlz & Hzy).
  { apply Forall_lookup. intros k i Hk.
    destruct (Hinv k) as (i' & Hi' & Hpi).
    { apply lookup_lt_Some in Hk. lia. }
    assert (i' = i) as -> by congruence.
    apply lookup_lt_Some in Hpi. lia. }
  rewrite Hz. f_equal. apply list_eq. intros k.
  destruct (decide (k < length x)) as [Hk|Hk].
  - destruct (Hinv k) as (i & Hi & Hpi); [lia|].
    by rewrite (Hzy k i Hi), (Hyx i k Hpi).
  - rewrite !lookup_ge_None_2; [done|lia..].
Qed.

(** C1.  [pv_rearrange_inv(pv_rearrange(C, ps, pt), ps, pt)] returns [C]
    itself for every matrix [C] of shape [(ps*pt, ps*pt)], whatever the
    type of its entries: the two transforms only move entries, so no
    numerical error can arise.  The statement holds for all [ps] and
    [pt], in particular for the positive ones. *)
Theorem pv_rearrange_round_trip {A} (C : matrix A) (ps pt : nat) :
  has_shape C (ps * pt) (ps * pt) →
  ∃ C', pv_rearrange C ps pt = Ok C' ∧
        has_shape C' (pt ^ 2) (ps ^ 2) ∧
        pv_rearrange_inv C' ps pt = Ok C.
Proof.
  intros HC. unfold pv_rearrange, pv_rearrange_inv.
  rewrite pv_permutation_Ok. cbn [mbind result_bind].
  pose proof (length_ravel C _ _ HC) as Hx.
  destruct (take_idx_argsort (ravel C) (pv_perm ps pt))
    as (y & Hy & Hly & Hinv).
  { rewrite pv_perm_Permutation, Hx. f_equiv. rewrite !Nat.pow_2_r. lia. }
  assert (length y = pt ^ 2 * ps ^ 2) as Hly'
    by (rewrite Hly, Hx, !Nat.pow_2_r; lia).
  exists (chunks (pt ^ 2) (ps ^ 2) y).
  rewrite Hy. cbn [mbind result_bind].
  split; [by apply reshape2_Ok|]. split; [by apply chunks_has_shape|].
  unfold ravel at 1. rewrite concat_chunks, Hinv by done.
  cbn [mbind result_bind]. by apply reshape2_ravel.
Qed.

(** The round trip on the 4-by-4 matrix of the entries [1 .. 16], with
    [ps = pt = 2]. *)
Lemma pv_rearrange_round_trip_witness :
  ∃ C', pv_rearrange [[1;2;3;4];[5;6;7;8];[9;10;11;12];[13;14;15;16]] 2 2
          = Ok C' ∧
        has_shape C' (2 ^ 2) (2 ^ 2) ∧
        pv_rearrange_inv C' 2 2
          = Ok [[1;2;3;4];[5;6;7;8];[9;10;11;12];[13;14;15;16]].
Proof.
  apply (pv_rearrange_round_trip
           [[1;2;3;4];[5;6;7;8];[9;10;11;12];[13;14;15;16]] 2 2).
  split; [reflexivity|]. repeat constructor.
Defined.

Example pv_rearrange_4x4 :
  pv_rearrange [[1;2;3;4];[5;6;7;8];[9;10;11;12];[13;14;15;16]] 2 2
  = Ok [[1;5;2;6];[3;7;4;8];[9;13;10;14];[11;15;12;16]].
Proof. vm_compute. reflexivity. Qed.

(* ------------------------------------------------------------------ *)
(** ** Shapes *)

Lemma omap_total {A B} (f : A → option B) (l : list A) :
  (∀ x, x ∈ l → is_Some (f x)) →
  length (omap f l) = length l ∧ ∀ i, omap f l !! i = l !! i ≫= f.
Proof.
  induction l as [|x l IH]; intros Hf; [done|].
  destruct (Hf x) as [y Hy]; [apply list_elem_of_here|].
  destruct IH as [IH1 IH2].
  { intros z Hz. apply Hf. by apply list_elem_of_further. }
  cbn [omap list_omap]. rewrite Hy. split; [simpl; by rewrite IH1|].
  intros [|i]; simpl; [done|apply IH2].
Qed.

Lemma has_shape_rows {A} (M : matrix A) r c i row :
  has_shape M r c → M !! i = Some row → length row = c.
Proof. intros [_ Hc] Hi. by eapply (Forall_lookup_1 _ _ _ _ Hc). Qed.

Lemma has_shape_intro {A} (M : matrix A) r c :
  length M = r → (∀ i row, M !! i = Some row → length row = c) →
  has_shape M r c.
Proof. intros Hr Hc. split; [done|]. by apply Forall_lookup. Qed.

Lemma ncols_has_shape {A} (M : matrix A) r c :
  has_shape M r c → 0 < r → ncols M = c.
Proof.
  intros [Hr Hc] Hpos. destruct M as [|row M]; simpl in *; [lia|].
  by inversion Hc.
Qed.

(** The transpose of an [r]-by-[c] array with at least one row. *)
Lemma transpose_lookup {A} (M : matrix A) r c j :
  has_shape M r c → 0 < r → j < c →
  ∃ col, transpose M !! j = Some col ∧ length col = r ∧
         ∀ i, col !! i = M !! i ≫= (λ row : list A, row !! j).
Proof.
  intros HM Hr Hj. unfold transpose.
  rewrite (ncols_has_shape M r c) by done.
  rewrite list_lookup_fmap, lookup_seq_lt by done. simpl.
  eexists. split; [done|].
  destruct (omap_total (λ row : list A, row !! j) M) as [Hl Hi].
  { intros row [i Hrow]%list_elem_of_lookup_1.
    apply lookup_lt_is_Some. by rewrite (has_shape_rows M r c i row). }
  split; [|done]. destruct HM as [HM _]. by rewrite Hl.
Qed.

Lemma has_shape_transpose {A} (M : matrix A) r c :
  has_shape M r c → 0 < r → has_shape (transpose M) c r.
Proof.
  intros HM Hr. apply has_shape_intro.
  - unfold transpose. rewrite length_fmap, length_seq.
    by apply (ncols_has_shape M r c).
  - intros j col Hcol.
    assert (j < c) as Hj.
    { apply lookup_lt_Some in Hcol. unfold transpose in Hcol.
      rewrite length_fmap, length_seq, (ncols_has_shape M r c) in Hcol; done. }
    destruct (transpose_lookup M r c j HM Hr Hj) as (col' & Hc' & Hl & _).
    congruence.
Qed.

Lemma transpose_involutive {A} (M : matrix A) r c :
  has_shape M r c → 0 < r → 0 < c → transpose (transpose M) = M.
Proof.
  intros HM Hr Hc.
  pose proof (has_shape_transpose M r c HM Hr) as HT.
  apply list_eq. intros i.
  destruct (decide (i < r)) as [Hi|Hi].
  - destruct (transpose_lookup (transpose M) c r i HT Hc Hi)
      as (row & -> & Hl & Hrow).
    destruct (lookup_lt_is_Some_2 M i) as [row' Hrow'];
      [destruct HM; lia|].
    rewrite Hrow'. f_equal. apply list_eq. intros j. rewrite Hrow.
    destruct (decide (j < c)) as [Hj|Hj].
    + destruct (transpose_lookup M r c j HM Hr Hj) as (col & -> & _ & Hcol).
      simpl. by rewrite Hcol, Hrow'.
    + rewrite (lookup_ge_None_2 (transpose M)) by (destruct HT; lia).
      simpl. symmetry. apply lookup_ge_None_2.
      rewrite (has_shape_rows M r c i row') by done. lia.
  - rewrite !lookup_ge_None_2; [done|destruct HM; lia|].
    destruct (has_shape_transpose (transpose M) c r HT Hc) as [-> _]. lia.
Qed.

Section shapes.
Context {F : Type} `{!Scalar F}.
Implicit Types (A B M : matrix F).

Lemma has_shape_fmap_rows {X Y} (f : list X → list Y) (M : matrix X) r c c' :
  (∀ row, length row = c → length (f row) = c') →
  has_shape M r c → has_shape (f <$> M) r c'.
Proof.
  intros Hf [Hr Hc]. split; [by rewrite length_fmap|].
  apply Forall_fmap. eapply Forall_impl; [exact Hc|]. intros row. apply Hf.
Qed.

Lemma has_shape_zip_rows (f : list F → list F → list F) A B r c :
  (∀ u v, length u = c → length v = c → length (f u v) = c) →
  has_shape A r c → has_shape B r c → has_shape (zip_with f A B) r c.
Proof.
  intros Hf [HAr HAc] [HBr HBc]. split.
  - rewrite length_zip_with. lia.
  - apply Forall_lookup. intros i row Hi.
    apply lookup_zip_with_Some in Hi as (u & v & -> & Hu & Hv).
    apply Hf.
    + by eapply (Forall_lookup_1 _ _ _ _ HAc).
    + by eapply (Forall_lookup_1 _ _ _ _ HBc).
Qed.

Lemma has_shape_zeros_like M r c :
  has_shape M r c → has_shape (zeros_like M) r c.
Proof.
  apply has_shape_fmap_rows. intros row. by rewrite length_fmap.
Qed.

Lemma has_shape_madd A B r c :
  has_shape A r c → has_shape B r c → has_shape (madd A B) r c.
Proof.
  apply has_shape_zip_rows. intros u v Hu Hv.
  unfold vadd. rewrite length_zip_with. lia.
Qed.

Lemma has_shape_msub A B r c :
  has_shape A r c → has_shape B r c → has_shape (msub A B) r c.
Proof.
  apply has_shape_zip_rows. intros u v Hu Hv.
  unfold vsub. rewrite length_zip_with. lia.
Qed.

Lemma has_shape_mscale t M r c :
  has_shape M r c → has_shape (mscale t M) r c.
Proof.
  apply has_shape_fmap_rows. intros row. by rewrite length_fmap.
Qed.

Lemma has_shape_dot A B m k n :
  has_shape A m k → has_shape B k n → 0 < k → has_shape (dot A B) m n.
Proof.
  intros HA HB Hk. unfold dot.
  apply (has_shape_fmap_rows _ A m k n); [|done].
  intros row _. rewrite length_fmap.
  by destruct (has_shape_transpose B k n HB Hk).
Qed.

Lemma has_shape_np_diag (s : list F) :
  has_shape (np_diag s) (length s) (length s).
Proof.
  apply has_shape_intro; [apply length_imap|].
  intros i row [x [_ ->]]%list_lookup_imap_Some.
  by rewrite length_insert, length_replicate.
Qed.
End shapes.

(* ------------------------------------------------------------------ *)
(** ** When the layout transform succeeds *)

Lemma length_pv_perm ps pt : length (pv_perm ps pt) = ps * pt * (ps * pt).
Proof.
  rewrite pv_perm_Permutation, length_seq, !Nat.pow_2_r. lia.
Qed.

Lemma pv_perm_lt ps pt : Forall (λ i, i < ps * pt * (ps * pt)) (pv_perm ps pt).
Proof.
  rewrite pv_perm_Permutation. apply Forall_seq.
  intros i. rewrite !Nat.pow_2_r. lia.
Qed.

Lemma argsort_pv_perm_lt ps pt :
  length (argsort (pv_perm ps pt)) = ps * pt * (ps * pt) ∧
  Forall (λ i, i < ps * pt * (ps * pt)) (argsort (pv_perm ps pt)).
Proof.
  destruct (argsort_inverse (pv_perm ps pt)) as [Hl Hinv].
  { rewrite length_pv_perm, pv_perm_Permutation. f_equiv.
    rewrite !Nat.pow_2_r. lia. }
  rewrite length_pv_perm in Hl, Hinv. split; [done|].
  apply Forall_lookup. intros k i Hk.
  destruct (Hinv k) as (i' & Hi' & Hpi).
  { apply lookup_lt_Some in Hk. lia. }
  assert (i' = i) as -> by congruence.
  apply lookup_lt_Some in Hpi. by rewrite length_pv_perm in Hpi.
Qed.

Section rearrange_facts.
Context {A : Type}.
Implicit Types C : matrix A.

(** An array with at least [(ps*pt)^2] entries is accepted, whatever
    its shape: entry [k] of the result is the entry of the flattened
    input at position [perm[k]]. *)
Lemma pv_rearrange_Ok C ps pt :
  ps * pt * (ps * pt) ≤ size C →
  ∃ R, pv_rearrange C ps pt = Ok R ∧ has_shape R (pt ^ 2) (ps ^ 2) ∧
       ∀ k i, pv_perm ps pt !! k = Some i → ravel R !! k = ravel C !! i.
Proof.
  intros Hsize. unfold pv_rearrange.
  rewrite pv_permutation_Ok. cbn [mbind result_bind].
  destruct (take_idx_Ok (ravel C) (pv_perm ps pt)) as (v & -> & Hl & Hv).
  { eapply Forall_impl; [apply pv_perm_lt|]. unfold size in Hsize.
    simpl. lia. }
  cbn [mbind result_bind]. rewrite length_pv_perm in Hl.
  assert (length v = pt ^ 2 * ps ^ 2) as Hl'
    by (rewrite Hl, !Nat.pow_2_r; lia).
  exists (chunks (pt ^ 2) (ps ^ 2) v).
  split; [by apply reshape2_Ok|]. split; [by apply chunks_has_shape|].
  unfold ravel at 1. by rewrite concat_chunks.
Qed.

(** An array with fewer entries makes the gather fail. *)
Lemma pv_rearrange_IndexError C ps pt :
  1 ≤ ps → 1 ≤ pt → size C < ps * pt * (ps * pt) →
  pv_rearrange C ps pt = Raise IndexError.
Proof.
  intros Hps Hpt Hsize. unfold pv_rearrange.
  rewrite pv_permutation_Ok. cbn [mbind result_bind].
  rewrite (take_idx_oob _ _ (ps * pt * (ps * pt) - 1)); [done| |].
  - rewrite pv_perm_Permutation, elem_of_seq, !Nat.pow_2_r. nia.
  - unfold size in Hsize. lia.
Qed.

Lemma pv_rearrange_inv_Ok C ps pt :
  ps * pt * (ps * pt) ≤ size C →
  ∃ out, pv_rearrange_inv C ps pt = Ok out ∧
         has_shape out (ps * pt) (ps * pt).
Proof.
  intros Hsize. unfold pv_rearrange_inv.
  rewrite pv_permutation_Ok. cbn [mbind result_bind].
  destruct (argsort_pv_perm_lt ps pt) as [Hlen Hlt].
  destruct (take_idx_Ok (ravel C) (argsort (pv_perm ps pt)))
    as (v & -> & Hl & _).
  { eapply Forall_impl; [exact Hlt|]. unfold size in Hsize. simpl. lia. }
  cbn [mbind result_bind]. rewrite Hlen in Hl.
  exists (chunks (ps * pt) (ps * pt) v).
  split; [by apply reshape2_Ok|]. by apply chunks_has_shape.
Qed.

Lemma size_has_shape C r c : has_shape C r c → size C = r * c.
Proof. apply length_ravel. Qed.
End rearrange_facts.

(* ------------------------------------------------------------------ *)
(** ** Loops *)

Lemma for_each_app {S X} (body : S → X → result S) s xs ys :
  for_each body s (xs ++ ys) = s' ← for_each body s xs; for_each body s' ys.
Proof.
  revert s. induction xs as [|x xs IH]; intros s; simpl; [done|].
  destruct (body s x); simpl; [apply IH|done].
Qed.

(** A loop whose body cannot fail and keeps an invariant. *)
Lemma for_each_invariant {S X} (body : S → X → result S) (I : S → Prop) s xs :
  I s →
  (∀ s x, x ∈ xs → I s → ∃ s', body s x = Ok s' ∧ I s') →
  ∃ s', for_each body s xs = Ok s' ∧ I s'.
Proof.
  revert s. induction xs as [|x xs IH]; intros s Hs Hbody; simpl; [eauto|].
  destruct (Hbody s x) as (s1 & -> & Hs1); [apply list_elem_of_here|done|].
  simpl. apply IH; [done|].
  intros s2 y Hy. apply Hbody. by apply list_elem_of_further.
Qed.

(* ------------------------------------------------------------------ *)
(** ** The unconstrained solver *)

Section kron_pca_facts.
Context {F : Type} `{!Scalar F} `{!Backend F}.
Implicit Types (M R : matrix F).

Lemma has_shape_soft_entrywise_threshold M lam r c :
  has_shape M r c → has_shape (soft_entrywise_threshold M lam) r c.
Proof.
  apply has_shape_fmap_rows. intros row. by rewrite length_fmap.
Qed.

Lemma has_shape_soft_sv_threshold M lam m n :
  svd_shapes m n → 0 < m → 0 < n →
  has_shape M m n → has_shape (soft_sv_threshold M lam) m n.
Proof.
  intros Hsvd Hm Hn HM. unfold soft_sv_threshold.
  destruct (svd M) as [[U s] Vh] eqn:HUsV.
  destruct (Hsvd M U s Vh HM HUsV) as (HU & Hs & HVh).
  apply (has_shape_dot _ _ m (m `min` n) n); [done| |lia].
  apply (has_shape_dot _ _ _ (m `min` n) n); [|done|lia].
  pose proof (has_shape_np_diag
    ((λ x, fmaximum (fsub x lam) fzero) <$> s)) as Hd.
  by rewrite length_fmap, Hs in Hd.
Qed.

Lemma tau_vals_lookup tau num_iter k :
  (∀ ts, tau = TauSchedule ts → length ts = num_iter) →
  k < num_iter →
  tau_vals_of tau num_iter !! k = Some (spec_tau tau (S k)).
Proof.
  intros Hts Hk. destruct tau as [t|ts]; simpl.
  - by apply lookup_replicate_2.
  - rewrite Nat.sub_0_r.
    destruct (lookup_lt_is_Some_2 ts k) as [x ->]; [|done].
    by rewrite (Hts ts eq_refl).
Qed.

(** After [k] iterations the loop variables hold the [k]-th iterates of
    the specification; [L] and [S] are bound from the first iteration
    on. *)
Lemma kron_loop_spec R lambda_L lambda_S tau num_iter k :
  (∀ ts, tau = TauSchedule ts → length ts = num_iter) →
  k ≤ num_iter →
  let '(L_k, S_k, M_k) := spec_iterates R lambda_L lambda_S tau k in
  for_each (kron_iteration R lambda_L lambda_S (tau_vals_of tau num_iter))
    (KronState (madd R (zeros_like R)) (zeros_like R) R None None)
    (seq 0 k)
  = Ok (KronState M_k S_k L_k
          (if decide (k = 0) then None else Some L_k)
          (if decide (k = 0) then None else Some S_k)).
Proof.
  intros Hts. induction k as [|k IH]; intros Hk; [done|].
  specialize (IH ltac:(lia)).
  rewrite seq_S, for_each_app. cbn [spec_iterates].
  destruct (spec_iterates R lambda_L lambda_S tau k) as [[L' S'] M'].
  rewrite IH. cbn [mbind result_bind for_each]. unfold kron_iteration.
  rewrite tau_vals_lookup by (done || lia). done.
Qed.

Lemma spec_iterates_shape R lambda_L lambda_S tau m n k :
  svd_shapes m n → 0 < m → 0 < n → has_shape R m n →
  let '(L_k, S_k, M_k) := spec_iterates R lambda_L lambda_S tau k in
  has_shape L_k m n ∧ has_shape S_k m n ∧ has_shape M_k m n.
Proof.
  intros Hsvd Hm Hn HR. induction k as [|k IH]; cbn [spec_iterates].
  - auto using has_shape_zeros_like, has_shape_madd.
  - destruct (spec_iterates R lambda_L lambda_S tau k) as [[L' S'] M'].
    destruct IH as (HL & HS & HM).
    assert (has_shape (soft_sv_threshold (msub M' S')
              (fmul (spec_tau tau (S k)) lambda_L)) m n)
      by auto using has_shape_soft_sv_threshold, has_shape_msub.
    assert (has_shape (soft_entrywise_threshold (msub M' L')
              (fmul (spec_tau tau (S k)) lambda_S)) m n)
      by auto using has_shape_soft_entrywise_threshold, has_shape_msub.
    auto 10 using has_shape_msub, has_shape_madd, has_shape_mscale.
Qed.

(** C4.  On a sample covariance of shape [(ps*pt, ps*pt)], with
    [num_iter >= 1] and a step that is a number or a schedule of
    length [num_iter], [prox_grad_robust_kron_pca] starts from
    [L_0 = R] (the rearranged covariance), [S_0 = 0], [M_0 = L_0 + S_0],
    performs the updates of the specification [num_iter] times, with
    no other exit from the loop, and returns the inverse rearrangement
    of [L + S] for the last iterates. *)
Theorem prox_grad_robust_kron_pca_iterates
    (sample_cov : matrix F) ps pt lambda_L lambda_S num_iter tau :
  1 ≤ ps → 1 ≤ pt →
  has_shape sample_cov (ps * pt) (ps * pt) →
  1 ≤ num_iter →
  (∀ ts, tau = TauSchedule ts → length ts = num_iter) →
  svd_shapes (pt ^ 2) (ps ^ 2) →
  ∃ R out,
    pv_rearrange sample_cov ps pt = Ok R ∧
    (let '(L_n, S_n, _) := spec_iterates R lambda_L lambda_S tau num_iter in
     pv_rearrange_inv (madd L_n S_n) ps pt = Ok out) ∧
    prox_grad_robust_kron_pca sample_cov ps pt lambda_L lambda_S
      num_iter tau = Ok out.
Proof.
  intros Hps Hpt HC Hn Hts Hsvd.
  destruct (pv_rearrange_Ok sample_cov ps pt) as (R & HR & HRs & _).
  { by rewrite (size_has_shape _ _ _ HC). }
  assert (0 < pt ^ 2 ∧ 0 < ps ^ 2) as [Hm Hk]
    by (rewrite !Nat.pow_2_r; nia).
  pose proof (kron_loop_spec R lambda_L lambda_S tau num_iter num_iter
                Hts ltac:(lia)) as Hloop.
  pose proof (spec_iterates_shape R lambda_L lambda_S tau _ _ num_iter
                Hsvd Hm Hk HRs) as Hshape.
  destruct (spec_iterates R lambda_L lambda_S tau num_iter)
    as [[L S] M] eqn:Hit.
  destruct Hshape as (HL & HS & _).
  destruct (pv_rearrange_inv_Ok (madd L S) ps pt) as (out & Hout & _).
  { rewrite (size_has_shape _ (pt ^ 2) (ps ^ 2))
      by by apply has_shape_madd.
    rewrite !Nat.pow_2_r. lia. }
  exists R, out. rewrite Hit. split; [done|]. split; [exact Hout|].
  unfold prox_grad_robust_kron_pca. rewrite HR. cbn [mbind result_bind].
  rewrite Hloop. cbn [mbind result_bind st_L st_S].
  rewrite !decide_False by lia. done.
Qed.
End kron_pca_facts.

(** The single-row backend has the shapes of a singular value
    decomposition. *)
Lemma svd_row_shapes log pi n :
  0 < n → @svd_shapes Q (row_backend log pi) 1 n.
Proof.
  intros Hn M U s Vh [HM Hrow] Hsvd.
  destruct M as [|v [|? ?]]; try done.
  rewrite Forall_singleton in Hrow.
  replace (1 `min` n) with 1 by lia.
  cbn [svd row_backend svd_row] in Hsvd.
  assert (has_shape [[1%Q]] 1 1) as HU
    by (split; [done|by apply Forall_singleton]).
  destruct (feqb (row_norm v) 0%Q); injection Hsvd as <- <- <-.
  - split; [exact HU|]. split; [done|].
    split; [done|]. apply Forall_singleton. by rewrite length_insert.
  - split; [exact HU|]. split; [done|].
    split; [done|]. apply Forall_singleton. by rewrite length_fmap.
Qed.

(** The solver on the 2-by-2 matrix of ones, with [ps = 2], [pt = 1],
    two iterations and step 1/10. *)
Lemma prox_grad_robust_kron_pca_iterates_witness :
  1 ≤ 2 ∧ 1 ≤ 1 ∧
  has_shape [[1%Q; 1%Q]; [1%Q; 1%Q]] (2 * 1) (2 * 1) ∧
  1 ≤ 2 ∧
  (∀ ts, TauScalar (1 # 10)%Q = TauSchedule ts → length ts = 2) ∧
  @svd_shapes Q Q_backend (1 ^ 2) (2 ^ 2) ∧
  ∃ R out,
    pv_rearrange [[1%Q; 1%Q]; [1%Q; 1%Q]] 2 1 = Ok R ∧
    (let '(L_n, S_n, _) :=
       @spec_iterates Q Q_scalar Q_backend R 2%Q 0%Q (TauScalar (1 # 10)%Q) 2 in
     pv_rearrange_inv (madd L_n S_n) 2 1 = Ok out) ∧
    @prox_grad_robust_kron_pca Q Q_scalar Q_backend
      [[1%Q; 1%Q]; [1%Q; 1%Q]] 2 1 2%Q 0%Q 2 (TauScalar (1 # 10)%Q) = Ok out.
Proof.
  assert (has_shape [[1%Q; 1%Q]; [1%Q; 1%Q]] (2 * 1) (2 * 1)) as Hshape
    by (split; [reflexivity|repeat constructor]).
  assert (∀ ts : list Q,
            TauScalar (1 # 10)%Q = TauSchedule ts → length ts = 2) as Hts
    by (intros ts Hts; discriminate Hts).
  assert (@svd_shapes Q Q_backend (1 ^ 2) (2 ^ 2)) as Hsvd
    by (apply svd_row_shapes; simpl; lia).
  split; [lia|]. split; [lia|]. split; [exact Hshape|]. split; [lia|].
  split; [exact Hts|]. split; [exact Hsvd|].
  apply (@prox_grad_robust_kron_pca_iterates Q Q_scalar Q_backend
           [[1%Q; 1%Q]; [1%Q; 1%Q]] 2 1 2%Q 0%Q 2 (TauScalar (1 # 10)%Q));
    [lia|lia|exact Hshape|lia|exact Hts|exact Hsvd].
Defined.

Example prox_grad_robust_kron_pca_ones :
  @prox_grad_robust_kron_pca Q Q_scalar Q_backend
    [[1%Q; 1%Q]; [1%Q; 1%Q]] 2 1 2%Q 0%Q 2 (TauScalar (1 # 10)%Q)
  = Ok [[(41 # 50)%Q; (41 # 50)%Q]; [(41 # 50)%Q; (41 # 50)%Q]].
Proof. vm_compute. reflexivity. Qed.

(* ------------------------------------------------------------------ *)
(** ** Building the projector *)

Section shape_mismatch.
Context {F : Type} `{!Scalar F} `{!Backend F}.

(** For [pt >= 1] the projector is built without error. *)
Lemma build_P_Ok pt :
  1 ≤ pt → ∃ P : matrix F, build_P pt = Ok P.
Proof.
  intros Hpt. unfold build_P, np_zeros, build_P_idx, arange.
  rewrite decide_False by lia. cbn [mbind result_bind].
  rewrite reshape2_Ok by (rewrite length_seq, Nat.pow_2_r; lia).
  cbn [mbind result_bind]. eauto.
Qed.

End shape_mismatch.

(* ------------------------------------------------------------------ *)
(** ** The folds of the cross-validation *)

Section folds.
Context {F : Type} `{!Scalar F} `{!Backend F}.
Implicit Types X : matrix F.

Lemma fold_block_le n num_folds cv_iter :
  cv_iter < num_folds → (cv_iter + 1) * (n / num_folds) ≤ n.
Proof.
  intros Hi. pose proof (Nat.Div0.mul_div_le n num_folds). nia.
Qed.

Lemma X_test_lookup X fold_size cv_iter r :
  r < fold_size →
  X_test X fold_size cv_iter !! r = X !! (cv_iter * fold_size + r).
Proof.
  intros Hr. unfold X_test, slice.
  rewrite lookup_take_lt by lia. by rewrite lookup_drop.
Qed.

Lemma X_train_lookup X fold_size cv_iter r :
  (cv_iter + 1) * fold_size ≤ length X →
  X_train X fold_size cv_iter !! r
  = X !! (if decide (r < cv_iter * fold_size) then r else r + fold_size).
Proof.
  intros Hle. unfold X_train.
  assert (length (take (cv_iter * fold_size) X) = cv_iter * fold_size) as Hl
    by (rewrite length_take; lia).
  destruct (decide (r < cv_iter * fold_size)) as [Hr|Hr].
  - rewrite lookup_app_l by lia. by rewrite lookup_take_lt.
  - rewrite lookup_app_r by lia. rewrite Hl, lookup_drop. f_equal. lia.
Qed.

End folds.

(** With five rows and two folds the fold size is 2 and row 4 is the
    remainder.  It is not dropped: it belongs to the training set of
    fold 0 and of fold 1. *)
Lemma cv_remainder_row_is_trained_on :
  let X := [[1%Q]; [2%Q]; [3%Q]; [4%Q]; [5%Q]] in
  let fold_size := length X / 2 in
  2 * fold_size ≤ 4 ∧ X !! 4 = Some [5%Q] ∧
  X_train X fold_size 0 = [[3%Q]; [4%Q]; [5%Q]] ∧
  X_train X fold_size 1 = [[1%Q]; [2%Q]; [5%Q]].
Proof. simpl. split_and!; [lia|reflexivity..]. Qed.

(* ------------------------------------------------------------------ *)
(** ** Degenerate fits *)

Section degenerate.
Context {F : Type} `{!Scalar F} `{!Backend F}.
Implicit Types X : matrix F.

Lemma score_fold_degenerate d (Xte cov : matrix F) rank sparsity :
  fltb (abs_sum cov) eps_degenerate = true →
  score_fold d Xte (cov, rank, sparsity) = Ok (NegInf, 0, fzero).
Proof. intros Hlt. unfold score_fold. by rewrite Hlt. Qed.

(** What the loop over the folds has recorded after [k] folds. *)
Lemma cv_loop_records X ps pt lambda_L lambda_S fold_size d tau tol
    max_iter stop_cond_interval (K k : nat) ll0 rk0 sp0 ll rk sp :
  length ll0 = K → length rk0 = K → length sp0 = K → k ≤ K →
  for_each (cv_step X ps pt lambda_L lambda_S fold_size d tau tol
              max_iter stop_cond_interval) (ll0, rk0, sp0) (seq 0 k)
  = Ok (ll, rk, sp) →
  length ll = K ∧ length rk = K ∧ length sp = K ∧
  ∀ i, i < k →
    ∃ l r s, cv_fold X ps pt lambda_L lambda_S fold_size d tau tol
               max_iter stop_cond_interval i = Ok (l, r, s) ∧
             ll !! i = Some l ∧ rk !! i = Some r ∧ sp !! i = Some s.
Proof.
  intros Hll0 Hrk0 Hsp0. revert ll rk sp.
  induction k as [|k IH]; intros ll rk sp Hk Hloop.
  - simpl in Hloop. injection Hloop as <- <- <-.
    split_and!; [done..|]. intros i Hi. lia.
  - rewrite seq_S, for_each_app in Hloop.
    destruct (for_each _ _ (seq 0 k)) as [[[ll1 rk1] sp1]|] eqn:Hk1;
      [|done].
    destruct (IH ll1 rk1 sp1 ltac:(lia) eq_refl) as (Hl1 & Hr1 & Hs1 & Hrec).
    cbn [mbind result_bind for_each cv_step] in Hloop.
    destruct (cv_fold X ps pt lambda_L lambda_S fold_size d tau tol
                max_iter stop_cond_interval (0 + k))
      as [[[l r] s]|] eqn:Hfold; [|done].
    cbn [mbind result_bind] in Hloop. injection Hloop as <- <- <-.
    rewrite !length_insert. split_and!; [done..|].
    intros i Hi. destruct (decide (i = k)) as [->|Hne].
    + exists l, r, s. split; [done|].
      by rewrite !list_lookup_insert_eq by lia.
    + destruct (Hrec i ltac:(lia)) as (l' & r' & s' & Hf & ? & ? & ?).
      exists l', r', s'. split; [done|].
      by rewrite !list_lookup_insert_ne by done.
Qed.

(** C6.  When the solver's fit for a fold has a sum of absolute entries
    below [1e-12], the fold records [-inf], rank 0 and sparsity 0 and
    returns without calling [inv] (the statement holds for every
    backend, whatever its [inv] does on such a matrix); these are the
    entries of the arrays the driver returns; and when every fold is
    of this kind the driver returns. *)
Theorem cv_degenerate_fold X ps pt lambda_L lambda_S num_folds tau tol
    max_iter stop_cond_interval :
  let fold_size := length X / num_folds in
  let fit cv_iter :=
    prox_grad_robust_toeplitz_kron_pca
      (cov_train (X_train X fold_size cv_iter)) ps pt lambda_L lambda_S
      tau tol max_iter stop_cond_interval in
  let degenerate cv_iter :=
    ∃ cov rank sparsity,
      fit cv_iter = Ok (cov, rank, sparsity) ∧
      fltb (abs_sum cov) eps_degenerate = true in
  1 ≤ num_folds →
  (∀ cv_iter, cv_iter < num_folds → degenerate cv_iter →
     cv_fold X ps pt lambda_L lambda_S fold_size (ncols X) tau tol
       max_iter stop_cond_interval cv_iter = Ok (NegInf, 0, fzero) ∧
     ∀ ll rk sp,
       cross_validate_toeplitz_fit X ps pt lambda_L lambda_S num_folds
         tau tol max_iter stop_cond_interval = Ok (ll, rk, sp) →
       ll !! cv_iter = Some NegInf ∧ rk !! cv_iter = Some 0 ∧
       sp !! cv_iter = Some fzero) ∧
  ((∀ cv_iter, cv_iter < num_folds → degenerate cv_iter) →
     cross_validate_toeplitz_fit X ps pt lambda_L lambda_S num_folds
       tau tol max_iter stop_cond_interval
     = Ok (replicate num_folds NegInf, replicate num_folds 0,
           replicate num_folds fzero)).
Proof.
  intros fold_size fit degenerate HK.
  assert (∀ cv_iter, degenerate cv_iter →
    cv_fold X ps pt lambda_L lambda_S fold_size (ncols X) tau tol
      max_iter stop_cond_interval cv_iter = Ok (NegInf, 0, fzero)) as Hfold.
  { intros cv_iter (cov & rank & sparsity & Hfit & Hlt).
    unfold cv_fold. unfold fit in Hfit. rewrite Hfit.
    cbn [mbind result_bind]. by apply score_fold_degenerate. }
  unfold cross_validate_toeplitz_fit. rewrite decide_False by lia.
  cbn [mbind result_bind]. fold fold_size.
  split.
  - intros cv_iter Hi Hdeg. split; [by apply Hfold|].
    intros ll rk sp Hcv.
    apply cv_loop_records with (K := num_folds) in Hcv
      as (_ & _ & _ & Hrec); [|by rewrite length_replicate..|lia].
    destruct (Hrec cv_iter Hi) as (l & r & s & Hf & Hl & Hr & Hs).
    rewrite (Hfold cv_iter Hdeg) in Hf. by injection Hf as <- <- <-.
  - intros Hall.
    assert (∀ k, k ≤ num_folds →
      for_each (cv_step X ps pt lambda_L lambda_S fold_size (ncols X) tau
                  tol max_iter stop_cond_interval)
        (replicate num_folds (Fin fzero), replicate num_folds 0,
         replicate num_folds fzero) (seq 0 k)
      = Ok (replicate k NegInf ++ replicate (num_folds - k) (Fin fzero),
            replicate num_folds 0, replicate num_folds fzero)) as Hk.
    { induction k as [|k IH]; intros Hle.
      - by rewrite Nat.sub_0_r.
      - rewrite seq_S, for_each_app, IH by lia.
        cbn [mbind result_bind for_each cv_step].
        rewrite (Hfold (0 + k)) by (apply Hall; lia).
        cbn [mbind result_bind]. do 2 f_equal; [f_equal|].
        + replace (num_folds - k) with (S (num_folds - S k)) by lia.
          replace (0 + k) with (length (replicate k (@NegInf F)) + 0)
            by (rewrite length_replicate; lia).
          rewrite insert_app_r, (replicate_S_end k), <-app_assoc. done.
        + apply list_insert_id. apply lookup_replicate_2. lia.
        + apply list_insert_id. apply lookup_replicate_2. lia. }
    rewrite Hk by done. by rewrite Nat.sub_diag, app_nil_r.
Qed.
End degenerate.

(* ------------------------------------------------------------------ *)
(** ** What the driver does with each fold *)

Section fold_scores.
Context {F : Type} `{!Scalar F} `{!Backend F}.
Implicit Types X : matrix F.

(** C5, as the code has it.  Let the driver return on a table of [n]
    rows cut in [K >= 1] folds, and let [fold_size = floor(n / K)].
    The test set of fold [i] is the block of rows
    [[i*fold_size, (i+1)*fold_size)] and the training set is every
    other row of the table, in order: the rows beyond [K*fold_size] are
    in no test set and in every training set.  When no fold is empty
    ([2 <= K <= n]), entry [i] of the returned arrays is computed from
    these two sets: the solver is fitted on the covariance of the
    mean-centred training rows, divided by their number, and unless
    the fit is degenerate the log-likelihood is evaluated against the
    second-moment matrix of the test rows as they are, not centred,
    divided by their number. *)
Theorem cv_fold_split X ps pt lambda_L lambda_S num_folds
    tau tol max_iter stop_cond_interval ll rk sp :
  1 ≤ num_folds →
  cross_validate_toeplitz_fit X ps pt lambda_L lambda_S num_folds
    tau tol max_iter stop_cond_interval = Ok (ll, rk, sp) →
  ∀ cv_iter, cv_iter < num_folds →
    let n := length X in
    let fold_size := n / num_folds in
    let Xte := take fold_size (drop (cv_iter * fold_size) X) in
    let Xtr := take (cv_iter * fold_size) X
               ++ drop ((cv_iter + 1) * fold_size) X in
    (length Xte = fold_size ∧
     ∀ r, r < fold_size → Xte !! r = X !! (cv_iter * fold_size + r)) ∧
    (length Xtr = n - fold_size ∧
     ∀ r, Xtr !! r
          = X !! (if decide (r < cv_iter * fold_size) then r
                  else r + fold_size)) ∧
    (∀ r, num_folds * fold_size ≤ r → Xtr !! (r - fold_size) = X !! r) ∧
    (2 ≤ num_folds → num_folds ≤ n →
     let Xtr_ctd := sub_row Xtr (mean_axis0 Xtr) in
     let train_cov :=
       mdiv (dot (transpose Xtr_ctd) Xtr_ctd) (of_nat (n - fold_size)) in
     let test_cov := mdiv (dot (transpose Xte) Xte) (of_nat fold_size) in
     ∃ cov rank sparsity,
       prox_grad_robust_toeplitz_kron_pca train_cov ps pt lambda_L lambda_S
         tau tol max_iter stop_cond_interval = Ok (cov, rank, sparsity) ∧
       if fltb (abs_sum cov) eps_degenerate
       then ll !! cv_iter = Some NegInf ∧ rk !! cv_iter = Some 0 ∧
            sp !! cv_iter = Some fzero
       else ∃ cov_inv,
              inv cov = Ok cov_inv ∧ ncols cov_inv = ncols X ∧
              ll !! cv_iter
              = Some (Fin (log_likelihood_of (ncols X) fold_size
                             (slogdet cov) cov_inv test_cov)) ∧
              rk !! cv_iter = Some rank ∧ sp !! cv_iter = Some sparsity).
Proof.
  intros HK Hcv cv_iter Hi n fold_size Xte Xtr.
  pose proof (fold_block_le n num_folds cv_iter Hi) as Hle.
  fold fold_size in Hle.
  assert (Xte = X_test X fold_size cv_iter) as HXte.
  { unfold Xte, X_test, slice. do 2 f_equal. lia. }
  assert (length Xte = fold_size) as Hlte.
  { unfold Xte. rewrite length_take, length_drop. fold n. lia. }
  assert (length Xtr = n - fold_size) as Hltr.
  { unfold Xtr. rewrite length_app, length_take, length_drop. fold n. lia. }
  split_and!.
  - done.
  - intros r Hr. rewrite HXte. by apply X_test_lookup.
  - done.
  - intros r. by apply (X_train_lookup X fold_size cv_iter r).
  - intros r Hr. rewrite (X_train_lookup X fold_size cv_iter) by done.
    rewrite decide_False by nia. f_equal. nia.
  - intros _ _ Xtr_ctd train_cov test_cov.
    unfold cross_validate_toeplitz_fit in Hcv.
    rewrite decide_False in Hcv by lia. cbn [mbind result_bind] in Hcv.
    apply cv_loop_records with (K := num_folds) in Hcv
      as (_ & _ & _ & Hrec); [|by rewrite length_replicate..|lia].
    destruct (Hrec cv_iter Hi) as (l & r & s & Hfold & Hl & Hr & Hs).
    unfold cv_fold, cov_train in Hfold.
    change (X_train X (length X / num_folds) cv_iter) with Xtr in Hfold.
    rewrite Hltr in Hfold. fold Xtr_ctd train_cov in Hfold.
    destruct (prox_grad_robust_toeplitz_kron_pca train_cov _ _ _ _ _ _ _ _)
      as [[[cov rank] sparsity]|]; [|done].
    cbn [mbind result_bind] in Hfold. unfold score_fold in Hfold.
    exists cov, rank, sparsity. split; [done|].
    destruct (fltb (abs_sum cov) eps_degenerate).
    + injection Hfold as <- <- <-. done.
    + destruct (inv cov) as [cov_inv|]; [|done].
      cbn [mbind result_bind] in Hfold.
      destruct (decide (ncols cov_inv = ncols X)) as [Hd|]; [|done].
      injection Hfold as <- <- <-.
      exists cov_inv. split_and!; [done..| |done|done].
      rewrite Hl. unfold cov_test. fold n fold_size. rewrite <-HXte.
      by rewrite Hlte.
Qed.
End fold_scores.

(** A table of five rows cut in two folds, without regularisation. *)
Lemma cv_fold_split_witness :
  let X := [[1%Q]; [2%Q]; [3%Q]; [4%Q]; [5%Q]] in
  let ll := [Fin (-11797 # 1356)%Q; Fin (-608113 # 52884)%Q] in
  let rk := [1; 1] in
  let sp := [0%Q; 0%Q] in
  1 ≤ 2 ∧
  @cross_validate_toeplitz_fit Q Q_scalar Q_backend X 1 1 0%Q 0%Q 2
    (1 # 10)%Q (1 # 100000000)%Q 3 20 = Ok (ll, rk, sp) ∧
  2 ≤ 2 ∧ 2 ≤ length X ∧
  ∀ cv_iter, cv_iter < 2 →
    let n := length X in
    let fold_size := n / 2 in
    let Xte := take fold_size (drop (cv_iter * fold_size) X) in
    let Xtr := take (cv_iter * fold_size) X
               ++ drop ((cv_iter + 1) * fold_size) X in
    (length Xte = fold_size ∧
     ∀ r, r < fold_size → Xte !! r = X !! (cv_iter * fold_size + r)) ∧
    (length Xtr = n - fold_size ∧
     ∀ r, Xtr !! r
          = X !! (if decide (r < cv_iter * fold_size) then r
                  else r + fold_size)) ∧
    (∀ r, 2 * fold_size ≤ r → Xtr !! (r - fold_size) = X !! r) ∧
    (2 ≤ 2 → 2 ≤ n →
     let Xtr_ctd := sub_row Xtr (mean_axis0 Xtr) in
     let train_cov :=
       mdiv (dot (transpose Xtr_ctd) Xtr_ctd) (of_nat (n - fold_size)) in
     let test_cov := mdiv (dot (transpose Xte) Xte) (of_nat fold_size) in
     ∃ cov rank sparsity,
       @prox_grad_robust_toeplitz_kron_pca Q Q_scalar Q_backend train_cov
         1 1 0%Q 0%Q (1 # 10)%Q (1 # 100000000)%Q 3 20
       = Ok (cov, rank, sparsity) ∧
       if fltb (abs_sum cov) eps_degenerate
       then ll !! cv_iter = Some NegInf ∧ rk !! cv_iter = Some 0 ∧
            sp !! cv_iter = Some fzero
       else ∃ cov_inv,
              inv cov = Ok cov_inv ∧ ncols cov_inv = ncols X ∧
              ll !! cv_iter
              = Some (Fin (log_likelihood_of (ncols X) fold_size
                             (slogdet cov) cov_inv test_cov)) ∧
              rk !! cv_iter = Some rank ∧ sp !! cv_iter = Some sparsity).
Proof.
  intros X ll rk sp.
  assert (@cross_validate_toeplitz_fit Q Q_scalar Q_backend X 1 1 0%Q 0%Q 2
            (1 # 10)%Q (1 # 100000000)%Q 3 20 = Ok (ll, rk, sp)) as Hcv
    by (vm_compute; reflexivity).
  split; [lia|]. split; [exact Hcv|]. split; [lia|].
  split; [simpl; lia|].
  exact (@cv_fold_split Q Q_scalar Q_backend X 1 1 0%Q 0%Q 2
           (1 # 10)%Q (1 # 100000000)%Q 3 20 ll rk sp ltac:(lia) Hcv).
Defined.

(** Two folds over five rows with [lambda_L = 1000]: both fits are the
    zero matrix, whose inversion by [inv_1x1] would raise. *)
Lemma cv_degenerate_fold_witness :
  1 ≤ 2 ∧
  let X := [[1%Q]; [2%Q]; [3%Q]; [4%Q]; [5%Q]] in
  let fold_size := length X / 2 in
  let fit cv_iter :=
    @prox_grad_robust_toeplitz_kron_pca Q Q_scalar Q_backend
      (cov_train (X_train X fold_size cv_iter)) 1 1 1000%Q 0%Q
      (1 # 10)%Q (1 # 100000000)%Q 3 20 in
  let degenerate cv_iter :=
    ∃ cov rank sparsity,
      fit cv_iter = Ok (cov, rank, sparsity) ∧
      fltb (abs_sum cov) eps_degenerate = true in
  (∀ cv_iter, cv_iter < 2 → degenerate cv_iter →
     @cv_fold Q Q_scalar Q_backend X 1 1 1000%Q 0%Q fold_size (ncols X)
       (1 # 10)%Q (1 # 100000000)%Q 3 20 cv_iter = Ok (NegInf, 0, fzero) ∧
     ∀ ll rk sp,
       @cross_validate_toeplitz_fit Q Q_scalar Q_backend X 1 1 1000%Q 0%Q 2
         (1 # 10)%Q (1 # 100000000)%Q 3 20 = Ok (ll, rk, sp) →
       ll !! cv_iter = Some NegInf ∧ rk !! cv_iter = Some 0 ∧
       sp !! cv_iter = Some fzero) ∧
  ((∀ cv_iter, cv_iter < 2 → degenerate cv_iter) →
     @cross_validate_toeplitz_fit Q Q_scalar Q_backend X 1 1 1000%Q 0%Q 2
       (1 # 10)%Q (1 # 100000000)%Q 3 20
     = Ok (replicate 2 NegInf, replicate 2 0, replicate 2 fzero)).
Proof.
  split; [lia|].
  apply (@cv_degenerate_fold Q Q_scalar Q_backend
           [[1%Q]; [2%Q]; [3%Q]; [4%Q]; [5%Q]] 1 1 1000%Q 0%Q 2
           (1 # 10)%Q (1 # 100000000)%Q 3 20); lia.
Defined.

Example cv_degenerate_fits :
  let X := [[1%Q]; [2%Q]; [3%Q]; [4%Q]; [5%Q]] in
  @prox_grad_robust_toeplitz_kron_pca Q Q_scalar Q_backend
    (cov_train (X_train X 2 0)) 1 1 1000%Q 0%Q
    (1 # 10)%Q (1 # 100000000)%Q 3 20 = Ok ([[0%Q]], 0, 0%Q) ∧
  inv [[0%Q]] = Raise LinAlgError ∧
  @cross_validate_toeplitz_fit Q Q_scalar Q_backend X 1 1 1000%Q 0%Q 2
    (1 # 10)%Q (1 # 100000000)%Q 3 20
  = Ok ([NegInf; NegInf], [0; 0], [0%Q; 0%Q]).
Proof. split_and!; vm_compute; reflexivity. Qed.

(* ------------------------------------------------------------------ *)
(** ** The sparsity diagnostic *)

(** C3 on a concrete call.  On the 2-by-2 matrix of ones with [ps = 2],
    [pt = 1], [lambda_L = 2], [lambda_S = 0] and two iterations, the
    loop ends with all four entries of [S_tilde] equal to 1/100, so the
    fraction of nonzero entries is 1; the solver returns 3/2, the sum
    of the row and column indices of these entries divided by 4, which
    lies outside [[0, 1]].  On the 1-by-1 matrix [1] with [ps = pt = 1]
    the only entry of [S_tilde] is nonzero and the solver returns 0. *)
Theorem toeplitz_sparsity_sums_indices (log : Q → Q) (pi : Q) :
  let B := row_backend log pi in
  let ones := [[1%Q; 1%Q]; [1%Q; 1%Q]] in
  st_S_tilde <$>
    for_break
      (@toeplitz_iteration Q Q_scalar B [[1%Q]] [[1%Q; 1%Q; 1%Q; 1%Q]]
         2 1 2%Q 0%Q (1 # 10)%Q (1 # 100000000)%Q 20)
      (ToeplitzState [[1%Q; 1%Q; 1%Q; 1%Q]] [[0%Q; 0%Q; 0%Q; 0%Q]]
         [[1%Q; 1%Q; 1%Q; 1%Q]] [[0%Q; 0%Q; 0%Q; 0%Q]] None None None)
      (seq 0 2)
  = Ok [[(1 # 100)%Q; (1 # 100)%Q; (1 # 100)%Q; (1 # 100)%Q]] ∧
  nonzero [[(1 # 100)%Q; (1 # 100)%Q; (1 # 100)%Q; (1 # 100)%Q]]
    = ([0; 0; 0; 0], [0; 1; 2; 3]) ∧
  @prox_grad_robust_toeplitz_kron_pca Q Q_scalar B ones 2 1 2%Q 0%Q
    (1 # 10)%Q (1 # 100000000)%Q 2 20
  = Ok ([[(9 # 10)%Q; (9 # 10)%Q]; [(9 # 10)%Q; (9 # 10)%Q]], 1, (3 # 2)%Q) ∧
  fltb 1%Q (3 # 2)%Q = true ∧
  @prox_grad_robust_toeplitz_kron_pca Q Q_scalar B [[1%Q]] 1 1 1%Q 0%Q
    (1 # 10)%Q (1 # 100000000)%Q 2 20
  = Ok ([[(9 # 10)%Q]], 1, 0%Q).
Proof.
  intros B ones. split_and!.
  - vm_compute; reflexivity.
  - vm_compute; reflexivity.
  - vm_compute; reflexivity.
  - vm_compute; reflexivity.
  - vm_compute; reflexivity.
Qed.

Example toeplitz_ones_setup :
  @build_P Q Q_scalar 1 = Ok [[1%Q]] ∧
  pv_rearrange [[1%Q; 1%Q]; [1%Q; 1%Q]] 2 1 = Ok [[1%Q; 1%Q; 1%Q; 1%Q]] ∧
  dot [[1%Q]] [[1%Q; 1%Q; 1%Q; 1%Q]] = [[1%Q; 1%Q; 1%Q; 1%Q]].
Proof. split_and!; vm_compute; reflexivity. Qed.

(* ------------------------------------------------------------------ *)
(** ** The grid search *)

Lemma for_each_unchanged {S X} (body : S → X → result S) s xs :
  (∀ s x, body s x = Ok s) → for_each body s xs = Ok s.
Proof.
  intros Hbody. induction xs as [|x xs IH]; simpl; [done|].
  by rewrite Hbody.
Qed.

Section grid_search.
Context {F : Type} `{!Scalar F} `{!Backend F}.
Implicit Types X : matrix F.

Lemma grid_cell_lambda X ps pt lambda_S_vals lambda_L_vals num_folds tau tol
    max_iter stop_cond_interval st iL iS st' :
  grid_cell X ps pt lambda_S_vals lambda_L_vals num_folds tau tol
    max_iter stop_cond_interval st iL iS = Ok st' →
  ∃ lambda_L lambda_S,
    lambda_L_vals !! iL = Some lambda_L ∧
    lambda_S_vals !! iS = Some lambda_S ∧
    g_lambda st' = Some (lambda_L, lambda_S).
Proof.
  unfold grid_cell. intros Hcell.
  destruct (lambda_L_vals !! iL) as [lambda_L|]; [|done].
  destruct (lambda_S_vals !! iS) as [lambda_S|]; [|done].
  cbn [or_raise mbind result_bind] in Hcell.
  destruct (cross_validate_toeplitz_fit _ _ _ _ _ _ _ _ _ _)
    as [[[ll rk] sp]|]; [|done].
  cbn [mbind result_bind] in Hcell. injection Hcell as <-.
  by exists lambda_L, lambda_S.
Qed.

(** After the two loops over a grid with at least one value on each
    axis, the loop variables [lambda_L] and [lambda_S] hold the last
    value of each axis. *)
Lemma grid_loops_lambda X ps pt lambda_S_vals lambda_L_vals num_folds tau tol
    max_iter stop_cond_interval st0 st :
  g_lambda st0 = None →
  for_each (λ st lambda_L_idx,
      for_each (λ st lambda_S_idx,
          grid_cell X ps pt lambda_S_vals lambda_L_vals num_folds tau tol
            max_iter stop_cond_interval st lambda_L_idx lambda_S_idx)
        st (seq 0 (length lambda_S_vals)))
    st0 (seq 0 (length lambda_L_vals)) = Ok st →
  ∀ p, g_lambda st = Some p →
    ∃ lambda_L lambda_S,
      last lambda_L_vals = Some lambda_L ∧
      last lambda_S_vals = Some lambda_S ∧ p = (lambda_L, lambda_S).
Proof.
  intros Hst0 Hloop p Hp. rewrite !last_lookup.
  destruct (length lambda_S_vals) as [|nS] eqn:HnS.
  { rewrite for_each_unchanged in Hloop by done.
    injection Hloop as <-. congruence. }
  destruct (length lambda_L_vals) as [|nL] eqn:HnL.
  { simpl in Hloop. injection Hloop as <-. congruence. }
  rewrite (seq_S nL), for_each_app in Hloop.
  destruct (for_each _ st0 (seq 0 nL)) as [st1|]; [|done].
  cbn [mbind result_bind for_each] in Hloop.
  rewrite (seq_S nS), for_each_app in Hloop.
  destruct (for_each _ st1 (seq 0 nS)) as [st2|]; [|done].
  cbn [mbind result_bind for_each] in Hloop.
  destruct (grid_cell _ _ _ _ _ _ _ _ _ _ st2 _ _) as [st3|] eqn:Hcell;
    [|done].
  cbn [mbind result_bind] in Hloop. injection Hloop as <-.
  apply grid_cell_lambda in Hcell as (lambda_L & lambda_S & HL & HS & Hg).
  exists lambda_L, lambda_S. simpl in *. split_and!; congruence.
Qed.

(** X16.  Whenever [regularize_cov] returns, its covariance estimate is
    the solver's fit for the last value of each grid, not for the
    selected pair. *)
Lemma regularize_cov_refit X ps pt lambda_S_vals lambda_L_vals num_folds
    tau tol max_iter stop_cond_interval final_cov_reg ll rk sp :
  regularize_cov X ps pt lambda_S_vals lambda_L_vals num_folds tau tol
    max_iter stop_cond_interval = Ok (final_cov_reg, ll, rk, sp) →
  ∃ lambda_L lambda_S rank sparsity,
    last lambda_L_vals = Some lambda_L ∧
    last lambda_S_vals = Some lambda_S ∧
    prox_grad_robust_toeplitz_kron_pca (np_cov_bias X) ps pt
      lambda_L lambda_S tau tol max_iter stop_cond_interval
    = Ok (final_cov_reg, rank, sparsity).
Proof.
  unfold regularize_cov. intros Hreg.
  destruct (for_each _ _ (seq 0 (length lambda_L_vals))) as [st|] eqn:Hloop;
    [|done].
  cbn [mbind result_bind] in Hreg.
  destruct (select_opt _ _ _) as [[lambda_L_opt lambda_S_opt]|]; [|done].
  cbn [mbind result_bind] in Hreg.
  destruct (g_lambda st) as [[lambda_L lambda_S]|] eqn:Hg; [|done].
  cbn [or_raise mbind result_bind] in Hreg.
  destruct (prox_grad_robust_toeplitz_kron_pca _ _ _ _ _ _ _ _ _)
    as [[[cov rank] sparsity]|] eqn:Hfit; [|done].
  cbn [mbind result_bind] in Hreg. injection Hreg as <- _ _ _.
  apply grid_loops_lambda with (p := (lambda_L, lambda_S)) in Hloop
    as (l & s & Hl & Hs & [= -> ->]); [|done..].
  by exists l, s, rank, sparsity.
Qed.
End grid_search.

(** C2 on a concrete call.  On five rows of one feature with
    [ps = pt = 1], [lambda_S_vals = [0]] and [lambda_L_vals = [0, 1000]],
    the folds for [lambda_L = 0] have finite log-likelihoods and those
    for [lambda_L = 1000] have [-inf], so the selected pair is [(0, 0)].
    The solver's fit for that pair is the sample covariance [2].
    [regularize_cov] returns the fit for [(1000, 0)], the pair the loop
    variables hold after the last iteration: the zero matrix. *)
Theorem regularize_cov_ignores_selection :
  let X := [[1%Q]; [2%Q]; [3%Q]; [4%Q]; [5%Q]] in
  let tau := (1 # 10)%Q in
  let tol := (1 # 100000000)%Q in
  ∃ ll rk sp,
    @regularize_cov Q Q_scalar Q_backend X 1 1 [0%Q] [0%Q; 1000%Q] 2
      tau tol 3 20 = Ok ([[0%Q]], ll, rk, sp) ∧
    (∃ a b, ll = [[[Fin a; Fin b]]; [[NegInf; NegInf]]]) ∧
    select_opt [0%Q] [0%Q; 1000%Q] ll = Ok (0%Q, 0%Q) ∧
    @prox_grad_robust_toeplitz_kron_pca Q Q_scalar Q_backend
      (np_cov_bias X) 1 1 0%Q 0%Q tau tol 3 20 = Ok ([[2%Q]], 1, 0%Q) ∧
    @prox_grad_robust_toeplitz_kron_pca Q Q_scalar Q_backend
      (np_cov_bias X) 1 1 1000%Q 0%Q tau tol 3 20 = Ok ([[0%Q]], 0, 0%Q).
Proof.
  intros X tau tol. do 3 eexists. split_and!.
  - vm_compute. reflexivity.
  - do 2 eexists. reflexivity.
  - vm_compute. reflexivity.
  - vm_compute. reflexivity.
  - vm_compute. reflexivity.
Qed.

(* ------------------------------------------------------------------ *)
(** ** The Toeplitz projector in closed form *)

Lemma foldl_ext_in {A B} (f g : A → B → A) (a : A) (l : list B) :
  (∀ a x, x ∈ l → f a x = g a x) → foldl f a l = foldl g a l.
Proof.
  revert a. induction l as [|x l IH]; intros a Hfg; simpl; [done|].
  rewrite Hfg by apply list_elem_of_here. apply IH.
  intros a' y Hy. apply Hfg. by apply list_elem_of_further.
Qed.

(** A loop that alters the entries [0], [1], ... in turn. *)
Lemma foldl_alter_seq {A} (h : nat → A → A) (l : list A) n :
  length (foldl (λ acc j, alter (h j) j acc) l (seq 0 n)) = length l ∧
  ∀ k, foldl (λ acc j, alter (h j) j acc) l (seq 0 n) !! k
       = if decide (k < n) then h k <$> l !! k else l !! k.
Proof.
  induction n as [|n [IHl IH]]; [done|].
  rewrite seq_S, foldl_app. simpl. rewrite length_alter.
  split; [done|]. intros k. rewrite list_lookup_alter, !IH.
  destruct (decide (n = k)) as [->|Hne].
  - rewrite decide_False, decide_True by lia. done.
  - destruct (decide (k < n)).
    + by rewrite decide_True by lia.
    + by rewrite decide_False by lia.
Qed.

Lemma omap_seq_prefix {A} (f : nat → option A) (g : nat → A) n m :
  m ≤ n → (∀ i, i < m → f i = Some (g i)) →
  (∀ i, m ≤ i < n → f i = None) →
  omap f (seq 0 n) = g <$> seq 0 m.
Proof.
  intros Hmn Hsome Hnone.
  replace n with (m + (n - m)) by lia.
  rewrite seq_app, omap_app.
  assert (omap f (seq (0 + m) (n - m)) = []) as ->.
  { assert (∀ l, Forall (λ i, f i = None) l → omap f l = []) as Hnil.
    { induction 1 as [|x l Hx _ IH]; [done|].
      cbn [omap list_omap]. by rewrite Hx. }
    apply Hnil, Forall_seq. intros i Hi. apply Hnone. lia. }
  rewrite app_nil_r.
  assert (∀ l, Forall (λ i, f i = Some (g i)) l → omap f l = g <$> l) as Hall.
  { induction 1 as [|x l Hx _ IH]; [done|].
    cbn [omap list_omap]. by rewrite Hx, IH. }
  apply Hall, Forall_seq. intros i Hi. apply Hsome. lia.
Qed.

Lemma build_P_idx_Ok pt :
  build_P_idx pt
  = Ok ((λ r, (λ c, c * pt + r + 1) <$> seq 0 pt) <$> seq 0 pt).
Proof.
  unfold build_P_idx, arange.
  rewrite reshape2_Ok by (rewrite length_seq, Nat.pow_2_r; lia).
  cbn [mbind result_bind]. f_equal.
  rewrite Nat.pow_2_r, chunks_seq.
  rewrite (list_fmap_ext _ (λ i, (λ c, i * pt + c) <$> seq 0 pt)).
  2:{ intros _ i _. simpl. apply seq_shift_fmap. }
  rewrite transpose_tabulate.
  2:{ destruct pt; [done|]. rewrite <-cons_seq. discriminate. }
  rewrite <-list_fmap_compose. apply list_fmap_ext. intros _ r _. simpl.
  rewrite <-list_fmap_compose. apply list_fmap_ext. intros _ c _. done.
Qed.

(** The diagonals of [idx]. *)
Lemma diagonal_idx pt offset :
  (- Z.of_nat pt < offset < Z.of_nat pt)%Z →
  (λ x, x - 1)
    <$> diagonal ((λ r, (λ c, c * pt + r + 1) <$> seq 0 pt) <$> seq 0 pt)
          offset
  = diag_cols pt offset.
Proof.
  intros Hoff. unfold diagonal, diag_cols.
  rewrite length_fmap, length_seq.
  assert (∀ r c, r < pt → c < pt →
    ((λ r, (λ c, c * pt + r + 1) <$> seq 0 pt) <$> seq 0 pt) !! r
      ≫= (λ row : list nat, row !! c) = Some (c * pt + r + 1)) as Hin.
  { intros r c Hr Hc. rewrite list_lookup_fmap, lookup_seq_lt by done.
    simpl. by rewrite list_lookup_fmap, lookup_seq_lt by done. }
  assert (∀ r c, pt ≤ r ∨ pt ≤ c →
    ((λ r, (λ c, c * pt + r + 1) <$> seq 0 pt) <$> seq 0 pt) !! r
      ≫= (λ row : list nat, row !! c) = None) as Hout.
  { intros r c Hrc. rewrite list_lookup_fmap.
    destruct (decide (r < pt)) as [Hr|Hr].
    - rewrite lookup_seq_lt by done. simpl.
      rewrite list_lookup_fmap, lookup_seq_ge; [done|lia].
    - rewrite lookup_seq_ge; [done|lia]. }
  destruct (decide (0 ≤ offset)%Z) as [Hpos|Hneg].
  - rewrite (omap_seq_prefix _
      (λ i, (i + Z.to_nat offset) * pt + i + 1) pt
      (pt - Z.to_nat (Z.abs offset))).
    + rewrite <-list_fmap_compose. apply list_fmap_ext.
      intros _ i _. simpl. lia.
    + lia.
    + intros i Hi. apply Hin; lia.
    + intros i Hi. apply Hout. lia.
  - rewrite (omap_seq_prefix _
      (λ i, i * pt + (i + Z.to_nat (- offset)) + 1) pt
      (pt - Z.to_nat (Z.abs offset))).
    + rewrite <-list_fmap_compose. apply list_fmap_ext.
      intros _ i _. simpl. lia.
    + lia.
    + intros i Hi. apply Hin; lia.
    + intros i Hi. apply Hout. lia.
Qed.

Section build_P_closed_form.
Context {F : Type} `{!Scalar F}.

(** [build_P(pt)] row by row: row [k] belongs to the diagonal offset
    [k - (pt - 1)]. *)
Lemma build_P_rows pt :
  1 ≤ pt →
  build_P (F := F) pt
  = Ok ((λ k, build_P_row pt (Z.of_nat k - (Z.of_nat pt - 1)))
        <$> seq 0 (2 * pt - 1)).
Proof.
  intros Hpt. unfold build_P, np_zeros.
  rewrite decide_False by lia. cbn [mbind result_bind].
  rewrite build_P_idx_Ok. cbn [mbind result_bind]. f_equal.
  unfold range, seqZ. rewrite foldl_fmap.
  replace (Z.to_nat (Z.of_nat pt - (- Z.of_nat pt + 1))) with (2 * pt - 1)
    by lia.
  set (h := λ (j : nat) (row : list F),
    foldl (λ row c,
        <[c := diag_weight pt (Z.of_nat j - (Z.of_nat pt - 1))]> row)
      row (diag_cols pt (Z.of_nat j - (Z.of_nat pt - 1)))).
  rewrite (foldl_ext_in _ (λ acc j, alter (h j) j acc)).
  2:{ intros acc j Hj%elem_of_seq_0. unfold set_entries, h.
      replace (Z.to_nat (Z.of_nat j + (- Z.of_nat pt + 1) + Z.of_nat pt - 1))
        with j by lia.
      replace (Z.of_nat j + (- Z.of_nat pt + 1))%Z
        with (Z.of_nat j - (Z.of_nat pt - 1))%Z by lia.
      by rewrite diagonal_idx by lia. }
  replace (Z.to_nat (2 * Z.of_nat pt - 1)) with (2 * pt - 1) by lia.
  replace (Z.to_nat (Z.of_nat pt ^ 2)) with (pt ^ 2)
    by (rewrite !Nat.pow_2_r, Z.pow_2_r; lia).
  apply list_eq. intros k.
  destruct (foldl_alter_seq h (full2 (2 * pt - 1) (pt ^ 2) fzero)
              (2 * pt - 1)) as [_ ->].
  rewrite list_lookup_fmap. unfold full2.
  destruct (decide (k < 2 * pt - 1)) as [Hk|Hk].
  - rewrite lookup_replicate_2, lookup_seq_lt by done. done.
  - rewrite lookup_ge_None_2 by (rewrite length_replicate; lia).
    by rewrite lookup_seq_ge by lia.
Qed.
End build_P_closed_form.

(* ------------------------------------------------------------------ *)
(** ** The diagonals of the index grid *)

Lemma length_diag_cols pt offset :
  length (diag_cols pt offset) = pt - Z.to_nat (Z.abs offset).
Proof. unfold diag_cols. by rewrite length_fmap, length_seq. Qed.

(** Column [c] lies on the diagonal [offset] exactly when the quotient
    and the remainder of [c] by [pt] differ by [offset]. *)
Lemma elem_of_diag_cols pt offset c :
  1 ≤ pt → (- Z.of_nat pt < offset < Z.of_nat pt)%Z →
  c ∈ diag_cols pt offset ↔ c < pt * pt ∧ offset_of pt c = offset.
Proof.
  intros Hpt Hoff. unfold diag_cols, offset_of.
  rewrite list_elem_of_fmap. split.
  - intros (i & -> & Hi%elem_of_seq_0).
    destruct (decide (0 ≤ offset)%Z) as [Hpos|Hneg].
    + assert ((i + Z.to_nat offset) * pt + i < pt * pt) by nia.
      split; [done|].
      rewrite <-(Nat.div_unique _ pt (i + Z.to_nat offset) i) by lia.
      rewrite <-(Nat.mod_unique _ pt (i + Z.to_nat offset) i) by lia.
      lia.
    + assert (i * pt + (i + Z.to_nat (- offset)) < pt * pt) by nia.
      split; [done|].
      rewrite <-(Nat.div_unique _ pt i (i + Z.to_nat (- offset))) by lia.
      rewrite <-(Nat.mod_unique _ pt i (i + Z.to_nat (- offset))) by lia.
      lia.
  - intros [Hc Hoffc].
    pose proof (Nat.div_mod_eq c pt) as Hdm.
    assert (c `mod` pt < pt) as Hy by (apply Nat.mod_upper_bound; lia).
    assert (c / pt < pt) as Hx
      by (apply Nat.Div0.div_lt_upper_bound; lia).
    destruct (decide (0 ≤ offset)%Z) as [Hpos|Hneg].
    + exists (c `mod` pt). rewrite elem_of_seq_0. split; [nia|lia].
    + exists (c / pt). rewrite elem_of_seq_0. split; [nia|lia].
Qed.

Lemma NoDup_diag_cols pt offset : 1 ≤ pt → NoDup (diag_cols pt offset).
Proof.
  intros Hpt. unfold diag_cols. apply NoDup_fmap_2_strong; [|apply NoDup_seq].
  intros i j _ _. destruct (decide (0 ≤ offset)%Z); nia.
Qed.

Lemma diag_cols_lt pt offset c :
  1 ≤ pt → (- Z.of_nat pt < offset < Z.of_nat pt)%Z →
  c ∈ diag_cols pt offset → c < pt ^ 2.
Proof.
  intros Hpt Hoff [Hc _]%elem_of_diag_cols; [|done..].
  by rewrite Nat.pow_2_r.
Qed.

(** Writing one value at a list of positions. *)
Lemma foldl_insert_lookup {A} (v : A) (cols : list nat) (row : list A) c :
  length (foldl (λ row c, <[c := v]> row) row cols) = length row ∧
  foldl (λ row c, <[c := v]> row) row cols !! c
  = if decide (c ∈ cols ∧ c < length row) then Some v else row !! c.
Proof.
  revert row. induction cols as [|x cols IH]; intros row; cbn [foldl].
  - split; [done|]. rewrite decide_False; [done|]. by intros [?%elem_of_nil _].
  - destruct (IH (<[x := v]> row)) as [-> ->].
    rewrite length_insert. split; [done|].
    destruct (decide (c ∈ cols ∧ c < length row)) as [[Hin Hlt]|Hn].
    + rewrite decide_True; [done|]. split; [by right|done].
    + destruct (decide (c = x)) as [->|Hne].
      * destruct (decide (x < length row)) as [Hlt|Hge].
        -- rewrite list_lookup_insert_eq by done.
           rewrite decide_True; [done|]. split; [by left|done].
        -- rewrite list_insert_ge by lia.
           rewrite decide_False; [done|]. intros [_ ?]. lia.
      * rewrite list_lookup_insert_ne by done.
        rewrite decide_False; [done|].
        intros [[?|?]%elem_of_cons Hlt]; [done|]. by apply Hn.
Qed.

Section build_P_entries.
Context {F : Type} `{!Scalar F}.

(** The entries of a row of [P]: the weight of the diagonal on its
    columns, zero elsewhere. *)
Lemma build_P_row_lookup pt offset c :
  1 ≤ pt → (- Z.of_nat pt < offset < Z.of_nat pt)%Z →
  length (build_P_row (F := F) pt offset) = pt ^ 2 ∧
  build_P_row (F := F) pt offset !! c
  = if decide (c < pt ^ 2)
    then Some (if decide (offset_of pt c = offset)
               then diag_weight pt offset else fzero)
    else None.
Proof.
  intros Hpt Hoff. unfold build_P_row.
  destruct (foldl_insert_lookup (diag_weight (F := F) pt offset)
              (diag_cols pt offset) (replicate (pt ^ 2) fzero) c)
    as [-> ->].
  rewrite length_replicate. split; [done|].
  destruct (decide (c < pt ^ 2)) as [Hc|Hc].
  - destruct (decide (offset_of pt c = offset)) as [Heq|Hne].
    + rewrite decide_True; [done|]. split; [|done].
      apply elem_of_diag_cols; [done..|]. by rewrite <-Nat.pow_2_r.
    + rewrite decide_False.
      * by rewrite lookup_replicate_2.
      * intros [[_ ?]%elem_of_diag_cols _]; done.
  - rewrite decide_False by (intros [_ ?]; lia).
    apply lookup_ge_None_2. rewrite length_replicate. lia.
Qed.

Lemma has_shape_build_P_rows pt :
  1 ≤ pt →
  has_shape ((λ k, build_P_row (F := F) pt (Z.of_nat k - (Z.of_nat pt - 1)))
             <$> seq 0 (2 * pt - 1)) (2 * pt - 1) (pt ^ 2).
Proof.
  intros Hpt. apply has_shape_intro.
  - by rewrite length_fmap, length_seq.
  - intros k row Hrow. rewrite list_lookup_fmap in Hrow.
    destruct (seq 0 (2 * pt - 1) !! k) as [k'|] eqn:Hk; [|done].
    apply lookup_seq in Hk as [-> Hk]. injection Hrow as <-.
    by destruct (build_P_row_lookup pt (Z.of_nat (0 + k) - (Z.of_nat pt - 1))
                   0 Hpt ltac:(lia)) as [? _].
Qed.
End build_P_entries.

(* ------------------------------------------------------------------ *)
(** ** Sums of reals *)

Lemma foldl_Rplus_shift (a : R) (l : list R) :
  foldl Rplus a l = (a + foldl Rplus 0 l)%R.
Proof.
  revert a. induction l as [|x l IH]; intros a; simpl; [lra|].
  rewrite (IH (a + x)%R), (IH (0 + x)%R). lra.
Qed.

Lemma fsum_R_cons (x : R) (l : list R) : fsum (x :: l) = (x + fsum l)%R.
Proof.
  unfold fsum. simpl. rewrite foldl_Rplus_shift. lra.
Qed.

Lemma fsum_R_app (l1 l2 : list R) : fsum (l1 ++ l2) = (fsum l1 + fsum l2)%R.
Proof.
  induction l1 as [|x l1 IH]; simpl.
  - unfold fsum at 2. simpl. lra.
  - rewrite !fsum_R_cons, IH. lra.
Qed.

Lemma fsum_R_zero (l : list R) : Forall (λ x, x = 0%R) l → fsum l = 0%R.
Proof.
  induction 1 as [|x l -> _ IH]; [done|]. rewrite fsum_R_cons, IH. lra.
Qed.

(** Overwriting a zero entry by [w] adds [w*w] to the sum of squares. *)
Lemma sum_squares_insert (row : list R) (c : nat) (w : R) :
  row !! c = Some 0%R →
  fsum ((λ x, x * x)%R <$> <[c := w]> row)
  = (fsum ((λ x, x * x)%R <$> row) + w * w)%R.
Proof.
  intros Hc.
  rewrite insert_take_drop by by eapply lookup_lt_Some.
  rewrite <-(take_drop_middle row c 0%R Hc) at 3.
  rewrite !fmap_app, !fmap_cons, !fsum_R_app, !fsum_R_cons. lra.
Qed.

Lemma sum_squares_foldl_insert (cols : list nat) (row : list R) (w : R) :
  NoDup cols → (∀ c, c ∈ cols → row !! c = Some 0%R) →
  fsum ((λ x, x * x)%R <$> foldl (λ row c, <[c := w]> row) row cols)
  = (fsum ((λ x, x * x)%R <$> row) + INR (length cols) * (w * w))%R.
Proof.
  intros Hnd. revert row.
  induction Hnd as [|x cols Hx Hnd IH]; intros row Hzero.
  - simpl. lra.
  - cbn [foldl]. rewrite IH.
    + rewrite sum_squares_insert by (apply Hzero; left).
      cbn [length]. rewrite S_INR. lra.
    + intros c Hc. rewrite list_lookup_insert_ne by (intros ->; done).
      apply Hzero. by right.
Qed.

(* ------------------------------------------------------------------ *)
(** ** The Toeplitz projector over the reals *)

Lemma diag_weight_R pt offset :
  diag_weight (F := R) pt offset
  = (1 / sqrt (IZR (Z.of_nat pt - Z.abs offset)))%R.
Proof. reflexivity. Qed.

Lemma diag_weight_R_square pt offset :
  (Z.abs offset < Z.of_nat pt)%Z →
  (INR (pt - Z.to_nat (Z.abs offset))
   * (diag_weight (F := R) pt offset * diag_weight (F := R) pt offset))%R
  = 1%R ∧
  diag_weight (F := R) pt offset ≠ 0%R.
Proof.
  intros Hoff. rewrite diag_weight_R, INR_IZR_INZ.
  replace (Z.of_nat (pt - Z.to_nat (Z.abs offset)))
    with (Z.of_nat pt - Z.abs offset)%Z by lia.
  set (x := IZR (Z.of_nat pt - Z.abs offset)).
  assert (0 < x)%R as Hx by (apply (IZR_lt 0); lia).
  pose proof (sqrt_lt_R0 x Hx) as Hs.
  pose proof (sqrt_sqrt x ltac:(lra)) as Hss.
  split.
  - transitivity (x / (sqrt x * sqrt x))%R; [field; lra|].
    rewrite Hss. field. lra.
  - intros H0. apply (Rmult_eq_compat_r (sqrt x)) in H0.
    unfold Rdiv in H0. rewrite Rmult_assoc, Rinv_l in H0; lra.
Qed.

(** Every row of [P] has a sum of squares equal to 1. *)
Lemma build_P_row_sum_squares pt offset :
  1 ≤ pt → (- Z.of_nat pt < offset < Z.of_nat pt)%Z →
  fsum ((λ x, x * x)%R <$> build_P_row (F := R) pt offset) = 1%R.
Proof.
  intros Hpt Hoff. unfold build_P_row.
  rewrite sum_squares_foldl_insert.
  - rewrite length_diag_cols.
    destruct (diag_weight_R_square pt offset) as [-> _]; [lia|].
    rewrite (fsum_R_zero ((λ x, x * x)%R <$> replicate (pt ^ 2) fzero)); [lra|].
    apply Forall_fmap, Forall_replicate. simpl. lra.
  - by apply NoDup_diag_cols.
  - intros c Hc%diag_cols_lt; [|done..]. by apply lookup_replicate_2.
Qed.

Lemma build_P_R_lookup pt offset :
  1 ≤ pt → (- (Z.of_nat pt - 1) ≤ offset ≤ Z.of_nat pt - 1)%Z →
  ((λ k, build_P_row (F := R) pt (Z.of_nat k - (Z.of_nat pt - 1)))
     <$> seq 0 (2 * pt - 1)) !! Z.to_nat (offset + Z.of_nat pt - 1)
  = Some (build_P_row pt offset).
Proof.
  intros Hpt Hoff. rewrite list_lookup_fmap, lookup_seq_lt by lia.
  simpl. do 2 f_equal. lia.
Qed.

(** C7.  For [pt >= 1], [build_P(pt)] has shape [(2*pt - 1, pt^2)].
    The index grid [idx] is the transposed grid of [1 .. pt^2]: its
    entry in row [r] and column [c] is [c*pt + r + 1].  For each offset
    from [-(pt-1)] to [pt-1], the linear indices [diag_idx - 1] of the
    offset-th diagonal of [idx] are the [pt - |offset|] distinct
    columns [(i + offset)*pt + i] (for an offset that is not negative)
    or [i*pt + (i - offset)] (for a negative one), [i = 0, 1, ...]:
    the columns [c] with [c div pt - c mod pt = offset].  Row
    [offset + pt - 1] holds [1/sqrt(pt - |offset|)], which is not zero,
    at these columns and zero at every other column; so the sum of the
    squares of the row, and with it its l2 norm, is 1. *)
Theorem build_P_spec (pt : nat) :
  1 ≤ pt →
  ∃ (P : matrix R) (idx : matrix nat),
    build_P pt = Ok P ∧ build_P_idx pt = Ok idx ∧
    has_shape P (2 * pt - 1) (pt ^ 2) ∧
    has_shape idx pt pt ∧
    (∀ r c, r < pt → c < pt →
       idx !! r ≫= (λ row : list nat, row !! c) = Some (c * pt + r + 1)) ∧
    ∀ offset : Z, (- (Z.of_nat pt - 1) ≤ offset ≤ Z.of_nat pt - 1)%Z →
      let cols := (λ x, x - 1) <$> diagonal idx offset in
      let w := (1 / sqrt (IZR (Z.of_nat pt - Z.abs offset)))%R in
      ∃ row,
        P !! Z.to_nat (offset + Z.of_nat pt - 1) = Some row ∧
        cols = (λ i, if decide (0 ≤ offset)%Z
                     then (i + Z.to_nat offset) * pt + i
                     else i * pt + (i + Z.to_nat (- offset)))
               <$> seq 0 (pt - Z.to_nat (Z.abs offset)) ∧
        length cols = Z.to_nat (Z.of_nat pt - Z.abs offset) ∧
        NoDup cols ∧
        (∀ c, c ∈ cols → c < pt ^ 2) ∧
        (∀ c, c < pt ^ 2 →
           c ∈ cols ↔
           (Z.of_nat (c / pt) - Z.of_nat (c `mod` pt))%Z = offset) ∧
        (∀ c, c < pt ^ 2 →
           row !! c = Some (if decide (c ∈ cols) then w else 0%R)) ∧
        (∀ c, c < pt ^ 2 →
           row !! c
           = Some (if decide ((Z.of_nat (c / pt) - Z.of_nat (c `mod` pt))%Z
                              = offset)
                   then w else 0%R)) ∧
        w ≠ 0%R ∧
        fsum ((λ x, x * x)%R <$> row) = 1%R ∧
        sqrt (fsum ((λ x, x * x)%R <$> row)) = 1%R.
Proof.
  intros Hpt. eexists _, _.
  split; [by apply build_P_rows|]. split; [apply build_P_idx_Ok|].
  split; [by apply has_shape_build_P_rows|].
  split.
  { apply has_shape_intro; [by rewrite length_fmap, length_seq|].
    intros r row. rewrite list_lookup_fmap.
    destruct (seq 0 pt !! r); [|done]. intros [= <-].
    by rewrite length_fmap, length_seq. }
  split.
  { intros r c Hr Hc. rewrite list_lookup_fmap, lookup_seq_lt by done.
    simpl. by rewrite list_lookup_fmap, lookup_seq_lt by done. }
  intros offset Hoff cols w. unfold cols. rewrite diagonal_idx by lia.
  assert (∀ c, c < pt ^ 2 →
            c ∈ diag_cols pt offset ↔
            (Z.of_nat (c / pt) - Z.of_nat (c `mod` pt))%Z = offset) as Hmem.
  { intros c Hc. rewrite elem_of_diag_cols by (done || lia).
    unfold offset_of. rewrite <-Nat.pow_2_r. tauto. }
  assert (∀ c, c < pt ^ 2 →
            build_P_row (F := R) pt offset !! c
            = Some (if decide ((Z.of_nat (c / pt)
                                - Z.of_nat (c `mod` pt))%Z = offset)
                    then w else 0%R)) as Hrow.
  { intros c Hc.
    destruct (build_P_row_lookup (F := R) pt offset c Hpt ltac:(lia))
      as [_ ->].
    rewrite decide_True by done. by rewrite diag_weight_R. }
  exists (build_P_row pt offset).
  split; [by apply build_P_R_lookup|].
  split; [done|].
  split; [rewrite length_diag_cols; lia|].
  split; [by apply NoDup_diag_cols|].
  split; [intros c Hc; apply (diag_cols_lt pt offset); [done|lia|done]|].
  split; [done|].
  split.
  { intros c Hc. rewrite (Hrow c Hc). f_equal.
    destruct (decide (_ = offset)) as [Heq|Hne].
    - by rewrite decide_True by by apply Hmem.
    - rewrite decide_False; [done|]. intros Hin. by apply Hne, Hmem. }
  split; [done|].
  split.
  { unfold w. rewrite <-diag_weight_R.
    apply diag_weight_R_square. lia. }
  rewrite build_P_row_sum_squares by (done || lia).
  split; [done|apply sqrt_1].
Qed.

(** The projector for [pt = 2]. *)
Lemma build_P_spec_witness :
  1 ≤ 2 ∧
  ∃ (P : matrix R) (idx : matrix nat),
    build_P 2 = Ok P ∧ build_P_idx 2 = Ok idx ∧
    has_shape P (2 * 2 - 1) (2 ^ 2) ∧
    has_shape idx 2 2 ∧
    (∀ r c, r < 2 → c < 2 →
       idx !! r ≫= (λ row : list nat, row !! c) = Some (c * 2 + r + 1)) ∧
    ∀ offset : Z, (- (Z.of_nat 2 - 1) ≤ offset ≤ Z.of_nat 2 - 1)%Z →
      let cols := (λ x, x - 1) <$> diagonal idx offset in
      let w := (1 / sqrt (IZR (Z.of_nat 2 - Z.abs offset)))%R in
      ∃ row,
        P !! Z.to_nat (offset + Z.of_nat 2 - 1) = Some row ∧
        cols = (λ i, if decide (0 ≤ offset)%Z
                     then (i + Z.to_nat offset) * 2 + i
                     else i * 2 + (i + Z.to_nat (- offset)))
               <$> seq 0 (2 - Z.to_nat (Z.abs offset)) ∧
        length cols = Z.to_nat (Z.of_nat 2 - Z.abs offset) ∧
        NoDup cols ∧
        (∀ c, c ∈ cols → c < 2 ^ 2) ∧
        (∀ c, c < 2 ^ 2 →
           c ∈ cols ↔
           (Z.of_nat (c / 2) - Z.of_nat (c `mod` 2))%Z = offset) ∧
        (∀ c, c < 2 ^ 2 →
           row !! c = Some (if decide (c ∈ cols) then w else 0%R)) ∧
        (∀ c, c < 2 ^ 2 →
           row !! c
           = Some (if decide ((Z.of_nat (c / 2) - Z.of_nat (c `mod` 2))%Z
                              = offset)
                   then w else 0%R)) ∧
        w ≠ 0%R ∧
        fsum ((λ x, x * x)%R <$> row) = 1%R ∧
        sqrt (fsum ((λ x, x * x)%R <$> row)) = 1%R.
Proof. split; [lia|]. apply (build_P_spec 2). lia. Defined.

Example build_P_idx_3 :
  build_P_idx 3 = Ok [[1; 4; 7]; [2; 5; 8]; [3; 6; 9]] ∧
  diagonal [[1; 4; 7]; [2; 5; 8]; [3; 6; 9]] 1 = [4; 8] ∧
  diagonal [[1; 4; 7]; [2; 5; 8]; [3; 6; 9]] (-2) = [3].
Proof. split_and!; vm_compute; reflexivity. Qed.

(* ------------------------------------------------------------------ *)
(** ** The rows of the projector are orthonormal *)

Lemma eye_tabulate {F} `{!Scalar F} n :
  eye (F := F) n
  = (λ a, (λ b, if decide (a = b) then fone else fzero) <$> seq 0 n)
    <$> seq 0 n.
Proof.
  unfold eye, np_diag. rewrite length_replicate.
  apply list_eq. intros a. rewrite list_lookup_imap, list_lookup_fmap.
  destruct (decide (a < n)) as [Ha|Ha].
  - rewrite lookup_replicate_2, lookup_seq_lt by done. simpl. f_equal.
    apply list_eq. intros b. rewrite list_lookup_fmap.
    destruct (decide (b < n)) as [Hb|Hb].
    + rewrite lookup_seq_lt by done. simpl.
      destruct (decide (a = b)) as [->|Hne].
      * by rewrite list_lookup_insert_eq by (rewrite length_replicate; lia).
      * rewrite list_lookup_insert_ne by done. by apply lookup_replicate_2.
    + rewrite lookup_seq_ge by lia.
      apply lookup_ge_None_2. rewrite length_insert, length_replicate. lia.
  - rewrite lookup_seq_ge by lia.
    by rewrite lookup_ge_None_2 by (rewrite length_replicate; lia).
Qed.

Lemma offset_of_range pt c :
  1 ≤ pt → c < pt * pt →
  (- Z.of_nat pt < offset_of pt c < Z.of_nat pt)%Z.
Proof.
  intros Hpt Hc. unfold offset_of.
  assert (c `mod` pt < pt) by (apply Nat.mod_upper_bound; lia).
  assert (c / pt < pt) by (apply Nat.Div0.div_lt_upper_bound; lia).
  lia.
Qed.

(** Two rows of [P]: their product is 1 when they are the same row and
    0 otherwise, because no column lies on two diagonals. *)
Lemma build_P_row_dot pt o1 o2 :
  1 ≤ pt → (- Z.of_nat pt < o1 < Z.of_nat pt)%Z →
  (- Z.of_nat pt < o2 < Z.of_nat pt)%Z →
  fsum (zip_with Rmult (build_P_row (F := R) pt o1) (build_P_row pt o2))
  = if decide (o1 = o2) then 1%R else 0%R.
Proof.
  intros Hpt Ho1 Ho2. destruct (decide (o1 = o2)) as [->|Hne].
  - rewrite zip_with_diag. by apply build_P_row_sum_squares.
  - apply fsum_R_zero, Forall_lookup. intros c z Hz.
    apply lookup_zip_with_Some in Hz as (x & y & -> & Hx & Hy).
    destruct (build_P_row_lookup (F := R) pt o1 c Hpt Ho1) as [_ Hx'].
    destruct (build_P_row_lookup (F := R) pt o2 c Hpt Ho2) as [_ Hy'].
    rewrite Hx in Hx'. rewrite Hy in Hy'.
    destruct (decide (c < pt ^ 2)); [|done].
    injection Hx' as ->. injection Hy' as ->.
    destruct (decide (offset_of pt c = o1)), (decide (offset_of pt c = o2));
      simpl; try lra. congruence.
Qed.

(** C10.  For [pt >= 1] every column of [build_P(pt)] has exactly one
    nonzero entry, so the rows have pairwise disjoint supports, and
    [P * P^T] is the identity matrix of dimension [2*pt - 1]. *)
Theorem build_P_orthonormal (pt : nat) :
  1 ≤ pt →
  ∃ P : matrix R,
    build_P pt = Ok P ∧
    (∀ c, c < pt ^ 2 →
       ∃ k, k < 2 * pt - 1 ∧
            ∀ k' row, P !! k' = Some row →
              ∃ x, row !! c = Some x ∧ (x ≠ 0%R ↔ k' = k)) ∧
    dot P (transpose P) = eye (2 * pt - 1).
Proof.
  intros Hpt. eexists. split; [by apply build_P_rows|].
  pose proof (has_shape_build_P_rows (F := R) pt Hpt) as Hshape.
  set (P := (λ k, build_P_row (F := R) pt (Z.of_nat k - (Z.of_nat pt - 1)))
            <$> seq 0 (2 * pt - 1)) in *.
  assert (0 < pt ^ 2) as Hsq by (rewrite Nat.pow_2_r; nia).
  split.
  - intros c Hc.
    pose proof (offset_of_range pt c Hpt) as Hrange.
    rewrite <-Nat.pow_2_r in Hrange. specialize (Hrange Hc).
    exists (Z.to_nat (offset_of pt c + Z.of_nat pt - 1)).
    split; [lia|]. intros k' row Hrow.
    assert (k' < 2 * pt - 1) as Hk.
    { apply lookup_lt_Some in Hrow. by destruct Hshape as [<- _]. }
    unfold P in Hrow.
    rewrite list_lookup_fmap, lookup_seq_lt in Hrow by done.
    cbn [fmap option_fmap option_map Nat.add] in Hrow. injection Hrow as <-.
    destruct (build_P_row_lookup (F := R) pt
                (Z.of_nat k' - (Z.of_nat pt - 1)) c Hpt ltac:(lia))
      as [_ ->].
    rewrite decide_True by done. eexists. split; [done|].
    destruct (decide (offset_of pt c = _)) as [Heq|Hne].
    + split; [intros _; lia|]. intros _.
      apply diag_weight_R_square. lia.
    + split; [done|]. intros ->. lia.
  - unfold dot.
    rewrite (transpose_involutive P (2 * pt - 1) (pt ^ 2)) by (done || lia).
    rewrite eye_tabulate. unfold P.
    rewrite <-list_fmap_compose. apply list_fmap_ext.
    intros a ? [-> Ha]%lookup_seq. simpl.
    rewrite <-list_fmap_compose. apply list_fmap_ext.
    intros b ? [-> Hb]%lookup_seq. simpl.
    rewrite build_P_row_dot by lia.
    destruct (decide (a = b)) as [->|Hne].
    + by rewrite decide_True.
    + rewrite decide_False; [done|lia].
Qed.

(** The projector for [pt = 2] is orthonormal. *)
Lemma build_P_orthonormal_witness :
  1 ≤ 2 ∧
  ∃ P : matrix R,
    build_P 2 = Ok P ∧
    (∀ c, c < 2 ^ 2 →
       ∃ k, k < 2 * 2 - 1 ∧
            ∀ k' row, P !! k' = Some row →
              ∃ x, row !! c = Some x ∧ (x ≠ 0%R ↔ k' = k)) ∧
    dot P (transpose P) = eye (2 * 2 - 1).
Proof. split; [lia|]. apply (build_P_orthonormal 2). lia. Defined.

(* ------------------------------------------------------------------ *)
(** ** The Toeplitz-constrained solver returns *)

(** A loop with [break] over [range(n)] whose body cannot fail and
    keeps an invariant indexed by the number of iterations made. *)
Lemma for_break_invariant {St} (body : St → nat → result (ctl St))
    (I : nat → St → Prop) a n s :
  I a s →
  (∀ k s, a ≤ k < a + n → I k s →
     ∃ s', (body s k = Ok (Continue s') ∨ body s k = Ok (Break s')) ∧
           I (1 + k) s') →
  ∃ s' k', for_break body s (seq a n) = Ok s' ∧ I k' s' ∧
           a ≤ k' ∧ (0 < n → a < k').
Proof.
  revert a s. induction n as [|n IH]; intros a s Hs Hbody.
  - exists s, a. split; [done|]. split; [done|lia].
  - cbn [seq for_break].
    destruct (Hbody a s ltac:(lia) Hs) as (s1 & [-> | ->] & Hs1);
      cbn [mbind result_bind].
    + destruct (IH (1 + a) s1 Hs1) as (s2 & k2 & Hloop & Hs2 & Hk2 & _).
      { intros k s' Hk. apply Hbody. lia. }
      exists s2, k2. split; [done|]. split; [done|lia].
    + exists s1, (1 + a). split; [done|]. split; [done|lia].
Qed.

Ltac unfold_toeplitz_inv :=
  unfold toeplitz_inv;
  cbn [st_M_tilde_prev st_S_tilde_prev st_L_tilde_prev st_S_tilde
       st_L_tilde st_cov_est st_cov_est_prev].

Section toeplitz_facts.
Context {F : Type} `{!Scalar F} `{!Backend F}.
Implicit Types (M L S P R : matrix F).

Lemma update_S_tilde_Ok pt tau lambda_S M L S n :
  1 ≤ pt →
  has_shape M (2 * pt - 1) n → has_shape L (2 * pt - 1) n →
  has_shape S (2 * pt - 1) n →
  ∃ S', update_S_tilde pt tau lambda_S M L S = Ok S' ∧
        has_shape S' (2 * pt - 1) n.
Proof.
  intros Hpt HM HL HS. unfold update_S_tilde.
  apply (for_each_invariant _ (λ S, has_shape S (2 * pt - 1) n)); [done|].
  intros S0 j Hj HS0. unfold range in Hj. apply elem_of_seqZ in Hj.
  set (r := Z.to_nat (j + Z.of_nat pt - 1)).
  assert (r < 2 * pt - 1) as Hr by lia.
  destruct (lookup_lt_is_Some_2 M r) as [m Hm]; [destruct HM; lia|].
  destruct (lookup_lt_is_Some_2 L r) as [l Hl]; [destruct HL; lia|].
  rewrite Hm, Hl. cbn [or_raise mbind result_bind].
  rewrite decide_True by (destruct HS0; lia).
  eexists. split; [done|]. destruct HS0 as [HSr HSc]. unfold set_row.
  split; [by rewrite length_insert|].
  apply Forall_insert; [done|].
  unfold soft_entrywise_threshold_row, vsub.
  rewrite length_fmap, length_zip_with.
  rewrite (has_shape_rows M _ n r m), (has_shape_rows L _ n r l) by done.
  lia.
Qed.

(** One iteration neither fails nor breaks the invariant, whether it
    continues or leaves the loop. *)
Lemma toeplitz_iteration_inv P R_tilde ps pt lambda_L lambda_S tau tol
    stop_cond_interval st k :
  1 ≤ ps → 1 ≤ pt → 1 ≤ stop_cond_interval →
  svd_shapes (2 * pt - 1) (ps ^ 2) →
  has_shape P (2 * pt - 1) (pt ^ 2) →
  has_shape R_tilde (2 * pt - 1) (ps ^ 2) →
  toeplitz_inv (2 * pt - 1) (ps ^ 2) k st →
  ∃ st',
    (toeplitz_iteration P R_tilde ps pt lambda_L lambda_S tau tol
       stop_cond_interval st k = Ok (Continue st') ∨
     toeplitz_iteration P R_tilde ps pt lambda_L lambda_S tau tol
       stop_cond_interval st k = Ok (Break st')) ∧
    toeplitz_inv (2 * pt - 1) (ps ^ 2) (1 + k) st'.
Proof.
  intros Hps Hpt Hint Hsvd HP HR (HM & HSp & HLp & HS & Hbound).
  assert (0 < 2 * pt - 1 ∧ 0 < ps ^ 2 ∧ 0 < pt ^ 2) as (Hm & Hn & Hq)
    by (rewrite !Nat.pow_2_r; nia).
  unfold toeplitz_iteration.
  set (L_tilde := soft_sv_threshold _ _).
  assert (has_shape L_tilde (2 * pt - 1) (ps ^ 2)) as HL
    by (apply has_shape_soft_sv_threshold; auto using has_shape_msub).
  destruct (update_S_tilde_Ok pt tau lambda_S _ _ _ _ Hpt HM HLp HS)
    as (S_tilde & -> & HS').
  cbn [mbind result_bind].
  set (M_tilde := msub _ _).
  assert (has_shape M_tilde (2 * pt - 1) (ps ^ 2)) as HM'
    by (unfold M_tilde;
        auto 10 using has_shape_msub, has_shape_madd, has_shape_mscale).
  rewrite decide_False by lia.
  destruct (decide (k `mod` stop_cond_interval = 0)) as [Hmod|Hmod].
  - destruct (pv_rearrange_inv_Ok
                (dot (transpose P) (madd L_tilde S_tilde)) ps pt)
      as (cov & -> & _).
    { rewrite (size_has_shape _ (pt ^ 2) (ps ^ 2)).
      - rewrite !Nat.pow_2_r. lia.
      - apply (has_shape_dot _ _ _ (2 * pt - 1)); [|by apply has_shape_madd|done].
        by apply has_shape_transpose. }
    cbn [mbind result_bind].
    destruct (decide (0 < k)) as [Hk|Hk].
    + destruct (Hbound Hk) as (_ & _ & [prev Hprev]).
      cbn [st_cov_est_prev]. rewrite Hprev. cbn [or_raise mbind result_bind].
      destruct (fltb _ tol); eexists; (split; [by (left + right)|]);
        unfold_toeplitz_inv; rewrite ?Hprev; eauto 10.
    + eexists. split; [by left|]. unfold_toeplitz_inv. eauto 10.
  - assert (0 < k) as Hk by (destruct k; [by rewrite Nat.Div0.mod_0_l in Hmod|lia]).
    destruct (Hbound Hk) as (_ & Hc & Hcp).
    eexists. split; [by left|]. unfold_toeplitz_inv. eauto 10.
Qed.

(** For positive dimensions, an input of the right size and at least
    one iteration, the solver returns, whatever the relation between
    the iteration cap and the interval of the convergence check. *)
Lemma prox_grad_robust_toeplitz_kron_pca_Ok (sample_cov : matrix F) ps pt
    lambda_L lambda_S tau tol max_iter stop_cond_interval :
  1 ≤ ps → 1 ≤ pt →
  ps * pt * (ps * pt) ≤ size sample_cov →
  svd_shapes (2 * pt - 1) (ps ^ 2) →
  1 ≤ max_iter → 1 ≤ stop_cond_interval →
  is_Ok (prox_grad_robust_toeplitz_kron_pca sample_cov ps pt lambda_L
           lambda_S tau tol max_iter stop_cond_interval).
Proof.
  intros Hps Hpt Hsize Hsvd Hiter Hint.
  unfold prox_grad_robust_toeplitz_kron_pca.
  rewrite build_P_rows by done. cbn [mbind result_bind].
  pose proof (has_shape_build_P_rows (F := F) pt Hpt) as HP.
  set (P := (λ k, build_P_row pt (Z.of_nat k - (Z.of_nat pt - 1)))
            <$> seq 0 (2 * pt - 1)) in *.
  destruct (pv_rearrange_Ok sample_cov ps pt Hsize) as (R & -> & HR & _).
  cbn [mbind result_bind].
  assert (0 < pt ^ 2) as Hq by (rewrite Nat.pow_2_r; nia).
  assert (has_shape (dot P R) (2 * pt - 1) (ps ^ 2)) as HRt
    by by apply (has_shape_dot _ _ _ (pt ^ 2)).
  destruct (for_break_invariant
              (toeplitz_iteration P (dot P R) ps pt lambda_L lambda_S tau tol
                 stop_cond_interval)
              (toeplitz_inv (2 * pt - 1) (ps ^ 2)) 0 max_iter
              (ToeplitzState (madd (dot P R) (zeros_like (dot P R)))
                 (zeros_like (dot P R)) (dot P R) (zeros_like (dot P R))
                 None None None))
    as (st & k & -> & Hinv & _ & Hk).
  { unfold_toeplitz_inv.
    split_and!; auto using has_shape_madd, has_shape_zeros_like.
    intros ?. lia. }
  { intros k st _ Hinv. by apply toeplitz_iteration_inv. }
  cbn [mbind result_bind].
  destruct Hinv as (_ & _ & _ & _ & Hbound).
  destruct (Hbound (Hk ltac:(lia))) as ([L ->] & [cov ->] & _).
  cbn [or_raise mbind result_bind]. by eexists.
Qed.

End toeplitz_facts.

(** An iteration cap of 1 with a check interval of 20 is not rejected:
    the solver runs its single iteration and returns. *)
Lemma iteration_cap_below_interval_is_accepted :
  1 < 20 ∧
  @prox_grad_robust_toeplitz_kron_pca Q Q_scalar Q_backend [[1%Q]] 1 1
    0%Q 0%Q (1 # 10)%Q (1 # 100000000)%Q 1 20 = Ok ([[1%Q]], 1, 0%Q).
Proof. split; [lia|vm_compute; reflexivity]. Qed.

(* ================================================================== *)
(** * Further properties of the layout transform *)
(* ================================================================== *)

Lemma NoDup_pv_perm ps pt : NoDup (pv_perm ps pt).
Proof. rewrite pv_perm_Permutation. apply NoDup_seq. Qed.

(** X1.  [pv_permutation(ps, pt)] never fails; [perm] lists every index
    below [ps^2 * pt^2] exactly once, [perm_inv] has the same length,
    and the two are inverse to each other in both directions:
    [perm[perm_inv[k]] == k] and [perm_inv[perm[i]] == i]. *)
Theorem pv_permutation_bijection (ps pt : nat) :
  ∃ perm perm_inv,
    pv_permutation ps pt = Ok (perm, perm_inv) ∧
    perm ≡ₚ seq 0 (ps ^ 2 * pt ^ 2) ∧
    length perm_inv = ps ^ 2 * pt ^ 2 ∧
    (∀ k, k < ps ^ 2 * pt ^ 2 →
       ∃ i, perm_inv !! k = Some i ∧ perm !! i = Some k) ∧
    (∀ i, i < ps ^ 2 * pt ^ 2 →
       ∃ k, perm !! i = Some k ∧ perm_inv !! k = Some i).
Proof.
  exists (pv_perm ps pt), (argsort (pv_perm ps pt)).
  split; [apply pv_permutation_Ok|]. split; [apply pv_perm_Permutation|].
  assert (length (pv_perm ps pt) = ps ^ 2 * pt ^ 2) as Hlen
    by (rewrite length_pv_perm, !Nat.pow_2_r; lia).
  destruct (argsort_inverse (pv_perm ps pt)) as [Hl Hinv].
  { rewrite Hlen. apply pv_perm_Permutation. }
  rewrite Hlen in Hl, Hinv. split; [done|]. split; [done|].
  intros i Hi.
  destruct (lookup_lt_is_Some_2 (pv_perm ps pt) i) as [k Hk]; [lia|].
  exists k. split; [done|].
  assert (k < ps ^ 2 * pt ^ 2) as Hklt.
  { pose proof (pv_perm_lt ps pt) as Hlt. rewrite Forall_lookup in Hlt.
    specialize (Hlt i k Hk). simpl in Hlt. rewrite !Nat.pow_2_r. lia. }
  destruct (Hinv k Hklt) as (i' & Hi' & Hpi). rewrite Hi'. f_equal.
  pose proof (NoDup_pv_perm ps pt) as Hnd. rewrite NoDup_alt in Hnd.
  by apply (Hnd i' i k).
Qed.

(** Gathering through the [argsort] of a permutation and then through
    the permutation restores the buffer. *)
Lemma take_idx_argsort_rev {A} (x : list A) (perm : list nat) :
  perm ≡ₚ seq 0 (length x) →
  ∃ y, take_idx x (argsort perm) = Ok y ∧ length y = length x ∧
       take_idx y perm = Ok x.
Proof.
  intros Hperm.
  assert (length perm = length x) as Hlen by (by rewrite Hperm, length_seq).
  destruct (argsort_inverse perm) as [Hli Hinv]; [by rewrite Hlen|].
  destruct (take_idx_Ok x (argsort perm)) as (y & Hy & Hly & Hyx).
  { apply Forall_lookup. intros k i Hk.
    destruct (Hinv k) as (i' & Hi' & Hpi).
    { apply lookup_lt_Some in Hk. lia. }
    assert (i' = i) as -> by congruence.
    apply lookup_lt_Some in Hpi. lia. }
  exists y. split; [done|]. split; [lia|].
  destruct (take_idx_Ok y perm) as (z & Hz & Hlz & Hzy).
  { rewrite Hperm. apply Forall_seq. lia. }
  rewrite Hz. f_equal. apply list_eq. intros i.
  destruct (decide (i < length x)) as [Hi|Hi].
  - destruct (lookup_lt_is_Some_2 perm i) as [k Hk]; [lia|].
    rewrite (Hzy i k Hk).
    assert (k < length perm) as Hklt.
    { assert (k ∈ seq 0 (length x)) as Hin
        by (rewrite <-Hperm; by eapply list_elem_of_lookup_2).
      apply elem_of_seq in Hin. lia. }
    destruct (Hinv k Hklt) as (i' & Hi' & Hpi).
    rewrite (Hyx k i' Hi').
    assert (NoDup perm) as Hnd by (rewrite Hperm; apply NoDup_seq).
    rewrite NoDup_alt in Hnd. by rewrite (Hnd i' i k Hpi Hk).
  - rewrite !lookup_ge_None_2; [done|lia..].
Qed.

(** X2.  The round trip in the other order:
    [pv_rearrange(pv_rearrange_inv(M, ps, pt), ps, pt)] returns [M] for
    every array [M] of shape [(pt^2, ps^2)]. *)
Theorem pv_rearrange_inv_round_trip {A} (M : matrix A) (ps pt : nat) :
  has_shape M (pt ^ 2) (ps ^ 2) →
  ∃ C, pv_rearrange_inv M ps pt = Ok C ∧
       has_shape C (ps * pt) (ps * pt) ∧
       pv_rearrange C ps pt = Ok M.
Proof.
  intros HM. unfold pv_rearrange, pv_rearrange_inv.
  rewrite pv_permutation_Ok. cbn [mbind result_bind].
  pose proof (length_ravel M _ _ HM) as Hx.
  destruct (take_idx_argsort_rev (ravel M) (pv_perm ps pt))
    as (y & Hy & Hly & Hinv).
  { rewrite pv_perm_Permutation, Hx. f_equiv. lia. }
  assert (length y = ps * pt * (ps * pt)) as Hly'
    by (rewrite Hly, Hx, !Nat.pow_2_r; lia).
  exists (chunks (ps * pt) (ps * pt) y).
  rewrite Hy. cbn [mbind result_bind].
  split; [by apply reshape2_Ok|]. split; [by apply chunks_has_shape|].
  unfold ravel at 1. rewrite concat_chunks, Hinv by done.
  cbn [mbind result_bind]. by apply reshape2_ravel.
Qed.

Lemma pv_rearrange_inv_round_trip_witness :
  has_shape [[1; 5; 2; 6]; [3; 7; 4; 8]; [9; 13; 10; 14]; [11; 15; 12; 16]]
    (2 ^ 2) (2 ^ 2) ∧
  ∃ C, pv_rearrange_inv
         [[1; 5; 2; 6]; [3; 7; 4; 8]; [9; 13; 10; 14]; [11; 15; 12; 16]] 2 2
       = Ok C ∧
       has_shape C (2 * 2) (2 * 2) ∧
       pv_rearrange C 2 2
       = Ok [[1; 5; 2; 6]; [3; 7; 4; 8]; [9; 13; 10; 14]; [11; 15; 12; 16]].
Proof.
  assert (has_shape
            [[1; 5; 2; 6]; [3; 7; 4; 8]; [9; 13; 10; 14]; [11; 15; 12; 16]]
            (2 ^ 2) (2 ^ 2)) as Hshape
    by (split; [reflexivity|repeat constructor]).
  split; [exact Hshape|].
  exact (pv_rearrange_inv_round_trip _ 2 2 Hshape).
Defined.

(** Positions in an enumeration whose inner lists all have length [c]. *)
Lemma lookup_bind_uniform {A B} (f : A → list B) (l : list A) c x y a :
  (∀ z, z ∈ l → length (f z) = c) →
  l !! x = Some a → y < c →
  (l ≫= f) !! (x * c + y) = f a !! y.
Proof.
  revert x. induction l as [|z l IH]; intros x Hlen Hx Hy; [done|].
  rewrite bind_cons. destruct x as [|x]; simpl in Hx.
  - injection Hx as ->. rewrite lookup_app_l; [done|].
    rewrite Hlen by apply list_elem_of_here. lia.
  - rewrite lookup_app_r by (rewrite Hlen by apply list_elem_of_here; lia).
    rewrite Hlen by apply list_elem_of_here.
    replace (S x * c + y - c) with (x * c + y) by lia.
    apply IH; [|done..]. intros w Hw. apply Hlen. by right.
Qed.

(** Entry [(i, j)] of an array sits at position [i*c + j] of its
    flattening. *)
Lemma lookup_ravel {A} (M : matrix A) r c i j :
  has_shape M r c → i < r → j < c →
  ravel M !! (i * c + j) = M !! i ≫= (λ row : list A, row !! j).
Proof.
  intros HM Hi Hj. unfold ravel.
  rewrite <-(list_fmap_id M) at 1. rewrite concat_fmap_bind.
  destruct (lookup_lt_is_Some_2 M i) as [row Hrow]; [destruct HM; lia|].
  rewrite (lookup_bind_uniform _ M c i j row); [by rewrite Hrow| |done..].
  intros z [k Hz]%list_elem_of_lookup_1. by eapply has_shape_rows.
Qed.

Lemma pv_perm_lookup ps pt i j a b :
  i < pt → j < pt → a < ps → b < ps →
  pv_perm ps pt !! (i * (pt * (ps * ps)) + (j * (ps * ps) + (a * ps + b)))
  = Some ((i * ps + b) * (ps * pt) + j * ps + a).
Proof.
  intros Hi Hj Ha Hb. unfold pv_perm.
  assert (∀ i j a, length (seq 0 ps ≫= λ b,
            [(i * ps + b) * (ps * pt) + j * ps + a]) = ps) as H1.
  { intros. rewrite (length_bind_uniform _ _ 1), length_seq by done. lia. }
  assert (∀ i j, length (seq 0 ps ≫= λ a, seq 0 ps ≫= λ b,
            [(i * ps + b) * (ps * pt) + j * ps + a]) = ps * ps) as H2.
  { intros. rewrite (length_bind_uniform _ _ ps), length_seq; [done|].
    intros. apply H1. }
  assert (∀ i, length (seq 0 pt ≫= λ j, seq 0 ps ≫= λ a, seq 0 ps ≫= λ b,
            [(i * ps + b) * (ps * pt) + j * ps + a]) = pt * (ps * ps)) as H3.
  { intros. rewrite (length_bind_uniform _ _ (ps * ps)), length_seq; [done|].
    intros. apply H2. }
  rewrite (lookup_bind_uniform _ _ (pt * (ps * ps)) i _ i);
    [|intros; apply H3|by apply lookup_seq_lt|nia].
  rewrite (lookup_bind_uniform _ _ (ps * ps) j _ j);
    [|intros; apply H2|by apply lookup_seq_lt|nia].
  rewrite (lookup_bind_uniform _ _ ps a _ a);
    [|intros; apply H1|by apply lookup_seq_lt|nia].
  replace b with (b * 1 + 0) at 1 by lia.
  rewrite (lookup_bind_uniform _ _ 1 b 0 b);
    [done|done|by apply lookup_seq_lt|lia].
Qed.

(** X3.  What the rearrangement computes: for a matrix [C] of shape
    [(ps*pt, ps*pt)], row [i*pt + j] of [pv_rearrange(C, ps, pt)] is the
    column-major vectorisation of the [ps]-by-[ps] block of [C] at
    block-row [i] and block-column [j]: its entry [a*ps + b] is the
    entry of [C] in row [i*ps + b] and column [j*ps + a]. *)
Theorem pv_rearrange_entries {A} (C : matrix A) (ps pt : nat) :
  has_shape C (ps * pt) (ps * pt) →
  ∃ R, pv_rearrange C ps pt = Ok R ∧
       ∀ i j a b, i < pt → j < pt → a < ps → b < ps →
         R !! (i * pt + j) ≫= (λ row : list A, row !! (a * ps + b))
         = C !! (i * ps + b) ≫= (λ row : list A, row !! (j * ps + a)).
Proof.
  intros HC.
  destruct (pv_rearrange_Ok C ps pt) as (R & HR & HRs & Hent).
  { by rewrite (size_has_shape _ _ _ HC). }
  exists R. split; [done|]. intros i j a b Hi Hj Ha Hb.
  rewrite <-(lookup_ravel R (pt ^ 2) (ps ^ 2))
    by (try done; rewrite Nat.pow_2_r; nia).
  rewrite <-(lookup_ravel C (ps * pt) (ps * pt)) by (try done; nia).
  replace ((i * pt + j) * ps ^ 2 + (a * ps + b))
    with (i * (pt * (ps * ps)) + (j * (ps * ps) + (a * ps + b)))
    by (rewrite Nat.pow_2_r; lia).
  rewrite (Hent _ _ (pv_perm_lookup ps pt i j a b Hi Hj Ha Hb)).
  f_equal. lia.
Qed.

Lemma pv_rearrange_entries_witness :
  has_shape [[1; 2; 3; 4]; [5; 6; 7; 8]; [9; 10; 11; 12]; [13; 14; 15; 16]]
    (2 * 2) (2 * 2) ∧
  ∃ R, pv_rearrange
         [[1; 2; 3; 4]; [5; 6; 7; 8]; [9; 10; 11; 12]; [13; 14; 15; 16]] 2 2
       = Ok R ∧
       ∀ i j a b, i < 2 → j < 2 → a < 2 → b < 2 →
         R !! (i * 2 + j) ≫= (λ row : list nat, row !! (a * 2 + b))
         = [[1; 2; 3; 4]; [5; 6; 7; 8]; [9; 10; 11; 12]; [13; 14; 15; 16]]
             !! (i * 2 + b) ≫= (λ row : list nat, row !! (j * 2 + a)).
Proof.
  assert (has_shape
            [[1; 2; 3; 4]; [5; 6; 7; 8]; [9; 10; 11; 12]; [13; 14; 15; 16]]
            (2 * 2) (2 * 2)) as Hshape
    by (split; [reflexivity|repeat constructor]).
  split; [exact Hshape|].
  exact (pv_rearrange_entries _ 2 2 Hshape).
Defined.

(** X4.  The memoising decorator: after a call the cache holds the
    returned value under the argument tuple, and a second call with the
    same arguments returns that value from the cache and leaves the
    cache as it is, whatever the cache held before. *)
Theorem memoized_call_twice {V} (func : nat → nat → V) cache ps pt :
  let '(value, cache') := memoized_call func cache ps pt in
  cache' !! (ps, pt) = Some value ∧
  memoized_call func cache' ps pt = (value, cache') ∧
  (cache !! (ps, pt) = None → value = func ps pt) ∧
  (∀ key, key ≠ (ps, pt) → cache' !! key = cache !! key).
Proof.
  unfold memoized_call.
  destruct (cache !! (ps, pt)) as [v|] eqn:Hv.
  - rewrite Hv. done.
  - rewrite lookup_insert_eq. split_and!; [done..|].
    intros key Hkey. by rewrite lookup_insert_ne.
Qed.

(* ================================================================== *)
(** * Further properties of the proximal operators *)
(* ================================================================== *)

Lemma soft_threshold_R (x lam : R) :
  (0 <= lam)%R →
  soft_threshold x lam
  = if Rlt_dec lam x then (x - lam)%R
    else if Rlt_dec x (- lam) then (x + lam)%R else 0%R.
Proof.
  intros Hlam. unfold soft_threshold, fsign, fmaximum, fabs, fneg. simpl.
  repeat (destruct (Rlt_dec _ _); simpl); lra.
Qed.

(** X5.  Over the reals, with a threshold that is not negative,
    [soft_entrywise_threshold] shrinks every entry towards zero by the
    threshold: an entry above [lambda] loses [lambda], an entry below
    [-lambda] gains [lambda], and every entry in between becomes exactly
    zero.  The shape of the array is kept. *)
Theorem soft_entrywise_threshold_shrinks (M : matrix R) (lam : R) :
  (0 <= lam)%R →
  soft_entrywise_threshold M lam
  = (λ row : list R,
       (λ x, if Rlt_dec lam x then (x - lam)%R
             else if Rlt_dec x (- lam) then (x + lam)%R else 0%R) <$> row)
    <$> M.
Proof.
  intros Hlam. unfold soft_entrywise_threshold.
  apply list_fmap_ext. intros _ row _.
  apply list_fmap_ext. intros _ x _. by apply soft_threshold_R.
Qed.

Lemma soft_entrywise_threshold_shrinks_witness :
  (0 <= 1)%R ∧
  soft_entrywise_threshold [[3%R; (-3)%R]; [(1 / 2)%R; 0%R]] 1%R
  = (λ row : list R,
       (λ x, if Rlt_dec 1 x then (x - 1)%R
             else if Rlt_dec x (- 1) then (x + 1)%R else 0%R) <$> row)
    <$> [[3%R; (-3)%R]; [(1 / 2)%R; 0%R]].
Proof.
  split; [lra|].
  apply (soft_entrywise_threshold_shrinks
           [[3%R; (-3)%R]; [(1 / 2)%R; 0%R]] 1%R). lra.
Defined.

Lemma soft_threshold_R_0 (x : R) : soft_threshold x 0%R = x.
Proof.
  rewrite soft_threshold_R by lra.
  repeat (destruct (Rlt_dec _ _)); lra.
Qed.

(** X6.  Over the reals, thresholding the entries at zero changes
    nothing: [soft_entrywise_threshold(M, 0) == M]. *)
Theorem soft_entrywise_threshold_0 (M : matrix R) :
  soft_entrywise_threshold M 0%R = M.
Proof.
  unfold soft_entrywise_threshold.
  rewrite <-(list_fmap_id M) at 2. apply list_fmap_ext. intros _ row _.
  rewrite <-(list_fmap_id row) at 2. apply list_fmap_ext. intros _ x _.
  apply soft_threshold_R_0.
Qed.

(** Singular value thresholding at zero, given an exact decomposition. *)
Lemma soft_sv_threshold_0 `{!Backend R} (M : matrix R) m n :
  svd_exact m n → has_shape M m n → soft_sv_threshold M 0%R = M.
Proof.
  intros Hsvd HM. unfold soft_sv_threshold.
  destruct (svd M) as [[U s] Vh] eqn:HUsV.
  destruct (Hsvd M U s Vh HM HUsV) as [Hdot Hs].
  rewrite <-Hdot. do 3 f_equal.
  rewrite <-(list_fmap_id s) at 2. apply Forall_fmap_ext_1.
  eapply Forall_impl; [exact Hs|]. intros x Hx.
  unfold fmaximum. simpl. destruct (Rlt_dec _ _); simpl; lra.
Qed.

(* ================================================================== *)
(** * Further properties of the unconstrained solver *)
(* ================================================================== *)

Section kron_pca_edges.
Context {F : Type} `{!Scalar F} `{!Backend F}.

(** X7.  A solver called with zero iterations does not return its
    initial values: the variables it reads after the loop ([L], [S] in
    the unconstrained solver, [L_tilde] in the Toeplitz-constrained
    one) were never assigned, and the call raises. *)
Theorem solvers_need_an_iteration (sample_cov : matrix F) ps pt
    lambda_L lambda_S tau_a tau tol stop_cond_interval :
  ps * pt * (ps * pt) ≤ size sample_cov →
  prox_grad_robust_kron_pca sample_cov ps pt lambda_L lambda_S 0 tau_a
  = Raise UnboundLocalError ∧
  (1 ≤ pt →
   prox_grad_robust_toeplitz_kron_pca sample_cov ps pt lambda_L lambda_S
     tau tol 0 stop_cond_interval = Raise UnboundLocalError).
Proof.
  intros Hsize.
  destruct (pv_rearrange_Ok sample_cov ps pt Hsize) as (R & HR & _).
  split.
  - unfold prox_grad_robust_kron_pca. by rewrite HR.
  - intros Hpt. unfold prox_grad_robust_toeplitz_kron_pca.
    rewrite build_P_rows by done. cbn [mbind result_bind]. by rewrite HR.
Qed.

(** X8.  A step schedule shorter than [num_iter] makes the unconstrained
    solver fail with [IndexError], at the first iteration that has no
    step. *)
Theorem schedule_too_short (sample_cov : matrix F) ps pt
    lambda_L lambda_S num_iter (ts : list F) :
  ps * pt * (ps * pt) ≤ size sample_cov →
  length ts < num_iter →
  prox_grad_robust_kron_pca sample_cov ps pt lambda_L lambda_S num_iter
    (TauSchedule ts) = Raise IndexError.
Proof.
  intros Hsize Hlen.
  destruct (pv_rearrange_Ok sample_cov ps pt Hsize) as (R & HR & _).
  unfold prox_grad_robust_kron_pca. rewrite HR. cbn [mbind result_bind].
  replace num_iter with (length ts + S (num_iter - S (length ts))) by lia.
  rewrite seq_app, for_each_app.
  pose proof (kron_loop_spec R lambda_L lambda_S (TauSchedule ts)
                (length ts) (length ts)) as Hloop.
  destruct (spec_iterates R lambda_L lambda_S (TauSchedule ts) (length ts))
    as [[L_k S_k] M_k].
  cbn [tau_vals_of] in *. rewrite Hloop; [|by intros ? [= ->]|done].
  cbn [mbind result_bind seq for_each]. unfold kron_iteration.
  by rewrite lookup_ge_None_2 by lia.
Qed.
End kron_pca_edges.

Lemma solvers_need_an_iteration_witness :
  1 * 1 * (1 * 1) ≤ size [[1%Q]] ∧
  @prox_grad_robust_kron_pca Q Q_scalar Q_backend [[1%Q]] 1 1 0%Q 0%Q 0
    (TauScalar 1%Q) = Raise UnboundLocalError ∧
  (1 ≤ 1 →
   @prox_grad_robust_toeplitz_kron_pca Q Q_scalar Q_backend [[1%Q]] 1 1
     0%Q 0%Q (1 # 10)%Q (1 # 100)%Q 0 20 = Raise UnboundLocalError).
Proof.
  assert (1 * 1 * (1 * 1) ≤ size [[1%Q]]) as Hsize by (vm_compute; lia).
  split; [exact Hsize|].
  exact (@solvers_need_an_iteration Q Q_scalar Q_backend [[1%Q]] 1 1
           0%Q 0%Q (TauScalar 1%Q) (1 # 10)%Q (1 # 100)%Q 20 Hsize).
Defined.

Lemma schedule_too_short_witness :
  1 * 1 * (1 * 1) ≤ size [[1%Q]] ∧ length [1%Q] < 2 ∧
  @prox_grad_robust_kron_pca Q Q_scalar Q_backend [[1%Q]] 1 1 0%Q 0%Q 2
    (TauSchedule [1%Q]) = Raise IndexError.
Proof.
  assert (1 * 1 * (1 * 1) ≤ size [[1%Q]]) as Hsize by (vm_compute; lia).
  assert (length [1%Q] < 2) as Hlen by (simpl; lia).
  split; [exact Hsize|]. split; [exact Hlen|].
  exact (@schedule_too_short Q Q_scalar Q_backend [[1%Q]] 1 1 0%Q 0%Q 2
           [1%Q] Hsize Hlen).
Defined.

(* ------------------------------------------------------------------ *)
(** ** Zero regularisation *)

Lemma zip_with_fmap_self {A B C} (f : A → B → C) (g : A → B) (l : list A) :
  zip_with f l (g <$> l) = (λ x, f x (g x)) <$> l.
Proof. by rewrite zip_with_fmap_r, zip_with_diag. Qed.

Lemma fmap_id_ext {A} (f : A → A) (l : list A) :
  (∀ x, f x = x) → f <$> l = l.
Proof.
  intros Hf. rewrite <-(list_fmap_id l) at 2.
  apply list_fmap_ext. intros _ x _. apply Hf.
Qed.

Section real_matrices.
Implicit Types M : matrix R.

Lemma madd_zeros_like M : madd M (zeros_like M) = M.
Proof.
  unfold madd, zeros_like. rewrite zip_with_fmap_self.
  apply fmap_id_ext. intros row. unfold vadd. cbv beta.
  rewrite zip_with_fmap_self.
  apply fmap_id_ext. intros x. simpl. lra.
Qed.

Lemma msub_zeros_like M : msub M (zeros_like M) = M.
Proof.
  unfold msub, zeros_like. rewrite zip_with_fmap_self.
  apply fmap_id_ext. intros row. unfold vsub. cbv beta.
  rewrite zip_with_fmap_self.
  apply fmap_id_ext. intros x. simpl. lra.
Qed.

Lemma msub_self M : msub M M = zeros_like M.
Proof.
  unfold msub, zeros_like. rewrite zip_with_diag.
  apply list_fmap_ext. intros _ row _. unfold vsub. rewrite zip_with_diag.
  apply list_fmap_ext. intros _ x _. simpl. lra.
Qed.

Lemma mscale_zeros_like t M : mscale t (zeros_like M) = zeros_like M.
Proof.
  unfold mscale, zeros_like. rewrite <-list_fmap_compose.
  apply list_fmap_ext. intros _ row _. simpl. rewrite <-list_fmap_compose.
  apply list_fmap_ext. intros _ x _. simpl. lra.
Qed.

Lemma soft_entrywise_threshold_zeros_like M :
  soft_entrywise_threshold (zeros_like M) 0%R = zeros_like M.
Proof.
  unfold soft_entrywise_threshold. apply fmap_id_ext. intros row.
  apply fmap_id_ext. apply soft_threshold_R_0.
Qed.
End real_matrices.

(** The layout transform followed by its inverse, on an input of the
    right shape. *)
Lemma pv_rearrange_then_inv {A} (C : matrix A) ps pt :
  has_shape C (ps * pt) (ps * pt) →
  ∃ R, pv_rearrange C ps pt = Ok R ∧ has_shape R (pt ^ 2) (ps ^ 2) ∧
       pv_rearrange_inv R ps pt = Ok C.
Proof.
  intros HC. pose proof (length_ravel C _ _ HC) as Hx.
  destruct (take_idx_argsort (ravel C) (pv_perm ps pt))
    as (y & Hy & Hly & Hinv).
  { rewrite pv_perm_Permutation, Hx. f_equiv. rewrite !Nat.pow_2_r. lia. }
  assert (length y = pt ^ 2 * ps ^ 2) as Hly'
    by (rewrite Hly, Hx, !Nat.pow_2_r; lia).
  exists (chunks (pt ^ 2) (ps ^ 2) y).
  unfold pv_rearrange, pv_rearrange_inv.
  rewrite pv_permutation_Ok. cbn [mbind result_bind].
  rewrite Hy. cbn [mbind result_bind].
  split; [by apply reshape2_Ok|]. split; [by apply chunks_has_shape|].
  unfold ravel at 1. rewrite concat_chunks, Hinv by done.
  cbn [mbind result_bind]. by apply reshape2_ravel.
Qed.

Section zero_regularisation.
Context `{!Backend R}.

(** With both regularisation weights zero every iterate is the
    rearranged covariance itself, with a zero sparse part. *)
Lemma spec_iterates_zero_weights (R0 : matrix R) tau m n k :
  svd_exact m n → has_shape R0 m n →
  spec_iterates R0 0%R 0%R tau k = (R0, zeros_like R0, R0).
Proof.
  intros Hsvd HR. induction k as [|k IH]; cbn [spec_iterates].
  - by rewrite madd_zeros_like.
  - rewrite IH. f_equal; [f_equal|].
    + rewrite msub_zeros_like. simpl. rewrite Rmult_0_r.
      by apply (soft_sv_threshold_0 _ m n).
    + rewrite msub_self. simpl. rewrite Rmult_0_r.
      apply soft_entrywise_threshold_zeros_like.
    + rewrite msub_zeros_like, msub_self. simpl. rewrite !Rmult_0_r.
      rewrite (soft_sv_threshold_0 _ m n) by done.
      rewrite soft_entrywise_threshold_zeros_like, madd_zeros_like.
      by rewrite msub_self, mscale_zeros_like, msub_zeros_like.
Qed.

(** X9.  Over the reals, with a singular value decomposition that
    reproduces its input, zero regularisation is a no-op: with
    [lambda_L = lambda_S = 0] the unconstrained solver returns the
    sample covariance it was given, for every number of iterations
    (at least one) and every step. *)
Theorem zero_regularisation_returns_input (sample_cov : matrix R) ps pt
    num_iter tau :
  has_shape sample_cov (ps * pt) (ps * pt) →
  1 ≤ num_iter →
  (∀ ts, tau = TauSchedule ts → length ts = num_iter) →
  svd_exact (pt ^ 2) (ps ^ 2) →
  prox_grad_robust_kron_pca sample_cov ps pt 0%R 0%R num_iter tau
  = Ok sample_cov.
Proof.
  intros HC Hn Hts Hsvd.
  destruct (pv_rearrange_then_inv sample_cov ps pt HC)
    as (R0 & HR & HRs & Hback).
  unfold prox_grad_robust_kron_pca. rewrite HR. cbn [mbind result_bind].
  pose proof (kron_loop_spec R0 0%R 0%R tau num_iter num_iter Hts
                ltac:(lia)) as Hloop.
  rewrite (spec_iterates_zero_weights R0 tau _ _ num_iter Hsvd HRs) in Hloop.
  rewrite Hloop. cbn [mbind result_bind st_L st_S].
  rewrite !decide_False by lia. cbn [or_raise mbind result_bind].
  by rewrite madd_zeros_like.
Qed.
End zero_regularisation.

(** The 1-by-1 backend decomposes exactly. *)
Lemma svd_1x1_exact : @svd_exact R_backend 1 1.
Proof.
  intros M U s Vh [HM Hrow] Hsvd.
  destruct M as [|row [|? ?]]; try done.
  rewrite Forall_singleton in Hrow.
  destruct row as [|x [|? ?]]; try done.
  cbn [svd R_backend svd_1x1] in Hsvd. injection Hsvd as <- <- <-.
  split.
  - unfold dot, np_diag, transpose, fsum. cbn. do 2 f_equal.
    destruct (Rle_dec 0 x).
    + rewrite Rabs_right by lra. lra.
    + rewrite Rabs_left by lra. lra.
  - apply Forall_singleton. apply Rabs_pos.
Qed.

Lemma zero_regularisation_returns_input_witness :
  has_shape [[1%R]] (1 * 1) (1 * 1) ∧
  1 ≤ 1 ∧
  (∀ ts, TauScalar 1%R = TauSchedule ts → length ts = 1) ∧
  @svd_exact R_backend (1 ^ 2) (1 ^ 2) ∧
  @prox_grad_robust_kron_pca R R_scalar R_backend [[1%R]] 1 1 0%R 0%R 1
    (TauScalar 1%R) = Ok [[1%R]].
Proof.
  assert (has_shape [[1%R]] (1 * 1) (1 * 1)) as Hshape
    by (split; [reflexivity|repeat constructor]).
  assert (∀ ts : list R, TauScalar 1%R = TauSchedule ts → length ts = 1)
    as Hts by (intros ts Hts; discriminate Hts).
  split; [exact Hshape|]. split; [lia|]. split; [exact Hts|].
  split; [exact svd_1x1_exact|].
  exact (@zero_regularisation_returns_input R_backend [[1%R]] 1 1 1
           (TauScalar 1%R) Hshape ltac:(lia) Hts svd_1x1_exact).
Defined.

(* ================================================================== *)
(** * Further properties of the Toeplitz-constrained solver *)
(* ================================================================== *)

Section toeplitz_edges.
Context {F : Type} `{!Scalar F} `{!Backend F}.

(** With an interval of 0 an iteration whose updates succeed fails at
    [k % stop_cond_interval]. *)
Lemma toeplitz_iteration_zero_interval P R_tilde ps pt lambda_L lambda_S
    tau tol (st : toeplitz_state F) k S1 :
  update_S_tilde pt tau lambda_S (st_M_tilde_prev st) (st_L_tilde_prev st)
    (st_S_tilde st) = Ok S1 →
  toeplitz_iteration P R_tilde ps pt lambda_L lambda_S tau tol 0 st k
  = Raise ZeroDivisionError.
Proof. intros HS1. unfold toeplitz_iteration. by rewrite HS1. Qed.

(** X10.  A convergence-check interval of 0 is not rejected on entry:
    the solver builds [P], rearranges the input, performs the updates
    of the first iteration and then fails with [ZeroDivisionError] at
    [k % stop_cond_interval]. *)
Theorem zero_check_interval (sample_cov : matrix F) ps pt
    lambda_L lambda_S tau tol max_iter :
  1 ≤ pt → ps * pt * (ps * pt) ≤ size sample_cov → 1 ≤ max_iter →
  prox_grad_robust_toeplitz_kron_pca sample_cov ps pt lambda_L lambda_S
    tau tol max_iter 0 = Raise ZeroDivisionError.
Proof.
  intros Hpt Hsize Hiter.
  unfold prox_grad_robust_toeplitz_kron_pca.
  rewrite build_P_rows by done. cbn [mbind result_bind].
  pose proof (has_shape_build_P_rows (F := F) pt Hpt) as HP.
  set (P := (λ k, build_P_row pt (Z.of_nat k - (Z.of_nat pt - 1)))
            <$> seq 0 (2 * pt - 1)) in *.
  destruct (pv_rearrange_Ok sample_cov ps pt Hsize) as (R & -> & HR & _).
  cbn [mbind result_bind].
  assert (0 < pt ^ 2) as Hq by (rewrite Nat.pow_2_r; nia).
  assert (has_shape (dot P R) (2 * pt - 1) (ps ^ 2)) as HRt
    by by apply (has_shape_dot _ _ _ (pt ^ 2)).
  destruct max_iter as [|n]; [lia|]. cbn [seq for_break].
  destruct (update_S_tilde_Ok pt tau lambda_S
              (madd (dot P R) (zeros_like (dot P R))) (dot P R)
              (zeros_like (dot P R)) (ps ^ 2) Hpt)
    as (S1 & HS1 & _); auto using has_shape_madd, has_shape_zeros_like.
  by rewrite (toeplitz_iteration_zero_interval P (dot P R) ps pt lambda_L
                lambda_S tau tol
                (ToeplitzState (madd (dot P R) (zeros_like (dot P R)))
                   (zeros_like (dot P R)) (dot P R) (zeros_like (dot P R))
                   None None None) 0 S1 HS1).
Qed.

(** An iteration away from a multiple of the interval makes no
    convergence check: it continues and leaves [cov_est] as it is. *)
Lemma toeplitz_iteration_no_check P R_tilde ps pt lambda_L lambda_S tau tol
    stop_cond_interval (st : toeplitz_state F) k c :
  k `mod` stop_cond_interval ≠ 0 →
  toeplitz_iteration P R_tilde ps pt lambda_L lambda_S tau tol
    stop_cond_interval st k = Ok c →
  ∃ st', c = Continue st' ∧ st_cov_est st' = st_cov_est st.
Proof.
  intros Hmod. unfold toeplitz_iteration.
  destruct (update_S_tilde _ _ _ _ _ _) as [S1|]; [|done].
  cbn [mbind result_bind].
  destruct (decide (stop_cond_interval = 0)); [done|].
  rewrite decide_False by done. intros [= <-]. by eexists.
Qed.

Lemma for_break_no_check P R_tilde ps pt lambda_L lambda_S tau tol
    stop_cond_interval (st st' : toeplitz_state F) ks :
  Forall (λ k, k `mod` stop_cond_interval ≠ 0) ks →
  for_break (toeplitz_iteration P R_tilde ps pt lambda_L lambda_S tau tol
               stop_cond_interval) st ks = Ok st' →
  st_cov_est st' = st_cov_est st.
Proof.
  intros Hks. revert st. induction Hks as [|k ks Hk _ IH]; intros st.
  - by intros [= <-].
  - cbn [for_break].
    destruct (toeplitz_iteration _ _ _ _ _ _ _ _ _ st k) as [c|] eqn:Hc;
      [|done].
    destruct (toeplitz_iteration_no_check _ _ _ _ _ _ _ _ _ _ _ _ Hk Hc)
      as (st1 & -> & Hcov).
    cbn [mbind result_bind]. intros Hloop. by rewrite (IH _ Hloop).
Qed.

(** Every iteration that returns has bound [L_tilde]. *)
Lemma toeplitz_iteration_binds_L P R_tilde ps pt lambda_L lambda_S tau tol
    stop_cond_interval (st st' : toeplitz_state F) k :
  toeplitz_iteration P R_tilde ps pt lambda_L lambda_S tau tol
    stop_cond_interval st k = Ok (Continue st') ∨
  toeplitz_iteration P R_tilde ps pt lambda_L lambda_S tau tol
    stop_cond_interval st k = Ok (Break st') →
  is_Some (st_L_tilde st').
Proof.
  unfold toeplitz_iteration.
  destruct (update_S_tilde _ _ _ _ _ _) as [S1|]; [|by intros [|]].
  cbn [mbind result_bind].
  destruct (decide (stop_cond_interval = 0)); [by intros [|]|].
  destruct (decide (k `mod` stop_cond_interval = 0)).
  - destruct (pv_rearrange_inv _ _ _) as [cov|]; [|by intros [|]].
    cbn [mbind result_bind]. destruct (decide (0 < k)).
    + destruct (st_cov_est_prev _) as [prev|];
        cbn [or_raise mbind result_bind]; [|by intros [|]].
      destruct (fltb _ _); intros [[= <-]|[= <-]]; by eexists.
    + intros [[= <-]|[= <-]]; by eexists.
  - intros [[= <-]|[= <-]]; by eexists.
Qed.

(** X11.  The covariance estimate that the solver returns is the one
    formed at the last convergence check, not at the last iteration:
    when the iteration cap does not exceed the check interval, the only
    check is the one of the first iteration, and a call that returns
    returns the covariance estimate of the call with a cap of 1. *)
Theorem cap_within_interval_returns_first_check (sample_cov : matrix F)
    ps pt lambda_L lambda_S tau tol max_iter stop_cond_interval
    cov rank sparsity :
  1 ≤ max_iter → max_iter ≤ stop_cond_interval →
  prox_grad_robust_toeplitz_kron_pca sample_cov ps pt lambda_L lambda_S
    tau tol max_iter stop_cond_interval = Ok (cov, rank, sparsity) →
  ∃ rank1 sparsity1,
    prox_grad_robust_toeplitz_kron_pca sample_cov ps pt lambda_L lambda_S
      tau tol 1 stop_cond_interval = Ok (cov, rank1, sparsity1).
Proof.
  intros Hiter Hcap. unfold prox_grad_robust_toeplitz_kron_pca.
  destruct (build_P pt) as [P|]; [|done]. cbn [mbind result_bind].
  destruct (pv_rearrange sample_cov ps pt) as [R|]; [|done].
  cbn [mbind result_bind].
  destruct max_iter as [|n]; [lia|]. cbn [seq for_break].
  destruct (toeplitz_iteration _ _ _ _ _ _ _ _ _ _ 0) as [[st1|st1]|] eqn:Hfirst;
    cbn [mbind result_bind for_break]; [| |done].
  - destruct (for_break _ st1 (seq 1 n)) as [st'|] eqn:Hrest; [|done].
    cbn [mbind result_bind].
    apply for_break_no_check in Hrest.
    2:{ apply Forall_seq. intros k Hk. rewrite Nat.mod_small; lia. }
    destruct (toeplitz_iteration_binds_L _ _ _ _ _ _ _ _ _ _ st1 0
                (or_introl Hfirst)) as [L1 ->].
    destruct (st_L_tilde st') as [L'|]; [|done].
    cbn [or_raise mbind result_bind]. rewrite <-Hrest.
    destruct (st_cov_est st') as [cov'|]; [|done].
    cbn [or_raise mbind result_bind]. intros [= <- _ _]. by eexists _, _.
  - intros Hres. by eexists _, _.
Qed.
End toeplitz_edges.

Lemma zero_check_interval_witness :
  1 ≤ 1 ∧ 1 * 1 * (1 * 1) ≤ size [[1%Q]] ∧ 1 ≤ 3 ∧
  @prox_grad_robust_toeplitz_kron_pca Q Q_scalar Q_backend [[1%Q]] 1 1
    1%Q 0%Q (1 # 10)%Q (1 # 100000000)%Q 3 0 = Raise ZeroDivisionError.
Proof.
  assert (1 * 1 * (1 * 1) ≤ size [[1%Q]]) as Hsize by (vm_compute; lia).
  split; [lia|]. split; [exact Hsize|]. split; [lia|].
  exact (@zero_check_interval Q Q_scalar Q_backend [[1%Q]] 1 1 1%Q 0%Q
           (1 # 10)%Q (1 # 100000000)%Q 3 ltac:(lia) Hsize ltac:(lia)).
Defined.

Lemma cap_within_interval_returns_first_check_witness :
  1 ≤ 3 ∧ 3 ≤ 20 ∧
  @prox_grad_robust_toeplitz_kron_pca Q Q_scalar Q_backend [[1%Q]] 1 1
    1%Q 0%Q (1 # 10)%Q (1 # 100000000)%Q 3 20 = Ok ([[(9 # 10)%Q]], 1, 0%Q) ∧
  ∃ rank1 sparsity1,
    @prox_grad_robust_toeplitz_kron_pca Q Q_scalar Q_backend [[1%Q]] 1 1
      1%Q 0%Q (1 # 10)%Q (1 # 100000000)%Q 1 20
    = Ok ([[(9 # 10)%Q]], rank1, sparsity1).
Proof.
  assert (@prox_grad_robust_toeplitz_kron_pca Q Q_scalar Q_backend [[1%Q]]
            1 1 1%Q 0%Q (1 # 10)%Q (1 # 100000000)%Q 3 20
          = Ok ([[(9 # 10)%Q]], 1, 0%Q)) as Hres
    by (vm_compute; reflexivity).
  split; [lia|]. split; [lia|]. split; [exact Hres|].
  exact (@cap_within_interval_returns_first_check Q Q_scalar Q_backend
           [[1%Q]] 1 1 1%Q 0%Q (1 # 10)%Q (1 # 100000000)%Q 3 20
           [[(9 # 10)%Q]] 1 0%Q ltac:(lia) ltac:(lia) Hres).
Defined.

(* ================================================================== *)
(** * The Toeplitz structure of the constrained estimate *)
(* ================================================================== *)

(** Whatever [pv_rearrange_inv] returns is [(ps*pt)]-square. *)
Lemma pv_rearrange_inv_has_shape {A} (M C : matrix A) ps pt :
  pv_rearrange_inv M ps pt = Ok C → has_shape C (ps * pt) (ps * pt).
Proof.
  unfold pv_rearrange_inv. rewrite pv_permutation_Ok.
  cbn [mbind result_bind].
  destruct (take_idx _ _) as [v|]; [|done].
  cbn [mbind result_bind]. unfold reshape2.
  destruct (decide _) as [Hl|]; [|done]. intros [= <-].
  by apply chunks_has_shape.
Qed.

(** Entry by entry, [pv_rearrange_inv] puts row [i*pt + j] of its
    argument back as the block at block-row [i] and block-column [j]. *)
Lemma pv_rearrange_inv_lookup {A} (M C : matrix A) ps pt i j a b :
  has_shape M (pt ^ 2) (ps ^ 2) → pv_rearrange_inv M ps pt = Ok C →
  i < pt → j < pt → a < ps → b < ps →
  has_shape C (ps * pt) (ps * pt) ∧
  C !! (i * ps + b) ≫= (λ row : list A, row !! (j * ps + a))
  = M !! (i * pt + j) ≫= (λ row : list A, row !! (a * ps + b)).
Proof.
  intros HM HC Hi Hj Ha Hb. unfold pv_rearrange_inv in HC.
  rewrite pv_permutation_Ok in HC. cbn [mbind result_bind] in HC.
  pose proof (length_ravel M _ _ HM) as Hx.
  destruct (argsort_pv_perm_lt ps pt) as [Hlen Hlt].
  destruct (take_idx_Ok (ravel M) (argsort (pv_perm ps pt)))
    as (v & Hv & Hl & Hent).
  { eapply Forall_impl; [exact Hlt|]. simpl. rewrite Hx, !Nat.pow_2_r. lia. }
  rewrite Hv in HC. cbn [mbind result_bind] in HC. rewrite Hlen in Hl.
  rewrite reshape2_Ok in HC by done. injection HC as <-.
  pose proof (chunks_has_shape (ps * pt) (ps * pt) v Hl) as HCs.
  split; [done|].
  rewrite <-(lookup_ravel _ (ps * pt) (ps * pt)) by (try done; nia).
  rewrite <-(lookup_ravel M (pt ^ 2) (ps ^ 2))
    by (try done; rewrite Nat.pow_2_r; nia).
  unfold ravel at 1. rewrite concat_chunks by done.
  set (k := (i * ps + b) * (ps * pt) + (j * ps + a)).
  assert (i * ps + b < ps * pt ∧ j * ps + a < ps * pt) as [Hrow Hcol] by nia.
  assert (k < ps * pt * (ps * pt)) as Hk by (unfold k; nia).
  destruct (argsort_inverse (pv_perm ps pt)) as [_ Hinv].
  { rewrite length_pv_perm, pv_perm_Permutation. f_equiv.
    rewrite !Nat.pow_2_r. lia. }
  rewrite length_pv_perm in Hinv.
  destruct (Hinv k Hk) as (m & Hm & Hpm).
  rewrite (Hent k m Hm). f_equal.
  pose proof (pv_perm_lookup ps pt i j a b Hi Hj Ha Hb) as Hp.
  replace ((i * ps + b) * (ps * pt) + j * ps + a) with k in Hp
    by (unfold k; lia).
  pose proof (NoDup_pv_perm ps pt) as Hnd. rewrite NoDup_alt in Hnd.
  rewrite (Hnd _ _ _ Hpm Hp). rewrite Nat.pow_2_r. lia.
Qed.

Section block_toeplitz.
Context {F : Type} `{!Scalar F} `{!Backend F}.

(** Two columns of [P] on the same diagonal offset are equal. *)
Lemma transpose_build_P_rows pt c c' :
  1 ≤ pt → c < pt ^ 2 → c' < pt ^ 2 → offset_of pt c = offset_of pt c' →
  transpose ((λ k, build_P_row (F := F) pt (Z.of_nat k - (Z.of_nat pt - 1)))
             <$> seq 0 (2 * pt - 1)) !! c
  = transpose ((λ k, build_P_row (F := F) pt (Z.of_nat k - (Z.of_nat pt - 1)))
               <$> seq 0 (2 * pt - 1)) !! c'.
Proof.
  intros Hpt Hc Hc' Hoff.
  pose proof (has_shape_build_P_rows (F := F) pt Hpt) as HP.
  set (P := (λ k, build_P_row pt (Z.of_nat k - (Z.of_nat pt - 1)))
            <$> seq 0 (2 * pt - 1)) in *.
  destruct (transpose_lookup P _ _ c HP ltac:(lia) Hc) as (col & -> & Hl & Hcol).
  destruct (transpose_lookup P _ _ c' HP ltac:(lia) Hc')
    as (col' & -> & Hl' & Hcol').
  f_equal. apply list_eq. intros k. rewrite Hcol, Hcol'.
  destruct (decide (k < 2 * pt - 1)) as [Hk|Hk].
  - unfold P. rewrite list_lookup_fmap, lookup_seq_lt by done. simpl.
    destruct (build_P_row_lookup (F := F) pt
                (Z.of_nat k - (Z.of_nat pt - 1)) c Hpt ltac:(lia)) as [_ ->].
    destruct (build_P_row_lookup (F := F) pt
                (Z.of_nat k - (Z.of_nat pt - 1)) c' Hpt ltac:(lia)) as [_ ->].
    rewrite (decide_True (P := c < pt ^ 2)),
      (decide_True (P := c' < pt ^ 2)) by done.
    by rewrite Hoff.
  - rewrite !(lookup_ge_None_2 P); [done|destruct HP; lia..].
Qed.

Lemma offset_of_block pt i j :
  j < pt → offset_of pt (i * pt + j) = (Z.of_nat i - Z.of_nat j)%Z.
Proof.
  intros Hj. unfold offset_of.
  rewrite <-(Nat.div_unique (i * pt + j) pt i j) by lia.
  rewrite <-(Nat.mod_unique (i * pt + j) pt i j) by lia. done.
Qed.

Lemma pv_rearrange_inv_toeplitz (Y cov : matrix F) ps pt :
  1 ≤ pt → has_shape Y (2 * pt - 1) (ps ^ 2) →
  pv_rearrange_inv
    (dot (transpose
            ((λ k, build_P_row (F := F) pt (Z.of_nat k - (Z.of_nat pt - 1)))
             <$> seq 0 (2 * pt - 1))) Y) ps pt = Ok cov →
  block_toeplitz ps pt cov.
Proof.
  intros Hpt HY Hcov.
  pose proof (has_shape_build_P_rows (F := F) pt Hpt) as HP.
  set (P := (λ k, build_P_row pt (Z.of_nat k - (Z.of_nat pt - 1)))
            <$> seq 0 (2 * pt - 1)) in *.
  assert (has_shape (dot (transpose P) Y) (pt ^ 2) (ps ^ 2)) as HM.
  { apply (has_shape_dot _ _ _ (2 * pt - 1)); [|done|lia].
    apply has_shape_transpose; [done|lia]. }
  split; [by eapply pv_rearrange_inv_has_shape|].
  intros i j i' j' a b Hi Hj Hi' Hj' Ha Hb Hoff.
  destruct (pv_rearrange_inv_lookup _ _ _ _ i j a b HM Hcov) as [_ ->];
    [done..|].
  destruct (pv_rearrange_inv_lookup _ _ _ _ i' j' a b HM Hcov) as [_ ->];
    [done..|].
  assert (transpose P !! (i * pt + j) = transpose P !! (i' * pt + j'))
    as Hcols.
  { apply transpose_build_P_rows; [done|rewrite Nat.pow_2_r; nia..|].
    by rewrite !offset_of_block. }
  unfold dot. by rewrite !list_lookup_fmap, Hcols.
Qed.

(** Where the covariance estimate of the loop state comes from. *)
Lemma toeplitz_iteration_cov P R_tilde ps pt lambda_L lambda_S tau tol
    stop_cond_interval (st st' : toeplitz_state F) k :
  toeplitz_iteration P R_tilde ps pt lambda_L lambda_S tau tol
    stop_cond_interval st k = Ok (Continue st') ∨
  toeplitz_iteration P R_tilde ps pt lambda_L lambda_S tau tol
    stop_cond_interval st k = Ok (Break st') →
  st_cov_est st' = st_cov_est st ∨
  ∃ S1 cov,
    update_S_tilde pt tau lambda_S (st_M_tilde_prev st) (st_L_tilde_prev st)
      (st_S_tilde st) = Ok S1 ∧
    pv_rearrange_inv
      (dot (transpose P)
         (madd (soft_sv_threshold
                  (msub (st_M_tilde_prev st) (st_S_tilde_prev st))
                  (fmul tau lambda_L)) S1)) ps pt = Ok cov ∧
    st_cov_est st' = Some cov.
Proof.
  unfold toeplitz_iteration.
  destruct (update_S_tilde _ _ _ _ _ _) as [S1|]; [|by intros [|]].
  cbn [mbind result_bind].
  destruct (decide (stop_cond_interval = 0)); [by intros [|]|].
  destruct (decide (k `mod` stop_cond_interval = 0)).
  - destruct (pv_rearrange_inv _ _ _) as [cov|] eqn:Hcov; [|by intros [|]].
    cbn [mbind result_bind]. destruct (decide (0 < k)).
    + destruct (st_cov_est_prev _) as [prev|];
        cbn [or_raise mbind result_bind]; [|by intros [|]].
      destruct (fltb _ _); intros [[= <-]|[= <-]]; right;
        exists S1, cov; by rewrite Hcov.
    + intros [[= <-]|[= <-]]; right; exists S1, cov; by rewrite Hcov.
  - intros [[= <-]|[= <-]]; by left.
Qed.

(** X12.  For positive dimensions, an input of the right size, at least
    one iteration and a positive check interval, the Toeplitz-constrained
    solver returns a [(ps*pt)]-square covariance estimate that is block
    Toeplitz: its [ps]-by-[ps] block at block-row [i] and block-column
    [j] depends on the lag [i - j] only.  The input need not have this
    structure. *)
Theorem toeplitz_solver_returns_block_toeplitz (sample_cov : matrix F)
    ps pt lambda_L lambda_S tau tol max_iter stop_cond_interval :
  1 ≤ ps → 1 ≤ pt →
  ps * pt * (ps * pt) ≤ size sample_cov →
  svd_shapes (2 * pt - 1) (ps ^ 2) →
  1 ≤ max_iter → 1 ≤ stop_cond_interval →
  ∃ cov rank sparsity,
    prox_grad_robust_toeplitz_kron_pca sample_cov ps pt lambda_L lambda_S
      tau tol max_iter stop_cond_interval = Ok (cov, rank, sparsity) ∧
    block_toeplitz ps pt cov.
Proof.
  intros Hps Hpt Hsize Hsvd Hiter Hint.
  unfold prox_grad_robust_toeplitz_kron_pca.
  rewrite build_P_rows by done. cbn [mbind result_bind].
  pose proof (has_shape_build_P_rows (F := F) pt Hpt) as HP.
  set (P := (λ k, build_P_row pt (Z.of_nat k - (Z.of_nat pt - 1)))
            <$> seq 0 (2 * pt - 1)) in *.
  destruct (pv_rearrange_Ok sample_cov ps pt Hsize) as (R & -> & HR & _).
  cbn [mbind result_bind].
  assert (0 < pt ^ 2 ∧ 0 < ps ^ 2 ∧ 0 < 2 * pt - 1) as (Hq & Hn & Hm)
    by (rewrite !Nat.pow_2_r; nia).
  assert (has_shape (dot P R) (2 * pt - 1) (ps ^ 2)) as HRt
    by by apply (has_shape_dot _ _ _ (pt ^ 2)).
  destruct (for_break_invariant
              (toeplitz_iteration P (dot P R) ps pt lambda_L lambda_S tau tol
                 stop_cond_interval)
              (λ k st, toeplitz_inv (2 * pt - 1) (ps ^ 2) k st ∧
                       ∀ cov, st_cov_est st = Some cov →
                              block_toeplitz ps pt cov) 0 max_iter
              (ToeplitzState (madd (dot P R) (zeros_like (dot P R)))
                 (zeros_like (dot P R)) (dot P R) (zeros_like (dot P R))
                 None None None))
    as (st & k & -> & [Hinv Hbt] & _ & Hk).
  { split; [|done]. unfold_toeplitz_inv.
    split_and!; auto using has_shape_madd, has_shape_zeros_like.
    intros ?. lia. }
  { intros k st _ [Hinv Hbt].
    destruct (toeplitz_iteration_inv P (dot P R) ps pt lambda_L lambda_S tau
                tol stop_cond_interval st k) as (st' & Hst' & Hinv');
      [done..|].
    exists st'. split; [done|]. split; [done|].
    intros cov Hcov.
    destruct (toeplitz_iteration_cov _ _ _ _ _ _ _ _ _ _ _ _ Hst')
      as [Heq|(S1 & cov' & HS1 & Hcov' & Hst)].
    - apply Hbt. by rewrite <-Heq.
    - rewrite Hst in Hcov. injection Hcov as ->.
      destruct Hinv as (HM & HSp & HLp & HS & _).
      destruct (update_S_tilde_Ok pt tau lambda_S _ _ _ _ Hpt HM HLp HS)
        as (S1' & HS1' & HS1s).
      rewrite HS1 in HS1'. injection HS1' as <-.
      apply (pv_rearrange_inv_toeplitz _ _ _ _ Hpt) in Hcov'; [done|].
      apply has_shape_madd; [|done].
      apply has_shape_soft_sv_threshold; auto using has_shape_msub. }
  cbn [mbind result_bind].
  destruct Hinv as (_ & _ & _ & _ & Hbound).
  destruct (Hbound (Hk ltac:(lia))) as ([L ->] & [cov Hcov] & _).
  rewrite Hcov. cbn [or_raise mbind result_bind].
  eexists _, _, _. split; [done|]. by apply Hbt.
Qed.
End block_toeplitz.

(** The single-column backend has the shapes of a singular value
    decomposition. *)
Lemma svd_col_shapes m : 0 < m → @svd_shapes R col_backend m 1.
Proof.
  intros Hm M U s Vh HM Hsvd.
  replace (m `min` 1) with 1 by lia.
  cbn [svd col_backend] in Hsvd. unfold svd_col in Hsvd.
  assert (has_shape [[1%R]] 1 1) as HV
    by (split; [done|by apply Forall_singleton]).
  destruct (Req_dec_T _ _); injection Hsvd as <- <- <-.
  - split; [|done]. apply has_shape_intro.
    + rewrite length_fmap, length_seq. by destruct HM.
    + intros i row Hrow. rewrite list_lookup_fmap in Hrow.
      destruct (seq 0 (length M) !! i); [|done]. by injection Hrow as <-.
  - split; [|done]. apply has_shape_intro.
    + rewrite length_fmap. by destruct HM.
    + intros i row Hrow. rewrite list_lookup_fmap in Hrow.
      destruct (M !! i) as [r|] eqn:Hr; [|done]. injection Hrow as <-.
      rewrite length_fmap. by apply (has_shape_rows M m 1 i).
Qed.

(** Two time lags of one spatial channel: the fit of [[2, 1], [1, 3]]
    has equal diagonal entries. *)
Lemma toeplitz_solver_returns_block_toeplitz_witness :
  1 ≤ 1 ∧ 1 ≤ 2 ∧
  1 * 2 * (1 * 2) ≤ size [[2%R; 1%R]; [1%R; 3%R]] ∧
  @svd_shapes R col_backend (2 * 2 - 1) (1 ^ 2) ∧
  1 ≤ 3 ∧ 1 ≤ 20 ∧
  ∃ cov rank sparsity,
    @prox_grad_robust_toeplitz_kron_pca R R_scalar col_backend
      [[2%R; 1%R]; [1%R; 3%R]] 1 2 0%R 0%R (1 / 10)%R (1 / 100000000)%R 3 20
    = Ok (cov, rank, sparsity) ∧
    block_toeplitz 1 2 cov.
Proof.
  assert (1 * 2 * (1 * 2) ≤ size [[2%R; 1%R]; [1%R; 3%R]]) as Hsize
    by (cbv; lia).
  assert (@svd_shapes R col_backend (2 * 2 - 1) (1 ^ 2)) as Hsvd
    by (apply svd_col_shapes; lia).
  split; [lia|]. split; [lia|]. split; [exact Hsize|]. split; [exact Hsvd|].
  split; [lia|]. split; [lia|].
  exact (@toeplitz_solver_returns_block_toeplitz R R_scalar col_backend
           [[2%R; 1%R]; [1%R; 3%R]] 1 2 0%R 0%R (1 / 10)%R
           (1 / 100000000)%R 3 20 ltac:(lia) ltac:(lia) Hsize Hsvd
           ltac:(lia) ltac:(lia)).
Defined.

(* ================================================================== *)
(** * Further properties of the cross-validation driver *)
(* ================================================================== *)

Section cv_driver.
Context {F : Type} `{!Scalar F} `{!Backend F}.
Implicit Types X : matrix F.

(** X13.  For every fold index and fold size, the training rows and the
    test rows of a fold are together the rows of the table, each once:
    no row is both trained on and held out, and none is lost.  The test
    sets of the first [k] folds are disjoint blocks that follow each
    other: together they are the first [k * fold_size] rows. *)
Theorem cv_folds_partition X fold_size :
  (∀ cv_iter, X_train X fold_size cv_iter ++ X_test X fold_size cv_iter ≡ₚ X) ∧
  (∀ k, concat (X_test X fold_size <$> seq 0 k) = take (k * fold_size) X).
Proof.
  split.
  - intros i. unfold X_train, X_test, slice.
    replace ((i + 1) * fold_size - i * fold_size) with fold_size by lia.
    replace ((i + 1) * fold_size) with (i * fold_size + fold_size) by lia.
    rewrite <-drop_drop.
    rewrite <-(take_drop (i * fold_size) X) at 4.
    rewrite <-app_assoc. f_equiv.
    rewrite <-(take_drop fold_size (drop (i * fold_size) X)) at 3.
    apply Permutation_app_comm.
  - induction k as [|k IH]; [done|].
    rewrite seq_S, fmap_app, concat_app, IH. simpl. rewrite app_nil_r.
    unfold X_test, slice.
    replace ((k + 1) * fold_size - k * fold_size) with fold_size by lia.
    rewrite take_take_drop. f_equal. lia.
Qed.

Lemma insert_prefix_drop {A} (l1 l0 : list A) k v :
  length l1 = k → k < length l0 →
  <[k := v]> (l1 ++ drop k l0) = (l1 ++ [v]) ++ drop (S k) l0.
Proof.
  intros Hl Hk. replace k with (length l1 + 0) at 1 by lia.
  rewrite insert_app_r.
  destruct (lookup_lt_is_Some_2 l0 k Hk) as [x Hx].
  rewrite (drop_S _ _ _ Hx). simpl. by rewrite <-app_assoc.
Qed.

(** The loop over the first [k] folds, when each of them returns. *)
Lemma cv_loop_prefix X ps pt lambda_L lambda_S fold_size d tau tol
    max_iter stop_cond_interval ll0 rk0 sp0 (K k : nat) :
  let fold := cv_fold X ps pt lambda_L lambda_S fold_size d tau tol
                max_iter stop_cond_interval in
  length ll0 = K → length rk0 = K → length sp0 = K → k ≤ K →
  (∀ i, i < k → is_Ok (fold i)) →
  for_each (cv_step X ps pt lambda_L lambda_S fold_size d tau tol
              max_iter stop_cond_interval) (ll0, rk0, sp0) (seq 0 k)
  = Ok (((λ i, (fold_value (fold i)).1.1) <$> seq 0 k) ++ drop k ll0,
        ((λ i, (fold_value (fold i)).1.2) <$> seq 0 k) ++ drop k rk0,
        ((λ i, (fold_value (fold i)).2) <$> seq 0 k) ++ drop k sp0).
Proof.
  intros fold Hll0 Hrk0 Hsp0.
  induction k as [|k IH]; intros Hk Hok; [done|].
  rewrite seq_S, for_each_app, IH by (try lia; intros; apply Hok; lia).
  change (0 + k) with k.
  cbn [mbind result_bind for_each cv_step]. fold fold.
  destruct (Hok k ltac:(lia)) as [[[l r] s] Hfold].
  rewrite Hfold. cbn [mbind result_bind].
  rewrite !fmap_app. simpl. rewrite Hfold. simpl.
  by rewrite !insert_prefix_drop by (rewrite ?length_fmap, ?length_seq; lia).
Qed.

(** X14.  The driver and its folds, for at least one fold.  The driver
    returns three arrays exactly when every fold returns, and then each
    array has one entry per fold and entry [i] is what fold [i]
    recorded; when a fold raises and every fold before it returned, the
    driver raises the same exception. *)
Theorem cross_validate_toeplitz_fit_folds X ps pt lambda_L lambda_S
    num_folds tau tol max_iter stop_cond_interval :
  let fold := cv_fold X ps pt lambda_L lambda_S (length X / num_folds)
                (ncols X) tau tol max_iter stop_cond_interval in
  1 ≤ num_folds →
  (∀ ll rk sp,
     cross_validate_toeplitz_fit X ps pt lambda_L lambda_S num_folds
       tau tol max_iter stop_cond_interval = Ok (ll, rk, sp) ↔
     length ll = num_folds ∧ length rk = num_folds ∧
     length sp = num_folds ∧
     ∀ i, i < num_folds →
       ∃ l r s, fold i = Ok (l, r, s) ∧
                ll !! i = Some l ∧ rk !! i = Some r ∧ sp !! i = Some s) ∧
  (∀ i e, i < num_folds → (∀ j, j < i → is_Ok (fold j)) →
     fold i = Raise e →
     cross_validate_toeplitz_fit X ps pt lambda_L lambda_S num_folds
       tau tol max_iter stop_cond_interval = Raise e).
Proof.
  intros fold HK. unfold cross_validate_toeplitz_fit.
  rewrite decide_False by lia. cbn [mbind result_bind].
  split.
  - intros ll rk sp. split.
    + intros Hcv.
      by apply cv_loop_records with (K := num_folds) in Hcv;
        [|by rewrite length_replicate..|lia].
    + intros (Hll & Hrk & Hsp & Hrec).
      rewrite (cv_loop_prefix _ _ _ _ _ _ _ _ _ _ _ _ _ _ num_folds)
        by (rewrite ?length_replicate; try done;
            intros i Hi; destruct (Hrec i Hi) as (l & r & s & Hf & _);
            by exists (l, r, s)).
      fold fold. rewrite !drop_ge, !app_nil_r by (by rewrite length_replicate).
      do 2 f_equal; [f_equal|]; apply list_eq; intros i;
        rewrite list_lookup_fmap;
        (destruct (decide (i < num_folds)) as [Hi|Hi];
         [rewrite lookup_seq_lt by done; change (0 + i) with i;
          destruct (Hrec i Hi) as (l & r & s & Hf & Hl & Hr & Hs);
          cbn [fmap option_fmap option_map]; rewrite Hf; by simpl
         |rewrite lookup_seq_ge by lia; symmetry;
          apply lookup_ge_None_2; lia]).
  - intros i e Hi Hok Hfold.
    assert (seq 0 num_folds = seq 0 i ++ i :: seq (S i) (num_folds - S i))
      as ->.
    { replace num_folds with (i + S (num_folds - S i)) at 1 by lia.
      by rewrite seq_app. }
    rewrite for_each_app.
    rewrite (cv_loop_prefix _ _ _ _ _ _ _ _ _ _ _ _ _ _ num_folds)
      by (rewrite ?length_replicate; try done; lia).
    cbn [mbind result_bind for_each cv_step]. fold fold.
    by rewrite Hfold.
Qed.
End cv_driver.

(** Two folds over five rows, without regularisation. *)
Lemma cross_validate_toeplitz_fit_folds_witness :
  let X := [[1%Q]; [2%Q]; [3%Q]; [4%Q]; [5%Q]] in
  let fold := @cv_fold Q Q_scalar Q_backend X 1 1 0%Q 0%Q (length X / 2)
                (ncols X) (1 # 10)%Q (1 # 100000000)%Q 3 20 in
  1 ≤ 2 ∧
  (∀ ll rk sp,
     @cross_validate_toeplitz_fit Q Q_scalar Q_backend X 1 1 0%Q 0%Q 2
       (1 # 10)%Q (1 # 100000000)%Q 3 20 = Ok (ll, rk, sp) ↔
     length ll = 2 ∧ length rk = 2 ∧ length sp = 2 ∧
     ∀ i, i < 2 →
       ∃ l r s, fold i = Ok (l, r, s) ∧
                ll !! i = Some l ∧ rk !! i = Some r ∧ sp !! i = Some s) ∧
  (∀ i e, i < 2 → (∀ j, j < i → is_Ok (fold j)) →
     fold i = Raise e →
     @cross_validate_toeplitz_fit Q Q_scalar Q_backend X 1 1 0%Q 0%Q 2
       (1 # 10)%Q (1 # 100000000)%Q 3 20 = Raise e).
Proof.
  intros X fold. split; [lia|].
  apply (@cross_validate_toeplitz_fit_folds Q Q_scalar Q_backend X 1 1
           0%Q 0%Q 2 (1 # 10)%Q (1 # 100000000)%Q 3 20).
  lia.
Defined.

(* ================================================================== *)
(** * Further properties of the grid search *)
(* ================================================================== *)

(** A loop over [0 .. n-1] that returns has kept an invariant its body
    keeps. *)
Lemma for_each_seq_keeps {St} (body : St → nat → result St)
    (I : nat → St → Prop) n s s' :
  I 0 s →
  (∀ k s s', k < n → I k s → body s k = Ok s' → I (S k) s') →
  for_each body s (seq 0 n) = Ok s' → I n s'.
Proof.
  intros H0 Hstep. revert s'. induction n as [|n IH]; intros s' Hloop.
  - by injection Hloop as <-.
  - rewrite seq_S, for_each_app in Hloop.
    destruct (for_each body s (seq 0 n)) as [s1|] eqn:Hn; [|done].
    cbn [mbind result_bind for_each] in Hloop.
    destruct (body s1 (0 + n)) as [s2|] eqn:Hb; [|done].
    cbn [mbind result_bind] in Hloop. injection Hloop as <-.
    apply (Hstep n s1); [lia| |done].
    apply IH; [|done]. intros k s0 s0' Hk. apply Hstep. lia.
Qed.

(** A cell of a three-dimensional table after an assignment to a
    cell. *)
Lemma set_cell_lookup {A} (T : list (matrix A)) nL nS i j v i' j' :
  length T = nL → Forall (λ plane, length plane = nS) T →
  i < nL → j < nS →
  length (set_cell i j v T) = nL ∧
  Forall (λ plane, length plane = nS) (set_cell i j v T) ∧
  set_cell i j v T !! i' ≫= (λ plane : matrix A, plane !! j')
  = if decide (i' = i ∧ j' = j) then Some v
    else T !! i' ≫= (λ plane : matrix A, plane !! j').
Proof.
  intros HT Hplanes Hi Hj. unfold set_cell.
  split; [by rewrite length_alter|]. split.
  - apply Forall_lookup. intros k plane. rewrite list_lookup_alter.
    destruct (decide (i = k)) as [->|Hne].
    + destruct (T !! k) as [p|] eqn:Hp; [|done]. simpl. intros [= <-].
      rewrite length_insert. by apply (Forall_lookup_1 _ _ _ _ Hplanes Hp).
    + intros Hp. by apply (Forall_lookup_1 _ _ _ _ Hplanes Hp).
  - rewrite list_lookup_alter.
    destruct (decide (i = i')) as [->|Hne].
    + destruct (lookup_lt_is_Some_2 T i') as [p Hp]; [lia|].
      rewrite Hp. simpl.
      pose proof (Forall_lookup_1 _ _ _ _ Hplanes Hp) as Hlen. simpl in Hlen.
      destruct (decide (j' = j)) as [->|Hnej].
      * rewrite decide_True by done.
        by rewrite list_lookup_insert_eq by lia.
      * rewrite decide_False by (intros [_ ?]; done).
        by rewrite list_lookup_insert_ne.
    + by rewrite decide_False by (intros [? _]; done).
Qed.

Section grid_tables.
Context {F : Type} `{!Scalar F} `{!Backend F}.
Implicit Types X : matrix F.

(** X15.  Whenever [regularize_cov] returns, each cell of the three
    tables it returns holds what the cross-validation driver returned
    for that cell's pair: cell [(i, j)] is the result for
    [lambda_L_vals[i]] and [lambda_S_vals[j]]. *)
Theorem regularize_cov_tables X ps pt lambda_S_vals lambda_L_vals num_folds
    tau tol max_iter stop_cond_interval final_cov_reg ll rk sp :
  regularize_cov X ps pt lambda_S_vals lambda_L_vals num_folds tau tol
    max_iter stop_cond_interval = Ok (final_cov_reg, ll, rk, sp) →
  ∀ i j lambda_L lambda_S,
    lambda_L_vals !! i = Some lambda_L →
    lambda_S_vals !! j = Some lambda_S →
    ∃ ll_cv rk_cv sp_cv,
      cross_validate_toeplitz_fit X ps pt lambda_L lambda_S num_folds
        tau tol max_iter stop_cond_interval = Ok (ll_cv, rk_cv, sp_cv) ∧
      ll !! i ≫= (λ plane : matrix (ext F), plane !! j) = Some ll_cv ∧
      rk !! i ≫= (λ plane : matrix nat, plane !! j) = Some rk_cv ∧
      sp !! i ≫= (λ plane : matrix F, plane !! j) = Some sp_cv.
Proof.
  unfold regularize_cov. intros Hreg.
  set (nL := length lambda_L_vals) in *.
  set (nS := length lambda_S_vals) in *.
  set (cell := grid_cell X ps pt lambda_S_vals lambda_L_vals num_folds tau
                 tol max_iter stop_cond_interval) in *.
  set (recorded := λ (st : @grid_state F) (i j : nat),
         ∀ lambda_L lambda_S,
           lambda_L_vals !! i = Some lambda_L →
           lambda_S_vals !! j = Some lambda_S →
           ∃ ll_cv rk_cv sp_cv,
             cross_validate_toeplitz_fit X ps pt lambda_L lambda_S num_folds
               tau tol max_iter stop_cond_interval
             = Ok (ll_cv, rk_cv, sp_cv) ∧
             g_log_likelihood_vals st !! i
               ≫= (λ plane : matrix (ext F), plane !! j) = Some ll_cv ∧
             g_rank_vals st !! i
               ≫= (λ plane : matrix nat, plane !! j) = Some rk_cv ∧
             g_sparsity_vals st !! i
               ≫= (λ plane : matrix F, plane !! j) = Some sp_cv).
  set (shaped := λ st : @grid_state F,
         (length (g_log_likelihood_vals st) = nL ∧
          Forall (λ plane, length plane = nS) (g_log_likelihood_vals st)) ∧
         (length (g_rank_vals st) = nL ∧
          Forall (λ plane, length plane = nS) (g_rank_vals st)) ∧
         (length (g_sparsity_vals st) = nL ∧
          Forall (λ plane, length plane = nS) (g_sparsity_vals st))).
  set (ginv := λ (a b : nat) (st : @grid_state F),
         shaped st ∧
         ∀ i j, j < nS → i < a ∨ (i = a ∧ j < b) → recorded st i j).
  assert (∀ a b st st', a < nL → b < nS → ginv a b st →
            cell st a b = Ok st' → ginv a (S b) st') as Hcell.
  { intros a b st st' Ha Hb [((Hl1 & Hp1) & (Hl2 & Hp2) & (Hl3 & Hp3)) Hrec].
    unfold cell, grid_cell.
    destruct (lambda_L_vals !! a) as [lambda_L|] eqn:HL; [|done].
    destruct (lambda_S_vals !! b) as [lambda_S|] eqn:HS; [|done].
    cbn [or_raise mbind result_bind].
    destruct (cross_validate_toeplitz_fit _ _ _ _ _ _ _ _ _ _)
      as [[[ll_cv rk_cv] sp_cv]|] eqn:Hcv; [|done].
    cbn [mbind result_bind]. intros [= <-].
    split.
    - unfold shaped. cbn [g_log_likelihood_vals g_rank_vals g_sparsity_vals].
      split_and!;
        by eapply (set_cell_lookup _ nL nS a b _ 0 0).
    - intros i j Hj Hij lambda_L' lambda_S' HL' HS'.
      cbn [g_log_likelihood_vals g_rank_vals g_sparsity_vals].
      destruct (set_cell_lookup (g_log_likelihood_vals st) nL nS a b ll_cv
                  i j Hl1 Hp1 Ha Hb) as (_ & _ & ->).
      destruct (set_cell_lookup (g_rank_vals st) nL nS a b rk_cv
                  i j Hl2 Hp2 Ha Hb) as (_ & _ & ->).
      destruct (set_cell_lookup (g_sparsity_vals st) nL nS a b sp_cv
                  i j Hl3 Hp3 Ha Hb) as (_ & _ & ->).
      destruct (decide (i = a ∧ j = b)) as [[-> ->]|Hne].
      + rewrite HL in HL'. rewrite HS in HS'.
        injection HL' as <-. injection HS' as <-.
        by exists ll_cv, rk_cv, sp_cv.
      + apply Hrec; [done| |done..]. lia. }
  destruct (for_each _ _ (seq 0 nL)) as [st|] eqn:Hloop; [|done].
  cbn [mbind result_bind] in Hreg.
  assert (ginv nL 0 st) as [_ Hrec].
  { revert Hloop. apply (for_each_seq_keeps _ (λ a st, ginv a 0 st)).
    - split.
      + unfold shaped.
        cbn [g_log_likelihood_vals g_rank_vals g_sparsity_vals].
        rewrite !length_replicate.
        split_and!; try done; apply Forall_replicate;
          by rewrite length_replicate.
      + intros i j _ [Hi|[_ Hj]]; lia.
    - intros a st0 st1 Ha Hinv Hinner.
      assert (ginv a nS st1) as [Hsh Hrec].
      { revert Hinner. apply (for_each_seq_keeps _ (λ b st, ginv a b st));
          [done|].
        intros b s s' Hb. by apply Hcell. }
      split; [done|]. intros i j Hj [Hi|[_ Hj']]; [|lia].
      apply Hrec; [done|]. lia. }
  destruct (select_opt _ _ _) as [[lambda_L_opt lambda_S_opt]|]; [|done].
  cbn [mbind result_bind] in Hreg.
  destruct (g_lambda st) as [[lambda_L lambda_S]|]; [|done].
  cbn [or_raise mbind result_bind] in Hreg.
  destruct (prox_grad_robust_toeplitz_kron_pca _ _ _ _ _ _ _ _ _)
    as [[[cov rank] sparsity]|]; [|done].
  cbn [mbind result_bind] in Hreg. injection Hreg as _ <- <- <-.
  intros i j lambda_L' lambda_S' HL HS.
  apply Hrec; [|left|done..].
  - by apply lookup_lt_Some in HS.
  - by apply lookup_lt_Some in HL.
Qed.

(** X17.  A grid with no value on one of its axes makes the grid search
    fail with [ValueError], at the [argmax] of an empty array, whatever
    the other arguments are. *)
Theorem regularize_cov_empty_grid X ps pt lambda_S_vals lambda_L_vals
    num_folds tau tol max_iter stop_cond_interval :
  lambda_L_vals = [] ∨ lambda_S_vals = [] →
  regularize_cov X ps pt lambda_S_vals lambda_L_vals num_folds tau tol
    max_iter stop_cond_interval = Raise ValueError.
Proof.
  intros Hempty. unfold regularize_cov.
  assert (∃ st, for_each (λ st lambda_L_idx,
              for_each (λ st lambda_S_idx,
                  grid_cell X ps pt lambda_S_vals lambda_L_vals num_folds
                    tau tol max_iter stop_cond_interval
                    st lambda_L_idx lambda_S_idx)
                st (seq 0 (length lambda_S_vals)))
            (GridState
               (replicate (length lambda_L_vals)
                  (replicate (length lambda_S_vals)
                     (replicate num_folds (Fin fzero))))
               (replicate (length lambda_L_vals)
                  (replicate (length lambda_S_vals)
                     (replicate num_folds 0)))
               (replicate (length lambda_L_vals)
                  (replicate (length lambda_S_vals)
                     (replicate num_folds fzero))) None)
            (seq 0 (length lambda_L_vals)) = Ok st ∧
          ravel ((λ plane : matrix (ext F), ext_mean <$> plane)
                 <$> g_log_likelihood_vals st) = []) as (st & -> & Hll).
  { destruct Hempty as [-> | ->].
    - eexists. split; [done|]. done.
    - eexists. split; [by apply for_each_unchanged|].
      simpl. unfold ravel.
      induction (length lambda_L_vals) as [|n IH]; [done|]. done. }
  cbn [mbind result_bind]. unfold select_opt. by rewrite Hll.
Qed.
End grid_tables.

(** The grid [lambda_L] in [0, 1000], [lambda_S] in [0] over five rows
    and two folds. *)
Lemma regularize_cov_tables_witness :
  let X := [[1%Q]; [2%Q]; [3%Q]; [4%Q]; [5%Q]] in
  let ll := [[[Fin (-11797 # 1356)%Q; Fin (-608113 # 52884)%Q]];
             [[NegInf; NegInf]]] in
  let rk := [[[1; 1]]; [[0; 0]]] in
  let sp := [[[0%Q; 0%Q]]; [[0%Q; 0%Q]]] in
  @regularize_cov Q Q_scalar Q_backend X 1 1 [0%Q] [0%Q; 1000%Q] 2
    (1 # 10)%Q (1 # 100000000)%Q 3 20 = Ok ([[0%Q]], ll, rk, sp) ∧
  ∀ i j lambda_L lambda_S,
    [0%Q; 1000%Q] !! i = Some lambda_L →
    [0%Q] !! j = Some lambda_S →
    ∃ ll_cv rk_cv sp_cv,
      @cross_validate_toeplitz_fit Q Q_scalar Q_backend X 1 1 lambda_L
        lambda_S 2 (1 # 10)%Q (1 # 100000000)%Q 3 20
      = Ok (ll_cv, rk_cv, sp_cv) ∧
      ll !! i ≫= (λ plane : matrix (ext Q), plane !! j) = Some ll_cv ∧
      rk !! i ≫= (λ plane : matrix nat, plane !! j) = Some rk_cv ∧
      sp !! i ≫= (λ plane : matrix Q, plane !! j) = Some sp_cv.
Proof.
  intros X ll rk sp.
  assert (@regularize_cov Q Q_scalar Q_backend X 1 1 [0%Q] [0%Q; 1000%Q] 2
            (1 # 10)%Q (1 # 100000000)%Q 3 20 = Ok ([[0%Q]], ll, rk, sp))
    as Hreg by (vm_compute; reflexivity).
  split; [exact Hreg|].
  exact (@regularize_cov_tables Q Q_scalar Q_backend X 1 1 [0%Q]
           [0%Q; 1000%Q] 2 (1 # 10)%Q (1 # 100000000)%Q 3 20
           [[0%Q]] ll rk sp Hreg).
Defined.

Lemma regularize_cov_refit_witness :
  let X := [[1%Q]; [2%Q]; [3%Q]; [4%Q]; [5%Q]] in
  let ll := [[[Fin (-11797 # 1356)%Q; Fin (-608113 # 52884)%Q]];
             [[NegInf; NegInf]]] in
  let rk := [[[1; 1]]; [[0; 0]]] in
  let sp := [[[0%Q; 0%Q]]; [[0%Q; 0%Q]]] in
  @regularize_cov Q Q_scalar Q_backend X 1 1 [0%Q] [0%Q; 1000%Q] 2
    (1 # 10)%Q (1 # 100000000)%Q 3 20 = Ok ([[0%Q]], ll, rk, sp) ∧
  ∃ lambda_L lambda_S rank sparsity,
    last [0%Q; 1000%Q] = Some lambda_L ∧
    last [0%Q] = Some lambda_S ∧
    @prox_grad_robust_toeplitz_kron_pca Q Q_scalar Q_backend (np_cov_bias X)
      1 1 lambda_L lambda_S (1 # 10)%Q (1 # 100000000)%Q 3 20
    = Ok ([[0%Q]], rank, sparsity).
Proof.
  intros X ll rk sp.
  assert (@regularize_cov Q Q_scalar Q_backend X 1 1 [0%Q] [0%Q; 1000%Q] 2
            (1 # 10)%Q (1 # 100000000)%Q 3 20 = Ok ([[0%Q]], ll, rk, sp))
    as Hreg by (vm_compute; reflexivity).
  split; [exact Hreg|].
  exact (@regularize_cov_refit Q Q_scalar Q_backend X 1 1 [0%Q]
           [0%Q; 1000%Q] 2 (1 # 10)%Q (1 # 100000000)%Q 3 20
           [[0%Q]] ll rk sp Hreg).
Defined.

Lemma regularize_cov_empty_grid_witness :
  (@nil Q = [] ∨ [0%Q] = []) ∧
  @regularize_cov Q Q_scalar Q_backend [[1%Q]; [2%Q]] 1 1 [0%Q] [] 2
    (1 # 10)%Q (1 # 100000000)%Q 3 20 = Raise ValueError.
Proof.
  split; [by left|].
  exact (@regularize_cov_empty_grid Q Q_scalar Q_backend [[1%Q]; [2%Q]] 1 1
           [0%Q] [] 2 (1 # 10)%Q (1 # 100000000)%Q 3 20 (or_introl eq_refl)).
Defined.

(* ------------------------------------------------------------------ *)
(** ** The selected pair *)

Lemma ext_ltb_R_irrefl (x : ext R) : ext_ltb x x = false.
Proof.
  destruct x as [|a]; [done|]. simpl. destruct (Rlt_dec a a); [lra|done].
Qed.

Lemma ext_ltb_R_above (b x y : ext R) :
  ext_ltb b x = true → ext_ltb b y = false → ext_ltb x y = false.
Proof.
  destruct b as [|b], x as [|x], y as [|y]; simpl; try done.
  destruct (Rlt_dec b x), (Rlt_dec b y), (Rlt_dec x y); try done; lra.
Qed.

Lemma ext_ltb_R_below (b x y : ext R) :
  ext_ltb b y = false → ext_ltb b x = true → ext_ltb y x = true.
Proof.
  destruct b as [|b], x as [|x], y as [|y]; simpl; try done.
  destruct (Rlt_dec b x), (Rlt_dec b y), (Rlt_dec y x); try done; lra.
Qed.

(** The scan of [argmax]: with the best entry of the part already
    scanned in hand, the scan of the rest ends on the first maximum of
    the whole array. *)
Lemma argmax_from_first_max (scanned l : list (ext R)) bi b :
  scanned !! bi = Some b →
  (∀ m y, scanned !! m = Some y → ext_ltb b y = false) →
  (∀ m y, m < bi → scanned !! m = Some y → ext_ltb y b = true) →
  ∃ x, (scanned ++ l) !! argmax_from (length scanned) (bi, b) l = Some x ∧
       (∀ m y, (scanned ++ l) !! m = Some y → ext_ltb x y = false) ∧
       (∀ m y, m < argmax_from (length scanned) (bi, b) l →
          (scanned ++ l) !! m = Some y → ext_ltb y x = true).
Proof.
  revert scanned bi b. induction l as [|x l IH]; intros scanned bi b Hb Hmax Hfirst.
  - rewrite app_nil_r. simpl. by exists b.
  - cbn [argmax_from fst snd].
    replace (scanned ++ x :: l) with ((scanned ++ [x]) ++ l)
      by (by rewrite <-app_assoc).
    replace (S (length scanned)) with (length (scanned ++ [x]))
      by (rewrite length_app; simpl; lia).
    pose proof (lookup_lt_Some _ _ _ Hb) as Hbi.
    destruct (ext_ltb b x) eqn:Hbx.
    + apply IH.
      * rewrite lookup_app_r by done. by rewrite Nat.sub_diag.
      * intros m y Hy. apply lookup_app_Some in Hy as [Hy|[_ Hy]].
        -- apply (ext_ltb_R_above b); [done|by apply (Hmax m)].
        -- apply list_lookup_singleton_Some in Hy as [_ <-].
           apply ext_ltb_R_irrefl.
      * intros m y Hm Hy. rewrite lookup_app_l in Hy by done.
        apply (ext_ltb_R_below b); [by apply (Hmax m)|done].
    + apply IH.
      * by rewrite lookup_app_l.
      * intros m y Hy. apply lookup_app_Some in Hy as [Hy|[_ Hy]].
        -- by apply (Hmax m).
        -- by apply list_lookup_singleton_Some in Hy as [_ <-].
      * intros m y Hm Hy. rewrite lookup_app_l in Hy by lia.
        by apply (Hfirst m).
Qed.

Lemma argmax_first_max (l : list (ext R)) k :
  argmax l = Ok k →
  ∃ x, l !! k = Some x ∧
       (∀ m y, l !! m = Some y → ext_ltb x y = false) ∧
       (∀ m y, m < k → l !! m = Some y → ext_ltb y x = true).
Proof.
  destruct l as [|x l]; [done|]. intros [= <-].
  apply (argmax_from_first_max [x] l 0 x); [done| |].
  - intros m y Hy. apply list_lookup_singleton_Some in Hy as [_ <-].
    apply ext_ltb_R_irrefl.
  - intros m y Hm. lia.
Qed.

(** X18.  Over the reals, on a table of log-likelihoods with one plane
    per value of [lambda_L], one cell per value of [lambda_S] in each
    plane and at least one fold in each cell, the pair that the grid
    search selects has a mean log-likelihood that no other pair
    exceeds, and every pair before it in row-major order has a mean
    that is strictly smaller: ties go to the first pair. *)
Theorem select_opt_first_maximum (lambda_S_vals lambda_L_vals : list R)
    (ll : list (matrix (ext R))) lambda_L lambda_S :
  length ll = length lambda_L_vals →
  Forall (λ plane, length plane = length lambda_S_vals) ll →
  Forall (Forall (λ cell : list (ext R), cell ≠ [])) ll →
  select_opt lambda_S_vals lambda_L_vals ll = Ok (lambda_L, lambda_S) →
  ∃ i j cell,
    lambda_L_vals !! i = Some lambda_L ∧
    lambda_S_vals !! j = Some lambda_S ∧
    ll !! i ≫= (λ plane : matrix (ext R), plane !! j) = Some cell ∧
    ∀ i' j' cell',
      ll !! i' ≫= (λ plane : matrix (ext R), plane !! j') = Some cell' →
      ext_ltb (ext_mean cell) (ext_mean cell') = false ∧
      (i' * length lambda_S_vals + j' < i * length lambda_S_vals + j →
       ext_ltb (ext_mean cell') (ext_mean cell) = true).
Proof.
  intros Hplanes Hcells _. unfold select_opt.
  set (nL := length lambda_L_vals) in *.
  set (nS := length lambda_S_vals) in *.
  set (T := (λ plane : matrix (ext R), ext_mean <$> plane) <$> ll).
  assert (has_shape T nL nS) as HT.
  { apply has_shape_intro; [unfold T; by rewrite length_fmap|].
    intros i row. unfold T. rewrite list_lookup_fmap.
    destruct (ll !! i) as [plane|] eqn:Hp; [|done]. intros [= <-].
    rewrite length_fmap. by apply (Forall_lookup_1 _ _ _ _ Hcells Hp). }
  assert (∀ i j, i < nL → j < nS →
            ravel T !! (i * nS + j)
            = ext_mean <$> (ll !! i ≫= (λ plane : matrix (ext R),
                                           plane !! j))) as Hlook.
  { intros i j Hi Hj. rewrite (lookup_ravel T nL nS) by done.
    unfold T. rewrite list_lookup_fmap.
    destruct (ll !! i) as [plane|]; [|done]. simpl.
    by rewrite list_lookup_fmap. }
  destruct (argmax (ravel T)) as [k|] eqn:Hk; [|done].
  cbn [mbind result_bind]. unfold unravel_index. cbn [fst snd]. fold nS.
  destruct (lambda_L_vals !! (k / nS)) as [l|] eqn:Hl; [|done].
  destruct (lambda_S_vals !! (k `mod` nS)) as [s|] eqn:Hs; [|done].
  cbn [or_raise mbind result_bind]. intros [= <- <-].
  apply argmax_first_max in Hk as (x & Hx & Hmax & Hfirst).
  pose proof (lookup_lt_Some _ _ _ Hl) as Hi. fold nL in Hi.
  pose proof (lookup_lt_Some _ _ _ Hs) as Hj. fold nS in Hj.
  assert (k = k / nS * nS + k `mod` nS) as Hdiv
    by (pose proof (Nat.div_mod_eq k nS); lia).
  rewrite Hdiv, Hlook in Hx by done.
  destruct (ll !! (k / nS) ≫= (λ plane : matrix (ext R),
                                 plane !! (k `mod` nS)))
    as [cell|] eqn:Hcell; [|done].
  injection Hx as <-.
  exists (k / nS), (k `mod` nS), cell. split_and!; [done..|].
  intros i' j' cell' Hcell'.
  assert (i' < nL ∧ j' < nS) as [Hi' Hj'].
  { destruct (ll !! i') as [plane|] eqn:Hp; [|done]. simpl in Hcell'.
    split.
    - apply lookup_lt_Some in Hp. lia.
    - apply lookup_lt_Some in Hcell'.
      by rewrite (Forall_lookup_1 _ _ _ _ Hcells Hp) in Hcell'. }
  pose proof (Hlook i' j' Hi' Hj') as Hy. rewrite Hcell' in Hy.
  split.
  - by apply (Hmax _ _ Hy).
  - intros Hlt. rewrite <-Hdiv in Hlt. by apply (Hfirst _ _ Hlt Hy).
Qed.

Lemma select_opt_first_maximum_witness :
  let lambda_S_vals := [0%R] in
  let lambda_L_vals := [0%R; 1%R] in
  let ll := [[[Fin 1%R; Fin 3%R]]; [[Fin 4%R; Fin 2%R]]] in
  length ll = length lambda_L_vals ∧
  Forall (λ plane, length plane = length lambda_S_vals) ll ∧
  Forall (Forall (λ cell : list (ext R), cell ≠ [])) ll ∧
  select_opt lambda_S_vals lambda_L_vals ll = Ok (1%R, 0%R) ∧
  ∃ i j cell,
    lambda_L_vals !! i = Some 1%R ∧
    lambda_S_vals !! j = Some 0%R ∧
    ll !! i ≫= (λ plane : matrix (ext R), plane !! j) = Some cell ∧
    ∀ i' j' cell',
      ll !! i' ≫= (λ plane : matrix (ext R), plane !! j') = Some cell' →
      ext_ltb (ext_mean cell) (ext_mean cell') = false ∧
      (i' * length lambda_S_vals + j' < i * length lambda_S_vals + j →
       ext_ltb (ext_mean cell') (ext_mean cell) = true).
Proof.
  intros lambda_S_vals lambda_L_vals ll.
  assert (length ll = length lambda_L_vals) as Hlen by reflexivity.
  assert (Forall (λ plane, length plane = length lambda_S_vals) ll)
    as Hplanes by (repeat constructor).
  assert (Forall (Forall (λ cell : list (ext R), cell ≠ [])) ll)
    as Hcells by (repeat constructor; done).
  assert (select_opt lambda_S_vals lambda_L_vals ll = Ok (1%R, 0%R)) as Hsel.
  { unfold select_opt, argmax, ext_mean, ravel. simpl.
    destruct (Rlt_dec _ _) as [Hlt|Hge]; [done|]. exfalso. apply Hge.
    change (Z.of_nat 2) with 2%Z. lra. }
  split; [exact Hlen|]. split; [exact Hplanes|]. split; [exact Hcells|].
  split; [exact Hsel|].
  exact (select_opt_first_maximum lambda_S_vals lambda_L_vals ll 1%R 0%R
           Hlen Hplanes Hcells Hsel).
Defined.

(* ================================================================== *)
(** * Inputs of the wrong size *)
(* ================================================================== *)

(** Rearranging what the inverse rearrangement returns. *)
Lemma pv_rearrange_of_inv {A} (M : matrix A) (ps pt : nat) :
  has_shape M (pt ^ 2) (ps ^ 2) →
  ∃ C, pv_rearrange_inv M ps pt = Ok C ∧
       has_shape C (ps * pt) (ps * pt) ∧
       pv_rearrange C ps pt = Ok M.
Proof.
  intros HM. unfold pv_rearrange, pv_rearrange_inv.
  rewrite pv_permutation_Ok. cbn [mbind result_bind].
  pose proof (length_ravel M _ _ HM) as Hx.
  destruct (take_idx_argsort_rev (ravel M) (pv_perm ps pt))
    as (y & Hy & Hly & Hinv).
  { rewrite pv_perm_Permutation, Hx. f_equiv. lia. }
  assert (length y = ps * pt * (ps * pt)) as Hly'
    by (rewrite Hly, Hx, !Nat.pow_2_r; lia).
  exists (chunks (ps * pt) (ps * pt) y).
  rewrite Hy. cbn [mbind result_bind].
  split; [by apply reshape2_Ok|]. split; [by apply chunks_has_shape|].
  unfold ravel at 1. rewrite concat_chunks, Hinv by done.
  cbn [mbind result_bind]. by apply reshape2_ravel.
Qed.

Section wrong_size.
Context {F : Type} `{!Scalar F} `{!Backend F}.

(** With at least one iteration and a step for each, the unconstrained
    solver returns on every input that is large enough. *)
Lemma prox_grad_robust_kron_pca_Ok (sample_cov : matrix F) ps pt
    lambda_L lambda_S num_iter tau :
  1 ≤ ps → 1 ≤ pt →
  ps * pt * (ps * pt) ≤ size sample_cov →
  1 ≤ num_iter →
  (∀ ts, tau = TauSchedule ts → length ts = num_iter) →
  svd_shapes (pt ^ 2) (ps ^ 2) →
  is_Ok (prox_grad_robust_kron_pca sample_cov ps pt lambda_L lambda_S
           num_iter tau).
Proof.
  intros Hps Hpt Hsize Hn Hts Hsvd.
  destruct (pv_rearrange_Ok sample_cov ps pt Hsize) as (R & HR & HRs & _).
  assert (0 < pt ^ 2 ∧ 0 < ps ^ 2) as [Hm Hk]
    by (rewrite !Nat.pow_2_r; nia).
  pose proof (kron_loop_spec R lambda_L lambda_S tau num_iter num_iter
                Hts ltac:(lia)) as Hloop.
  pose proof (spec_iterates_shape R lambda_L lambda_S tau _ _ num_iter
                Hsvd Hm Hk HRs) as Hshape.
  destruct (spec_iterates R lambda_L lambda_S tau num_iter)
    as [[L_n S_n] M_n].
  destruct Hshape as (HL & HS & _).
  destruct (pv_rearrange_inv_Ok (madd L_n S_n) ps pt) as (out & Hout & _).
  { rewrite (size_has_shape _ (pt ^ 2) (ps ^ 2))
      by by apply has_shape_madd.
    rewrite !Nat.pow_2_r. lia. }
  exists out.
  unfold prox_grad_robust_kron_pca. rewrite HR. cbn [mbind result_bind].
  rewrite Hloop. cbn [mbind result_bind st_L st_S].
  rewrite !decide_False by lia. done.
Qed.

(** C9, as the code has it.  Nothing compares the side length of the
    input with [ps*pt].  An input with fewer than [(ps*pt)^2] entries
    makes the gather of [pv_rearrange] fail with [IndexError], and
    both solvers fail with it before they iterate.  An input with more
    entries is not rejected.  [pv_rearrange] returns the array [R] of
    shape [(pt^2, ps^2)] whose entry [k] is the entry of the flattened
    input at position [perm[k]]; each solver does on the input exactly
    what it does on the [(ps*pt, ps*pt)] array [C'] of the selected
    entries, whose rearrangement is [R]; and under the conditions under
    which it returns on an input of the right size, it returns on the
    oversized one. *)
Theorem shape_mismatch_behaviour (sample_cov : matrix F) ps pt
    lambda_L lambda_S num_iter tau_a tau tol max_iter stop_cond_interval :
  1 ≤ ps → 1 ≤ pt →
  (size sample_cov < ps * pt * (ps * pt) →
     pv_rearrange sample_cov ps pt = Raise IndexError ∧
     prox_grad_robust_kron_pca sample_cov ps pt lambda_L lambda_S
       num_iter tau_a = Raise IndexError ∧
     prox_grad_robust_toeplitz_kron_pca sample_cov ps pt lambda_L lambda_S
       tau tol max_iter stop_cond_interval = Raise IndexError) ∧
  (ps * pt * (ps * pt) ≤ size sample_cov →
     ∃ R C',
       pv_rearrange sample_cov ps pt = Ok R ∧
       has_shape R (pt ^ 2) (ps ^ 2) ∧
       (∀ k i, pv_perm ps pt !! k = Some i →
               ravel R !! k = ravel sample_cov !! i) ∧
       has_shape C' (ps * pt) (ps * pt) ∧
       pv_rearrange C' ps pt = Ok R ∧
       prox_grad_robust_kron_pca sample_cov ps pt lambda_L lambda_S
         num_iter tau_a
       = prox_grad_robust_kron_pca C' ps pt lambda_L lambda_S
           num_iter tau_a ∧
       prox_grad_robust_toeplitz_kron_pca sample_cov ps pt lambda_L
         lambda_S tau tol max_iter stop_cond_interval
       = prox_grad_robust_toeplitz_kron_pca C' ps pt lambda_L
           lambda_S tau tol max_iter stop_cond_interval ∧
       (1 ≤ num_iter →
        (∀ ts, tau_a = TauSchedule ts → length ts = num_iter) →
        svd_shapes (pt ^ 2) (ps ^ 2) →
        is_Ok (prox_grad_robust_kron_pca sample_cov ps pt lambda_L
                 lambda_S num_iter tau_a)) ∧
       (1 ≤ max_iter → 1 ≤ stop_cond_interval →
        svd_shapes (2 * pt - 1) (ps ^ 2) →
        is_Ok (prox_grad_robust_toeplitz_kron_pca sample_cov ps pt
                 lambda_L lambda_S tau tol max_iter stop_cond_interval))).
Proof.
  intros Hps Hpt. split.
  - intros Hsize.
    pose proof (pv_rearrange_IndexError sample_cov ps pt Hps Hpt Hsize)
      as HR.
    split; [done|]. split.
    + unfold prox_grad_robust_kron_pca. by rewrite HR.
    + unfold prox_grad_robust_toeplitz_kron_pca.
      destruct (build_P_Ok (F := F) pt Hpt) as [P ->].
      cbn [mbind result_bind]. by rewrite HR.
  - intros Hsize.
    destruct (pv_rearrange_Ok sample_cov ps pt Hsize)
      as (R & HR & HRs & Hent).
    destruct (pv_rearrange_of_inv R ps pt HRs) as (C' & _ & HCs & HC').
    exists R, C'. split_and!; try done.
    + unfold prox_grad_robust_kron_pca. by rewrite HR, HC'.
    + unfold prox_grad_robust_toeplitz_kron_pca. by rewrite HR, HC'.
    + intros Hn Hts Hsvd. by apply prox_grad_robust_kron_pca_Ok.
    + intros Hiter Hint Hsvd.
      by apply prox_grad_robust_toeplitz_kron_pca_Ok.
Qed.
End wrong_size.

(** The two cases on rational inputs with [ps = pt = 1]: an empty input
    is too small, and a 2-by-2 input is too large. *)
Lemma shape_mismatch_behaviour_witness :
  (1 ≤ 1 ∧ 1 ≤ 1 ∧ size (@nil (list Q)) < 1 * 1 * (1 * 1) ∧
   pv_rearrange (@nil (list Q)) 1 1 = Raise IndexError ∧
   @prox_grad_robust_kron_pca Q Q_scalar Q_backend [] 1 1 0%Q 0%Q
     1 (TauScalar 1%Q) = Raise IndexError ∧
   @prox_grad_robust_toeplitz_kron_pca Q Q_scalar Q_backend [] 1 1 0%Q 0%Q
     (1 # 10)%Q (1 # 100)%Q 1 20 = Raise IndexError) ∧
  (let C := [[1%Q; 2%Q]; [3%Q; 4%Q]] in
   1 ≤ 1 ∧ 1 ≤ 1 ∧ 1 * 1 * (1 * 1) ≤ size C ∧
   1 ≤ 1 ∧ 1 ≤ 20 ∧
   (∀ ts : list Q, TauScalar 1%Q = TauSchedule ts → length ts = 1) ∧
   @svd_shapes Q Q_backend (1 ^ 2) (1 ^ 2) ∧
   @svd_shapes Q Q_backend (2 * 1 - 1) (1 ^ 2) ∧
   ∃ R C',
     pv_rearrange C 1 1 = Ok R ∧
     has_shape R (1 ^ 2) (1 ^ 2) ∧
     (∀ k i, pv_perm 1 1 !! k = Some i → ravel R !! k = ravel C !! i) ∧
     has_shape C' (1 * 1) (1 * 1) ∧
     pv_rearrange C' 1 1 = Ok R ∧
     @prox_grad_robust_kron_pca Q Q_scalar Q_backend C 1 1 0%Q 0%Q
       1 (TauScalar 1%Q)
     = @prox_grad_robust_kron_pca Q Q_scalar Q_backend C' 1 1 0%Q 0%Q
         1 (TauScalar 1%Q) ∧
     @prox_grad_robust_toeplitz_kron_pca Q Q_scalar Q_backend C 1 1 0%Q 0%Q
       (1 # 10)%Q (1 # 100)%Q 1 20
     = @prox_grad_robust_toeplitz_kron_pca Q Q_scalar Q_backend C' 1 1
         0%Q 0%Q (1 # 10)%Q (1 # 100)%Q 1 20 ∧
     is_Ok (@prox_grad_robust_kron_pca Q Q_scalar Q_backend C 1 1 0%Q 0%Q
              1 (TauScalar 1%Q)) ∧
     is_Ok (@prox_grad_robust_toeplitz_kron_pca Q Q_scalar Q_backend C 1 1
              0%Q 0%Q (1 # 10)%Q (1 # 100)%Q 1 20)).
Proof.
  assert (size (@nil (list Q)) < 1 * 1 * (1 * 1)) as Hsmall
    by (vm_compute; lia).
  assert (1 * 1 * (1 * 1) ≤ size [[1%Q; 2%Q]; [3%Q; 4%Q]]) as Hlarge
    by (vm_compute; lia).
  assert (∀ ts : list Q, TauScalar 1%Q = TauSchedule ts → length ts = 1)
    as Hts by (intros ts Hts; discriminate Hts).
  assert (@svd_shapes Q Q_backend (1 ^ 2) (1 ^ 2)) as Hsvd1
    by (apply svd_row_shapes; simpl; lia).
  assert (@svd_shapes Q Q_backend (2 * 1 - 1) (1 ^ 2)) as Hsvd2
    by (apply svd_row_shapes; simpl; lia).
  split.
  - split; [lia|]. split; [lia|]. split; [exact Hsmall|].
    exact (proj1 (@shape_mismatch_behaviour Q Q_scalar Q_backend
                    [] 1 1 0%Q 0%Q 1 (TauScalar 1%Q) (1 # 10)%Q (1 # 100)%Q
                    1 20 ltac:(lia) ltac:(lia)) Hsmall).
  - intros C.
    split; [lia|]. split; [lia|]. split; [exact Hlarge|].
    split; [lia|]. split; [lia|]. split; [exact Hts|].
    split; [exact Hsvd1|]. split; [exact Hsvd2|].
    destruct (proj2 (@shape_mismatch_behaviour Q Q_scalar Q_backend
                       C 1 1 0%Q 0%Q 1 (TauScalar 1%Q) (1 # 10)%Q
                       (1 # 100)%Q 1 20 ltac:(lia) ltac:(lia)) Hlarge)
      as (R & C' & HR & HRs & Hent & HCs & HC' & Hk & Ht & Hkok & Htok).
    exists R, C'. split_and!; try done.
    + apply Hkok; [lia|exact Hts|exact Hsvd1].
    + apply Htok; [lia|lia|exact Hsvd2].
Defined.

(** A 2-by-2 input with [ps = pt = 1] (side length 2, not 1) raises no
    error: the solver silently works on the entry at position 0. *)
Lemma oversized_input_is_accepted :
  length [[1%Q; 2%Q]; [3%Q; 4%Q]] = 2 ∧ 2 ≠ 1 * 1 ∧
  pv_rearrange [[1%Q; 2%Q]; [3%Q; 4%Q]] 1 1 = Ok [[1%Q]] ∧
  @prox_grad_robust_kron_pca Q Q_scalar Q_backend
    [[1%Q; 2%Q]; [3%Q; 4%Q]] 1 1 0%Q 0%Q 1 (TauScalar 1%Q) = Ok [[1%Q]] ∧
  @prox_grad_robust_toeplitz_kron_pca Q Q_scalar Q_backend
    [[1%Q; 2%Q]; [3%Q; 4%Q]] 1 1 0%Q 0%Q (1 # 10)%Q (1 # 100)%Q 1 20
  = Ok ([[1%Q]], 1, 0%Q).
Proof. split_and!; [done|lia|vm_compute; reflexivity..]. Qed.

(* ================================================================== *)
(** * The configuration is not checked *)
(* ================================================================== *)

Lemma for_each_ext {St X} (f g : St → X → result St) s xs :
  (∀ s x, f s x = g s x) → for_each f s xs = for_each g s xs.
Proof.
  intros Hfg. revert s. induction xs as [|x xs IH]; intros s; [done|].
  simpl. rewrite Hfg. destruct (g s x); [apply IH|done].
Qed.

Section configuration.
Context {F : Type} `{!Scalar F} `{!Backend F}.
Implicit Types X : matrix F.

(** A non-positive [pt] stops the solver at [np.zeros] in [build_P],
    a negative [ps] at the reshape in [pv_permutation]. *)
Lemma solver_int_ValueError (sample_cov : matrix F) (ps pt : Z)
    lambda_L lambda_S tau tol max_iter stop_cond_interval :
  (pt ≤ 0 ∨ ps < 0)%Z →
  prox_grad_robust_toeplitz_kron_pca_int sample_cov ps pt lambda_L lambda_S
    tau tol max_iter stop_cond_interval = Raise ValueError.
Proof.
  intros Hbad. unfold prox_grad_robust_toeplitz_kron_pca_int, np_zeros.
  destruct (decide (pt ≤ 0)%Z) as [Hpt|Hpt].
  - by rewrite (decide_True (P := (2 * pt - 1 < 0 ∨ pt ^ 2 < 0)%Z))
      by (left; lia).
  - rewrite (decide_False (P := (2 * pt - 1 < 0 ∨ pt ^ 2 < 0)%Z)) by nia.
    cbn [mbind result_bind]. by rewrite decide_True by nia.
Qed.

(** On arguments that are not negative the integer entry points are
    the entry points on natural numbers. *)
Lemma solver_int_nat (sample_cov : matrix F) (ps pt : Z)
    lambda_L lambda_S tau tol max_iter stop_cond_interval :
  (0 ≤ ps)%Z → (0 ≤ pt)%Z →
  prox_grad_robust_toeplitz_kron_pca_int sample_cov ps pt lambda_L lambda_S
    tau tol max_iter stop_cond_interval
  = prox_grad_robust_toeplitz_kron_pca sample_cov (Z.to_nat ps)
      (Z.to_nat pt) lambda_L lambda_S tau tol max_iter stop_cond_interval.
Proof.
  intros Hps Hpt. unfold prox_grad_robust_toeplitz_kron_pca_int.
  destruct (decide (pt = 0)%Z) as [->|Hne].
  - unfold prox_grad_robust_toeplitz_kron_pca, build_P, np_zeros. by simpl.
  - unfold np_zeros at 1.
    rewrite (decide_False (P := (2 * pt - 1 < 0 ∨ pt ^ 2 < 0)%Z)) by nia.
    cbn [mbind result_bind]. by rewrite decide_False by nia.
Qed.

Lemma cv_int_nat X (ps pt num_folds : Z) lambda_L lambda_S tau tol
    max_iter stop_cond_interval :
  (0 ≤ ps)%Z → (0 ≤ pt)%Z → (0 ≤ num_folds)%Z →
  cross_validate_toeplitz_fit_int X ps pt lambda_L lambda_S num_folds
    tau tol max_iter stop_cond_interval
  = cross_validate_toeplitz_fit X (Z.to_nat ps) (Z.to_nat pt) lambda_L
      lambda_S (Z.to_nat num_folds) tau tol max_iter stop_cond_interval.
Proof.
  intros Hps Hpt HK.
  unfold cross_validate_toeplitz_fit_int, cross_validate_toeplitz_fit.
  destruct (decide (num_folds = 0)%Z) as [->|Hne].
  - done.
  - rewrite (decide_False (P := Z.to_nat num_folds = 0)) by lia.
    cbn [mbind result_bind]. rewrite decide_False by lia.
    cbn [mbind result_bind].
    rewrite Z2Nat.inj_div, Nat2Z.id by lia.
    apply for_each_ext. intros [[ll rk] sp] cv_iter.
    unfold cv_step_int, cv_step, cv_fold_int, cv_fold.
    by rewrite solver_int_nat.
Qed.

Lemma regularize_cov_int_nat X (ps pt num_folds : Z) lambda_S_vals
    lambda_L_vals tau tol max_iter stop_cond_interval :
  (0 ≤ ps)%Z → (0 ≤ pt)%Z → (0 ≤ num_folds)%Z →
  regularize_cov_int X ps pt lambda_S_vals lambda_L_vals num_folds
    tau tol max_iter stop_cond_interval
  = regularize_cov X (Z.to_nat ps) (Z.to_nat pt) lambda_S_vals
      lambda_L_vals (Z.to_nat num_folds) tau tol max_iter
      stop_cond_interval.
Proof.
  intros Hps Hpt HK. unfold regularize_cov_int, regularize_cov.
  rewrite decide_False by lia. cbn [mbind result_bind].
  rewrite (for_each_ext _
    (λ st lambda_L_idx,
       for_each (λ st lambda_S_idx,
           grid_cell X (Z.to_nat ps) (Z.to_nat pt) lambda_S_vals
             lambda_L_vals (Z.to_nat num_folds) tau tol max_iter
             stop_cond_interval st lambda_L_idx lambda_S_idx)
         st (seq 0 (length lambda_S_vals)))).
  2:{ intros st iL. apply for_each_ext. intros st' iS.
      unfold grid_cell_int, grid_cell.
      destruct (lambda_L_vals !! iL); [|done].
      destruct (lambda_S_vals !! iS); [|done].
      cbn [or_raise mbind result_bind]. by rewrite cv_int_nat. }
  destruct (for_each _ _ (seq 0 (length lambda_L_vals))) as [st|]; [|done].
  cbn [mbind result_bind].
  destruct (select_opt _ _ _) as [[? ?]|]; [|done].
  cbn [mbind result_bind].
  destruct (g_lambda st) as [[? ?]|]; [|done].
  cbn [or_raise mbind result_bind]. by rewrite solver_int_nat.
Qed.

(** With at least one fold, the driver raises what its first fold
    raises. *)
Lemma cv_int_first_fold X (ps pt num_folds : Z) lambda_L lambda_S tau tol
    max_iter stop_cond_interval e :
  (1 ≤ num_folds)%Z →
  (∀ C, prox_grad_robust_toeplitz_kron_pca_int C ps pt lambda_L lambda_S
          tau tol max_iter stop_cond_interval = Raise e) →
  cross_validate_toeplitz_fit_int X ps pt lambda_L lambda_S num_folds
    tau tol max_iter stop_cond_interval = Raise e.
Proof.
  intros HK Hsolver. unfold cross_validate_toeplitz_fit_int.
  rewrite !decide_False by lia. cbn [mbind result_bind].
  destruct (Z.to_nat num_folds) as [|K] eqn:HKn; [lia|].
  cbn [seq for_each cv_step_int]. unfold cv_fold_int.
  by rewrite Hsolver.
Qed.

(** Over a grid with a value on each axis, the grid search raises what
    the cross-validation of its first pair raises. *)
Lemma regularize_cov_int_first_cell X (ps pt num_folds : Z) lambda_S
    lambda_Ss lambda_L lambda_Ls tau tol max_iter stop_cond_interval e :
  (0 ≤ num_folds)%Z →
  cross_validate_toeplitz_fit_int X ps pt lambda_L lambda_S num_folds
    tau tol max_iter stop_cond_interval = Raise e →
  regularize_cov_int X ps pt (lambda_S :: lambda_Ss) (lambda_L :: lambda_Ls)
    num_folds tau tol max_iter stop_cond_interval = Raise e.
Proof.
  intros HK Hcv. unfold regularize_cov_int.
  rewrite decide_False by lia.
  cbn [mbind result_bind length seq for_each grid_cell_int lookup
       list_lookup or_raise].
  by rewrite Hcv.
Qed.

(** C8, as the code has it.  No entry point checks its configuration:
    what fails is the first statement that cannot handle the value.
    In the Toeplitz-constrained solver, [pt <= 0] fails with
    [ValueError] when [build_P] allocates [P], and a negative [ps] with
    [ValueError] at the reshape of [pv_permutation].  In the
    cross-validation driver, a fold count of 0 fails with
    [ZeroDivisionError] at the division that computes the fold size, a
    negative one with [ValueError] at [np.zeros(num_folds)], and with a
    positive fold count such [ps], [pt] fail in the solver call of the
    first fold.  In the grid search a negative fold count fails with
    [ValueError] at the allocation of the tables, and over a grid with
    a value on each axis a fold count of 0 and such [ps], [pt] fail as
    in the cross-validation of the first pair.  An iteration cap of at
    least 1 that is below the interval of the convergence check is
    accepted: on an input of the right shape, with positive [ps] and
    [pt], the solver returns.  On arguments that are not negative the
    entry points are those on natural numbers. *)
Theorem configuration_is_not_checked (X sample_cov : matrix F)
    (ps pt num_folds : Z) lambda_L lambda_S lambda_Ls lambda_Ss
    lambda_L_vals lambda_S_vals tau tol max_iter stop_cond_interval :
  ((pt ≤ 0 ∨ ps < 0)%Z →
   prox_grad_robust_toeplitz_kron_pca_int sample_cov ps pt lambda_L
     lambda_S tau tol max_iter stop_cond_interval = Raise ValueError) ∧
  (num_folds = 0%Z →
   cross_validate_toeplitz_fit_int X ps pt lambda_L lambda_S num_folds
     tau tol max_iter stop_cond_interval = Raise ZeroDivisionError) ∧
  ((num_folds < 0)%Z →
   cross_validate_toeplitz_fit_int X ps pt lambda_L lambda_S num_folds
     tau tol max_iter stop_cond_interval = Raise ValueError) ∧
  ((1 ≤ num_folds)%Z → (pt ≤ 0 ∨ ps < 0)%Z →
   cross_validate_toeplitz_fit_int X ps pt lambda_L lambda_S num_folds
     tau tol max_iter stop_cond_interval = Raise ValueError) ∧
  ((num_folds < 0)%Z →
   regularize_cov_int X ps pt lambda_S_vals lambda_L_vals num_folds
     tau tol max_iter stop_cond_interval = Raise ValueError) ∧
  (num_folds = 0%Z →
   regularize_cov_int X ps pt (lambda_S :: lambda_Ss)
     (lambda_L :: lambda_Ls) num_folds tau tol max_iter stop_cond_interval
   = Raise ZeroDivisionError) ∧
  ((1 ≤ num_folds)%Z → (pt ≤ 0 ∨ ps < 0)%Z →
   regularize_cov_int X ps pt (lambda_S :: lambda_Ss)
     (lambda_L :: lambda_Ls) num_folds tau tol max_iter stop_cond_interval
   = Raise ValueError) ∧
  ((1 ≤ ps)%Z → (1 ≤ pt)%Z →
   has_shape sample_cov (Z.to_nat ps * Z.to_nat pt)
     (Z.to_nat ps * Z.to_nat pt) →
   svd_shapes (2 * Z.to_nat pt - 1) (Z.to_nat ps ^ 2) →
   1 ≤ max_iter → max_iter < stop_cond_interval →
   is_Ok (prox_grad_robust_toeplitz_kron_pca_int sample_cov ps pt lambda_L
            lambda_S tau tol max_iter stop_cond_interval)) ∧
  ((0 ≤ ps)%Z → (0 ≤ pt)%Z →
   prox_grad_robust_toeplitz_kron_pca_int sample_cov ps pt lambda_L
     lambda_S tau tol max_iter stop_cond_interval
   = prox_grad_robust_toeplitz_kron_pca sample_cov (Z.to_nat ps)
       (Z.to_nat pt) lambda_L lambda_S tau tol max_iter
       stop_cond_interval) ∧
  ((0 ≤ ps)%Z → (0 ≤ pt)%Z → (0 ≤ num_folds)%Z →
   cross_validate_toeplitz_fit_int X ps pt lambda_L lambda_S num_folds
     tau tol max_iter stop_cond_interval
   = cross_validate_toeplitz_fit X (Z.to_nat ps) (Z.to_nat pt) lambda_L
       lambda_S (Z.to_nat num_folds) tau tol max_iter stop_cond_interval) ∧
  ((0 ≤ ps)%Z → (0 ≤ pt)%Z → (0 ≤ num_folds)%Z →
   regularize_cov_int X ps pt lambda_S_vals lambda_L_vals num_folds
     tau tol max_iter stop_cond_interval
   = regularize_cov X (Z.to_nat ps) (Z.to_nat pt) lambda_S_vals
       lambda_L_vals (Z.to_nat num_folds) tau tol max_iter
       stop_cond_interval).
Proof.
  split_and!.
  - apply solver_int_ValueError.
  - intros ->. done.
  - intros HK. unfold cross_validate_toeplitz_fit_int.
    rewrite (decide_False (P := num_folds = 0%Z)) by lia.
    cbn [mbind result_bind]. by rewrite decide_True by done.
  - intros HK Hbad. apply cv_int_first_fold; [done|].
    intros C. by apply solver_int_ValueError.
  - intros HK. unfold regularize_cov_int. by rewrite decide_True by done.
  - intros ->. by apply regularize_cov_int_first_cell.
  - intros HK Hbad. apply regularize_cov_int_first_cell; [lia|].
    apply cv_int_first_fold; [done|].
    intros C. by apply solver_int_ValueError.
  - intros Hps Hpt HC Hsvd Hiter Hcap.
    rewrite solver_int_nat by lia.
    apply prox_grad_robust_toeplitz_kron_pca_Ok; try done; try lia.
    by rewrite (size_has_shape _ _ _ HC).
  - apply solver_int_nat.
  - apply cv_int_nat.
  - apply regularize_cov_int_nat.
Qed.
End configuration.

(** One iteration with a check interval of 20, a fold count of 0 and
    of -2, and [pt = 0], [pt = -1], [ps = -1], on rational inputs. *)
Lemma configuration_is_not_checked_witness :
  let X := [[1%Q]; [2%Q]] in
  ((1 ≤ 1)%Z ∧ (1 ≤ 1)%Z ∧
   has_shape [[1%Q]] (Z.to_nat 1 * Z.to_nat 1) (Z.to_nat 1 * Z.to_nat 1) ∧
   @svd_shapes Q Q_backend (2 * Z.to_nat 1 - 1) (Z.to_nat 1 ^ 2) ∧
   1 ≤ 1 ∧ 1 < 20 ∧
   is_Ok (@prox_grad_robust_toeplitz_kron_pca_int Q Q_scalar Q_backend
            [[1%Q]] 1 1 0%Q 0%Q (1 # 10)%Q (1 # 100000000)%Q 1 20)) ∧
  ((0 ≤ 0 ∨ 1 < 0)%Z ∧
   @prox_grad_robust_toeplitz_kron_pca_int Q Q_scalar Q_backend
     [[1%Q]] 1 0 0%Q 0%Q (1 # 10)%Q (1 # 100000000)%Q 1 20
   = Raise ValueError) ∧
  ((-1 ≤ 0 ∨ 1 < 0)%Z ∧
   @prox_grad_robust_toeplitz_kron_pca_int Q Q_scalar Q_backend
     [[1%Q]] 1 (-1) 0%Q 0%Q (1 # 10)%Q (1 # 100000000)%Q 1 20
   = Raise ValueError) ∧
  ((1 ≤ 0 ∨ -1 < 0)%Z ∧
   @prox_grad_robust_toeplitz_kron_pca_int Q Q_scalar Q_backend
     [[1%Q]] (-1) 1 0%Q 0%Q (1 # 10)%Q (1 # 100000000)%Q 1 20
   = Raise ValueError) ∧
  @cross_validate_toeplitz_fit_int Q Q_scalar Q_backend X 1 1 0%Q 0%Q 0
    (1 # 10)%Q (1 # 100000000)%Q 1 20 = Raise ZeroDivisionError ∧
  ((-2 < 0)%Z ∧
   @cross_validate_toeplitz_fit_int Q Q_scalar Q_backend X 1 1 0%Q 0%Q (-2)
     (1 # 10)%Q (1 # 100000000)%Q 1 20 = Raise ValueError) ∧
  ((1 ≤ 2)%Z ∧ (0 ≤ 0 ∨ 1 < 0)%Z ∧
   @cross_validate_toeplitz_fit_int Q Q_scalar Q_backend X 1 0 0%Q 0%Q 2
     (1 # 10)%Q (1 # 100000000)%Q 1 20 = Raise ValueError) ∧
  ((-2 < 0)%Z ∧
   @regularize_cov_int Q Q_scalar Q_backend X 1 1 [0%Q] [0%Q] (-2)
     (1 # 10)%Q (1 # 100000000)%Q 1 20 = Raise ValueError) ∧
  @regularize_cov_int Q Q_scalar Q_backend X 1 1 [0%Q] [0%Q] 0
    (1 # 10)%Q (1 # 100000000)%Q 1 20 = Raise ZeroDivisionError ∧
  ((1 ≤ 2)%Z ∧ (1 ≤ 0 ∨ -1 < 0)%Z ∧
   @regularize_cov_int Q Q_scalar Q_backend X (-1) 1 [0%Q] [0%Q] 2
     (1 # 10)%Q (1 # 100000000)%Q 1 20 = Raise ValueError).
Proof.
  intros X.
  assert (has_shape [[1%Q]] (Z.to_nat 1 * Z.to_nat 1)
            (Z.to_nat 1 * Z.to_nat 1)) as Hshape
    by (split; [reflexivity|repeat constructor]).
  assert (@svd_shapes Q Q_backend (2 * Z.to_nat 1 - 1) (Z.to_nat 1 ^ 2))
    as Hsvd by (apply svd_row_shapes; simpl; lia).
  pose (thm := λ ps pt num_folds,
    @configuration_is_not_checked Q Q_scalar Q_backend X [[1%Q]]
      ps pt num_folds 0%Q 0%Q [] [] [0%Q] [0%Q] (1 # 10)%Q
      (1 # 100000000)%Q 1 20).
  split_and!; try lia; try exact Hshape; try exact Hsvd.
  - destruct (thm 1 1 2)%Z as (_ & _ & _ & _ & _ & _ & _ & Hok & _).
    apply Hok; [lia|lia|exact Hshape|exact Hsvd|lia|lia].
  - destruct (thm 1 0 2)%Z as (Hs & _). apply Hs. lia.
  - destruct (thm 1 (-1) 2)%Z as (Hs & _). apply Hs. lia.
  - destruct (thm (-1) 1 2)%Z as (Hs & _). apply Hs. lia.
  - destruct (thm 1 1 0)%Z as (_ & Hz & _). by apply Hz.
  - destruct (thm 1 1 (-2))%Z as (_ & _ & Hn & _). apply Hn. lia.
  - destruct (thm 1 0 2)%Z as (_ & _ & _ & Hb & _). apply Hb; lia.
  - destruct (thm 1 1 (-2))%Z as (_ & _ & _ & _ & Hn & _). apply Hn. lia.
  - destruct (thm 1 1 0)%Z as (_ & _ & _ & _ & _ & Hz & _). by apply Hz.
  - destruct (thm (-1) 1 2)%Z as (_ & _ & _ & _ & _ & _ & Hb & _).
    apply Hb; lia.
Defined.
